(** * pytype/utils.py: memoize, DynamicVar and AnnotatingDecorator

    A shallow embedding of the three stateful helpers of [pytype/utils.py]
    and the properties their documentation promises.

    - Python objects are the inductive [Value]; dictionaries with string keys
      ([args], [defaults], [shared_dict], [lookup]) and the memoization cache
      are stdpp [gmap]s; [threading.local] is a map from thread identifiers
      to the attributes of that thread.
    - Code that can raise returns a [Result]; mutable closure variables are
      threaded explicitly.
    - A function wrapped by [memoize] is given by what it does up to each
      call it makes of its own wrapper, so that recursion through the
      wrapper works on the wrapper's dictionaries as they are. *)

From Stdlib Require Import ZArith String Ascii List DecimalString DecimalZ DecimalPos.
From stdpp Require Import base option list countable gmap strings fin_maps.

Local Open Scope string_scope.
Local Open Scope list_scope.
Local Open Scope Z_scope.
Local Set Warnings "-register-all".

(** ** Python objects *)

Module Py.

(** The objects that flow through the three helpers.  [VList] stands for the
    unhashable containers, [VObj] for an instance that hashes and compares by
    identity, [VBuiltin] for a member of the [builtins] namespace. *)
Inductive Value : Type :=
| VNone
| VInt (z : Z)
| VStr (s : string)
| VTuple (items : list Value)
| VList (items : list Value)
| VObj (addr : N)
| VBuiltin (name : string).

(** Exceptions.  [UserError] is anything raised by wrapped user code. *)
Inductive Exn : Type :=
| SyntaxError
| NameError (name : string)
| IndexError
| TypeError
| UserError (payload : Value).

Inductive Result (A : Type) : Type :=
| Return (a : A)
| Raise (e : Exn).
Arguments Return {A} a.
Arguments Raise {A} e.

(** Nested induction over [Value]. *)
Lemma Value_nested_ind (P : Value → Prop) :
  P VNone →
  (∀ z, P (VInt z)) →
  (∀ s, P (VStr s)) →
  (∀ items, Forall P items → P (VTuple items)) →
  (∀ items, Forall P items → P (VList items)) →
  (∀ a, P (VObj a)) →
  (∀ n, P (VBuiltin n)) →
  ∀ v, P v.
Proof.
  intros HNone HInt HStr HTuple HList HObj HBuiltin.
  fix IH 1. intros [ | z | s | items | items | a | n ].
  - exact HNone.
  - apply HInt.
  - apply HStr.
  - apply HTuple. induction items as [ | x xs IHxs ]; constructor; [ apply IH | exact IHxs ].
  - apply HList. induction items as [ | x xs IHxs ]; constructor; [ apply IH | exact IHxs ].
  - apply HObj.
  - apply HBuiltin.
Qed.

(** Values are countable, through stdpp's generic trees; this is what lets
    them be dictionary keys. *)
Definition ValueLeaf : Type := (Z + string + N + string)%type.

Fixpoint Value_to_tree (v : Value) : gen_tree ValueLeaf :=
  match v with
  | VNone => GenNode 0 []
  | VInt z => GenLeaf (inl (inl (inl z)))
  | VStr s => GenLeaf (inl (inl (inr s)))
  | VTuple items => GenNode 1 (map Value_to_tree items)
  | VList items => GenNode 2 (map Value_to_tree items)
  | VObj a => GenLeaf (inl (inr a))
  | VBuiltin n => GenLeaf (inr n)
  end.

Fixpoint Value_of_tree (t : gen_tree ValueLeaf) : Value :=
  match t with
  | GenLeaf (inl (inl (inl z))) => VInt z
  | GenLeaf (inl (inl (inr s))) => VStr s
  | GenLeaf (inl (inr a)) => VObj a
  | GenLeaf (inr n) => VBuiltin n
  | GenNode 1 ts => VTuple (map Value_of_tree ts)
  | GenNode 2 ts => VList (map Value_of_tree ts)
  | GenNode _ _ => VNone
  end.

Lemma Value_of_to_tree v : Value_of_tree (Value_to_tree v) = v.
Proof.
  induction v as [ | z | s | items IH | items IH | a | n ] using Value_nested_ind;
    simpl; try reflexivity.
  - f_equal. induction IH as [ | x xs Hx _ IHxs ]; simpl; [ reflexivity | ].
    by rewrite Hx, IHxs.
  - f_equal. induction IH as [ | x xs Hx _ IHxs ]; simpl; [ reflexivity | ].
    by rewrite Hx, IHxs.
Qed.

#[global] Instance Value_eq_dec : EqDecision Value.
Proof.
  intros x y.
  destruct (decide (Value_to_tree x = Value_to_tree y)) as [Heq | Hne].
  - left. rewrite <- (Value_of_to_tree x), <- (Value_of_to_tree y). by rewrite Heq.
  - right. intros ->. by apply Hne.
Defined.

#[global] Instance Value_countable : Countable Value :=
  inj_countable' Value_to_tree Value_of_tree Value_of_to_tree.

End Py.

Import Py.

(** ** Key expressions: [compile(key, mode="eval")] and [eval]

    The keys this module builds and documents are names, parenthesised
    expressions and tuples.  [compile] is embedded on that fragment of the
    expression grammar: it answers [None] for a source text outside of it
    (other characters, literals, keywords, calls), about which the embedding
    says nothing. *)

Module KeyExpr.

Inductive token : Type :=
| TName (n : string)
| TLParen
| TRParen
| TComma
| TOther.

Definition is_digit (c : ascii) : bool :=
  let n := nat_of_ascii c in (48 <=? n)%nat && (n <=? 57)%nat.

Definition is_ident_start (c : ascii) : bool :=
  let n := nat_of_ascii c in
  ((65 <=? n)%nat && (n <=? 90)%nat) || ((97 <=? n)%nat && (n <=? 122)%nat)
  || (n =? 95)%nat.

Definition is_ident_char (c : ascii) : bool := is_ident_start c || is_digit c.

Definition starts_with_ident_char (s : string) : bool :=
  match s with
  | String c _ => is_ident_char c
  | EmptyString => false
  end.

(** The scanner: a maximal run of identifier characters is one name, a space
    separates, and the three punctuation marks stand for themselves. *)
Fixpoint scan (s : string) : list token :=
  match s with
  | EmptyString => []
  | String c rest =>
      if is_ident_char c then
        if starts_with_ident_char rest then
          match scan rest with
          | TName n :: ts => TName (String c n) :: ts
          | ts => TOther :: ts
          end
        else TName (String c EmptyString) :: scan rest
      else if Ascii.eqb c " " then scan rest
      else if Ascii.eqb c "(" then TLParen :: scan rest
      else if Ascii.eqb c ")" then TRParen :: scan rest
      else if Ascii.eqb c "," then TComma :: scan rest
      else TOther :: scan rest
  end.

(** Words the grammar reserves in some version of the language. *)
Definition keywords : list string :=
  [ "False"; "None"; "True"; "and"; "as"; "assert"; "async"; "await";
    "break"; "class"; "continue"; "def"; "del"; "elif"; "else"; "except";
    "exec"; "finally"; "for"; "from"; "global"; "if"; "import"; "in"; "is";
    "lambda"; "nonlocal"; "not"; "or"; "pass"; "print"; "raise"; "return";
    "try"; "while"; "with"; "yield" ].

Definition is_dunder (n : string) : bool :=
  match n with
  | String "_" (String "_" _) => true
  | _ => false
  end.

(** The names of the fragment: identifiers that are neither reserved nor
    start with two underscores. *)
Definition is_name (n : string) : bool :=
  match n with
  | String c _ =>
      is_ident_start c && forallb is_ident_char (list_ascii_of_string n)
      && negb (bool_decide (n ∈ keywords)) && negb (is_dunder n)
  | EmptyString => false
  end.

Definition token_ok (t : token) : bool :=
  match t with
  | TName n => is_name n
  | TOther => false
  | _ => true
  end.

Definition tokenize (s : string) : option (list token) :=
  match s with
  | String " " _ => None
  | _ => let ts := scan s in if forallb token_ok ts then Some ts else None
  end.

Inductive expr : Type :=
| EName (n : string)
| ETuple (items : list expr).

(** One level of parentheses being read: the items so far, last first, and
    what the grammar expects next. *)
Inductive slot : Type := Start | AfterComma | Have.

Definition frame : Type := (list expr * slot)%type.

Definition close (f : frame) : expr :=
  match f with
  | (_, Start) => ETuple []
  | ([e], Have) => e
  | (items, _) => ETuple (rev items)
  end.

Inductive parsed : Type :=
| Parsed (e : expr)
| Malformed
| Unsupported.

Fixpoint parse (ts : list token) (cur : frame) (outer : list frame) : parsed :=
  match ts with
  | [] =>
      match outer, cur with
      | _ :: _, _ => Malformed
      | [], (_, Start) => Malformed
      | [], _ => Parsed (close cur)
      end
  | TName n :: ts' =>
      match cur with
      | (_, Have) => Malformed
      | (items, _) => parse ts' (EName n :: items, Have) outer
      end
  | TLParen :: ts' =>
      match cur with
      | (_, Have) => Unsupported
      | _ => parse ts' ([], Start) (cur :: outer)
      end
  | TComma :: ts' =>
      match cur with
      | (items, Have) => parse ts' (items, AfterComma) outer
      | _ => Malformed
      end
  | TRParen :: ts' =>
      match outer with
      | [] => Malformed
      | (items, _) :: outer' => parse ts' (close cur :: items, Have) outer'
      end
  | TOther :: _ => Unsupported
  end.

(** [compile(source, filename, "eval")]. *)
Definition compile (source : string) : option (Result expr) :=
  match tokenize source with
  | None => None
  | Some ts =>
      match parse ts ([], Start) [] with
      | Parsed e => Some (Return e)
      | Malformed => Some (Raise SyntaxError)
      | Unsupported => None
      end
  end.

Section Eval.
(** The names of the [builtins] module, where a name that the globals do
    not bind is looked up. *)
Variable builtins : string → bool.

Fixpoint eval_items (ev : expr → Result Value) (items : list expr) : Result (list Value) :=
  match items with
  | [] => Return []
  | e :: rest =>
      match ev e with
      | Raise x => Raise x
      | Return v =>
          match eval_items ev rest with
          | Raise x => Raise x
          | Return vs => Return (v :: vs)
          end
      end
  end.

(** [eval(code, globals)]: a name is read from the globals, then from the
    builtins.  ([eval] also stores the builtins in the globals it is given,
    under a name with two leading underscores; no name of the fragment can
    read that entry, and the embedding leaves it out.) *)
Fixpoint eval (globals : gmap string Value) (e : expr) : Result Value :=
  match e with
  | EName n =>
      match globals !! n with
      | Some v => Return v
      | None => if builtins n then Return (VBuiltin n) else Raise (NameError n)
      end
  | ETuple items =>
      match eval_items (eval globals) items with
      | Raise x => Raise x
      | Return vs => Return (VTuple vs)
      end
  end.
End Eval.

End KeyExpr.

Import KeyExpr.

(** ** Dictionaries *)

(** [dict(pairs)]: a later pair wins over an earlier one with the same key. *)
Definition dict_of_pairs {K V} `{Countable K} (pairs : list (K * V)) : gmap K V :=
  fold_left (λ d p, <[p.1 := p.2]> d) pairs ∅.

(** [d.update(other)]. *)
Definition dict_update {K V} `{Countable K} (d other : gmap K V) : gmap K V :=
  other ∪ d.

(** Truth value of a dictionary: [False] exactly when it is empty. *)
Definition dict_truthy {K V} `{Countable K} `{EqDecision V} (d : gmap K V) : bool :=
  negb (bool_decide (d = ∅)).

(** ** memoize *)

Module Memoize.

(** [hash(v)] raises [TypeError] on a list, and on a tuple that holds one. *)
Fixpoint hashable (v : Value) : bool :=
  match v with
  | VList _ => false
  | VTuple items => forallb hashable items
  | _ => true
  end.

Section WithWorld.
(** Whatever state the wrapped function reads and writes, the two
    dictionaries of its wrapper apart: those it reaches by calling the
    wrapper, and in no other way. *)
Context {World : Type}.
Variable builtins : string → bool.

(** What one call of a function does, seen from its wrapper.  The function
    runs on the world until it returns or raises ([Done]), or until it calls
    the wrapper, as a recursive function does through the name that the
    decorator has rebound ([Reenter]); it then goes on from what that call
    returned or raised, which it is free to catch.  Between two such calls
    its own computation is taken to end. *)
Inductive Body : Type :=
| Done (r : Result Value) (w : World)
| Reenter (posargs : list Value) (kwargs : gmap string Value) (w : World)
    (resume : Result Value → World → Body).

(** A function object: its code's [co_varnames] and [co_argcount], its
    [__defaults__] ([None] or a tuple), and what calling it as
    [f( *posargs, **kwargs)] does. *)
Record Function : Type := {
  co_varnames : list string;
  co_argcount : nat;
  func_defaults : option (list Value);
  func_call : list Value → gmap string Value → World → Body
}.

Definition _arg_names (f : Function) : list string :=
  take (co_argcount f) (co_varnames f).

(** An instance of the class: [__init__] stores the key. *)
Record memoize : Type := { key : string }.

(** What the closure [call] captures from [__call__]: the immutable
    variables, and (in [Cells]) the two dictionaries it mutates. *)
Record Closure : Type := {
  key_program : expr;
  argnames : list string;
  defaults : gmap string Value;
  pos_and_arg_tuples : list (nat * string);
  wrapped : Function
}.

Record Cells : Type := {
  memoized : gmap Value Value;
  shared_dict : gmap string Value
}.

Definition fresh_cells : Cells := {| memoized := ∅; shared_dict := ∅ |}.

(** [memoize.__call__(self, f)]: the wrap.  [compile] runs here. *)
Definition memoize_call (self : memoize) (f : Function) : option (Result Closure) :=
  match compile (key self) with
  | None => None
  | Some (Raise e) => Some (Raise e)
  | Some (Return key_program) =>
      let argnames := _arg_names f in
      let defaults :=
        match func_defaults f with
        | Some (d :: ds) =>
            let n := length (d :: ds) in
            dict_of_pairs (zip (drop (length argnames - n) argnames) (d :: ds))
        | _ => ∅
        end in
      let pos_and_arg_tuples := zip (seq 0 (co_argcount f)) argnames in
      Some (Return {| key_program := key_program; argnames := argnames;
                      defaults := defaults;
                      pos_and_arg_tuples := pos_and_arg_tuples;
                      wrapped := f |})
  end.

(** The key built for a bare function: ["(" + ", ".join(names) + ")"]. *)
Definition default_key (f : Function) : string :=
  ("(" ++ String.concat ", " (_arg_names f) ++ ")")%string.

(** [memoize.__new__] followed, for a key, by [__init__]: applied to a
    function it returns the wrapped function, applied to a key it returns
    the instance that will wrap. *)
Definition memoize_new (key_or_function : Function + string)
  : option (Result (Closure + memoize)) :=
  match key_or_function with
  | inl f =>
      match memoize_call {| key := default_key f |} f with
      | None => None
      | Some (Raise e) => Some (Raise e)
      | Some (Return c) => Some (Return (inl c))
      end
  | inr key => Some (Return (inr {| key := key |}))
  end.

(** The loop of the fast path: [shared_dict[arg] = posargs[pos]] for each
    pair, stopping at the first position that [posargs] lacks. *)
Fixpoint fill_shared (pairs : list (nat * string)) (posargs : list Value)
    (d : gmap string Value) : Result unit * gmap string Value :=
  match pairs with
  | [] => (Return tt, d)
  | (pos, arg) :: rest =>
      match posargs !! pos with
      | Some v => fill_shared rest posargs (<[arg := v]> d)
      | None => (Raise IndexError, d)
      end
  end.

(** The mapping of the slow path. *)
Definition slow_args (c : Closure) (posargs : list Value)
    (kwargs : gmap string Value) : gmap string Value :=
  let args := defaults c in
  let args := dict_update args (dict_of_pairs (zip (argnames c) posargs)) in
  dict_update args kwargs.

(** First half of [call]: the key, and the scratch dictionary after it. *)
Definition derive_key (c : Closure) (posargs : list Value)
    (kwargs : gmap string Value) (shared : gmap string Value)
  : Result Value * gmap string Value :=
  if dict_truthy kwargs || dict_truthy (defaults c) then
    (eval builtins (slow_args c posargs kwargs) (key_program c), shared)
  else
    match fill_shared (pos_and_arg_tuples c) posargs shared with
    | (Raise e, shared') => (Raise e, shared')
    | (Return _, shared') => (eval builtins shared' (key_program c), shared')
    end.

(** What one call of the wrapper leaves behind; [invoked] lists, in their
    order, the argument lists with which the wrapped function was run
    between the start of the call and its end: by the call itself and by
    the calls of the wrapper made from inside the wrapped function. *)
Record Outcome : Type := {
  result : Result Value;
  cells : Cells;
  world : World;
  invoked : list (list Value * gmap string Value)
}.

(** Running the wrapped function, [self] being what a call of the wrapper
    does: every call of the wrapper it makes works on the two dictionaries
    as they are at that moment. *)
Fixpoint run (self : list Value → gmap string Value → Cells → World → option Outcome)
    (b : Body) (st : Cells) : option Outcome :=
  match b with
  | Done r w => Some {| result := r; cells := st; world := w; invoked := [] |}
  | Reenter posargs kwargs w resume =>
      match self posargs kwargs st w with
      | None => None
      | Some o =>
          match run self (resume (result o) (world o)) (cells o) with
          | None => None
          | Some o' =>
              Some {| result := result o'; cells := cells o'; world := world o';
                      invoked := invoked o ++ invoked o' |}
          end
      end
  end.

(** The closure [call( *posargs, **kwargs)].  [depth] bounds how deep calls
    of the wrapper may nest inside the wrapped function; the answer is
    [None] when the nesting goes deeper.  After the wrapped function has
    returned, [memoized[key] = result] assigns into the dictionary as the
    function left it. *)
Fixpoint call (depth : nat) (c : Closure) (posargs : list Value)
    (kwargs : gmap string Value) (st : Cells) (w : World) : option Outcome :=
  match depth with
  | O => None
  | S depth =>
      match derive_key c posargs kwargs (shared_dict st) with
      | (Raise e, shared') =>
          Some {| result := Raise e;
                  cells := {| memoized := memoized st; shared_dict := shared' |};
                  world := w; invoked := [] |}
      | (Return k, shared') =>
          if hashable k then
            match memoized st !! k with
            | Some r =>
                Some {| result := Return r;
                        cells := {| memoized := memoized st; shared_dict := shared' |};
                        world := w; invoked := [] |}
            | None =>
                match run (call depth c) (func_call (wrapped c) posargs kwargs w)
                        {| memoized := memoized st; shared_dict := shared' |} with
                | None => None
                | Some o =>
                    Some {| result := result o;
                            cells :=
                              match result o with
                              | Return r =>
                                  {| memoized := <[k := r]> (memoized (cells o));
                                     shared_dict := shared_dict (cells o) |}
                              | Raise _ => cells o
                              end;
                            world := world o;
                            invoked := (posargs, kwargs) :: invoked o |}
                end
            end
          else
            Some {| result := Raise TypeError;
                    cells := {| memoized := memoized st; shared_dict := shared' |};
                    world := w; invoked := [] |}
      end
  end.

End WithWorld.

Arguments Body World : clear implicits.
Arguments Function World : clear implicits.
Arguments Closure World : clear implicits.
Arguments Outcome World : clear implicits.

(** *** The running example: [square], counting its invocations *)

(** Some names of the builtins module. *)
Definition pybuiltins (n : string) : bool :=
  bool_decide (n ∈ ["id"; "len"; "hash"; "repr"; "str"; "int"; "tuple"; "type"]).

Definition square : Function nat :=
  {| co_varnames := ["x"]; co_argcount := 1; func_defaults := None;
     func_call := λ posargs kwargs counter,
       match posargs with
       | [VInt x] => Done (Return (VInt (x * x))) (S counter)
       | _ => Done (Raise TypeError) counter
       end |}.

End Memoize.

(** ** DynamicVar *)

Module DynamicVar.

Definition thread : Type := nat.

(** [self._local]: for each thread, the list object held by its attribute
    [values], if the attribute is set.  The list object of a thread is only
    ever reached through that attribute, so its thread names it. *)
Abbreviation ThreadLocal := (gmap thread (list Value)).

(** [__init__]: a fresh [threading.local()]. *)
Definition init : ThreadLocal := ∅.

(** [_values]: the calling thread's list, created as [[None]] on first use.
    The list object returned is the one now stored for [tid]. *)
Definition _values (tid : thread) (st : ThreadLocal) : ThreadLocal :=
  match st !! tid with
  | None => <[tid := [VNone]]> st
  | Some _ => st
  end.

(** [values.append(value)] on the list object of [owner]. *)
Definition list_append (owner : thread) (value : Value)
    (st : ThreadLocal) : ThreadLocal :=
  match st !! owner with
  | Some vs => <[owner := vs ++ [value]]> st
  | None => st
  end.

(** [values.pop()] on the list object of [owner]: [IndexError] when empty. *)
Definition list_pop (owner : thread) (st : ThreadLocal)
  : Result Value * ThreadLocal :=
  match st !! owner with
  | Some vs =>
      match last vs with
      | Some v => (Return v, <[owner := removelast vs]> st)
      | None => (Raise IndexError, st)
      end
  | None => (Raise IndexError, st)
  end.

(** [get]: [self._values()[-1]]. *)
Definition get (tid : thread) (st : ThreadLocal)
  : Result Value * ThreadLocal :=
  let st' := _values tid st in
  match st' !! tid with
  | Some vs =>
      match last vs with
      | Some v => (Return v, st')
      | None => (Raise IndexError, st')
      end
  | None => (Raise IndexError, st')
  end.

(** What a thread does to the variable, one primitive at a time. *)
Inductive event : Type :=
| Read (v : Value)
| Pushed (v : Value)
| Popped (v : Value).

(** Code running on a thread: its outcome, the state it leaves, and every
    primitive it performed with the state right after it. *)
Definition M (A : Type) : Type :=
  ThreadLocal → Result A * ThreadLocal * list (event * ThreadLocal).

(** The generator of [bind] up to its [yield]. *)
Definition bind_enter (tid : thread) (value : Value)
    (st : ThreadLocal) : ThreadLocal :=
  let st := _values tid st in
  list_append tid value st.

(** The [finally] clause of [bind]. *)
Definition bind_exit (tid : thread) (st : ThreadLocal)
  : Result Value * ThreadLocal :=
  list_pop tid st.

(** [with self.bind(value): body].  The body's outcome, a value or a raised
    exception, passes through the [finally] clause. *)
Definition bind {A} (tid : thread) (value : Value) (body : M A) : M A :=
  λ st,
    let st1 := bind_enter tid value st in
    let '(r, st2, tr) := body st1 in
    match bind_exit tid st2 with
    | (Return v, st3) => (r, st3, (Pushed value, st1) :: tr ++ [(Popped v, st3)])
    | (Raise e, st3) => (Raise e, st3, (Pushed value, st1) :: tr)
    end.

(** Client code of one variable: [pass], [raise e], [x = var.get()] and
    what follows, [with var.bind(value): body], sequencing, and
    [try: p / except e: handler(e)]. *)
Inductive prog : Type :=
| Skip
| Throw (e : Exn)
| Get (k : Value → prog)
| With (value : Value) (body : prog)
| Seq (p q : prog)
| Try (p : prog) (handler : Exn → prog).

Fixpoint exec (tid : thread) (p : prog) : M unit :=
  match p with
  | Skip => λ st, (Return tt, st, [])
  | Throw e => λ st, (Raise e, st, [])
  | Get k => λ st,
      match get tid st with
      | (Return v, st1) =>
          let '(r, st2, tr) := exec tid (k v) st1 in (r, st2, (Read v, st1) :: tr)
      | (Raise e, st1) => (Raise e, st1, [])
      end
  | With value body => bind tid value (exec tid body)
  | Seq p q => λ st,
      match exec tid p st with
      | (Return _, st1, tr1) =>
          let '(r, st2, tr2) := exec tid q st1 in (r, st2, tr1 ++ tr2)
      | (Raise e, st1, tr1) => (Raise e, st1, tr1)
      end
  | Try p handler => λ st,
      match exec tid p st with
      | (Return _, st1, tr1) => (Return tt, st1, tr1)
      | (Raise e, st1, tr1) =>
          let '(r, st2, tr2) := exec tid (handler e) st1 in (r, st2, tr1 ++ tr2)
      end
  end.

End DynamicVar.

(** ** AnnotatingDecorator *)

Module AnnotatingDecorator.

Section WithFunctions.
(** Function objects and their [__name__]; the attached values. *)
Context {F V : Type}.
Variable name_of : F → string.

Record AnnotatingDecorator : Type := { lookup : gmap string V }.

(** [__init__]. *)
Definition init : AnnotatingDecorator := {| lookup := ∅ |}.

(** The closure [decorate] of [__call__(self, value)]: the function it
    returns and the registry after the assignment. *)
Definition decorate (self : AnnotatingDecorator) (value : V) (f : F)
  : F * AnnotatingDecorator :=
  (f, {| lookup := <[name_of f := value]> (lookup self) |}).

(** [self(value)]. *)
Definition call (self : AnnotatingDecorator) (value : V)
  : F → F * AnnotatingDecorator :=
  decorate self value.

(** A module's worth of decorated definitions, top to bottom. *)
Definition register_all (regs : list (V * F)) (self : AnnotatingDecorator)
  : AnnotatingDecorator :=
  fold_left (λ r vf, (call r vf.1 vf.2).2) regs self.

(** Modelled from the spec: the query [lookup(name)] of the registry.  The
    source only holds the dictionary [self.lookup] and leaves querying it
    to its callers; the spec's query answers the attached value or an
    explicit absent result, which is [dict.get]. *)
Definition lookup_query (self : AnnotatingDecorator) (name : string) : option V :=
  lookup self !! name.
End WithFunctions.

End AnnotatingDecorator.

(** ** The string and list helpers of the module *)

Module PyStr.

(** [len(s)], [s[n:]] and [s[:n]] for a count [n] that is not negative. *)
Fixpoint drop_chars (n : nat) (s : string) : string :=
  match n, s with
  | O, _ => s
  | S n', String _ rest => drop_chars n' rest
  | S _, EmptyString => EmptyString
  end.

Fixpoint take_chars (n : nat) (s : string) : string :=
  match n, s with
  | O, _ => EmptyString
  | S n', String c rest => String c (take_chars n' rest)
  | S _, EmptyString => EmptyString
  end.

(** [s[0:stop]] for any integer [stop]: a negative [stop] counts from the
    end, and the bound is clamped to the string. *)
Definition slice_to (s : string) (stop : Z) : string :=
  let len := Z.of_nat (String.length s) in
  let stop := if stop <? 0 then Z.max 0 (stop + len) else Z.min stop len in
  take_chars (Z.to_nat stop) s.

(** [s.startswith(prefix)]. *)
Fixpoint startswith (s prefix : string) {struct prefix} : bool :=
  match prefix, s with
  | EmptyString, _ => true
  | String p prefix', String c s' => Ascii.eqb c p && startswith s' prefix'
  | String _ _, EmptyString => false
  end.

(** [s.split(sep)] for a separator of one character. *)
Fixpoint split (sep : ascii) (s : string) : list string :=
  match s with
  | EmptyString => [EmptyString]
  | String c rest =>
      if Ascii.eqb c sep then EmptyString :: split sep rest
      else
        match split sep rest with
        | w :: ws => String c w :: ws
        | [] => [String c EmptyString]
        end
  end.

(** [s.lstrip(c)] for a set of one character. *)
Fixpoint lstrip (c : ascii) (s : string) : string :=
  match s with
  | String a rest => if Ascii.eqb a c then lstrip c rest else s
  | EmptyString => EmptyString
  end.

(** [str(n)] of an integer. *)
Definition str (n : Z) : string := NilZero.string_of_int (Z.to_int n).

End PyStr.

Module Utils.
Import PyStr.
Import KeyExpr.

(** [list_startswith(l, prefix)]: [l[:len(prefix)] == prefix]. *)
Definition list_startswith {A} `{EqDecision A} (l prefix : list A) : bool :=
  bool_decide (take (length prefix) l = prefix).

(** [list_strip_prefix(l, prefix)]. *)
Definition list_strip_prefix {A} `{EqDecision A} (l prefix : list A) : list A :=
  if list_startswith l prefix then drop (length prefix) l else l.

(** [strip_prefix(string, prefix)]. *)
Definition strip_prefix (s prefix : string) : string :=
  if startswith s prefix then drop_chars (String.length prefix) s else s.

(** [get_absolute_name(prefix, relative_name)]; [None] is Python's. *)
Definition get_absolute_name (prefix relative_name : string) : option string :=
  let path := match prefix with EmptyString => [] | _ => split "." prefix end in
  let name := lstrip "." relative_name in
  let ndots := (String.length relative_name - String.length name)%nat in
  if (length path <? ndots)%nat then None
  else
    let prefix :=
      String.concat "" (map (λ p, p ++ ".")%string
                          (take (length path + 1 - ndots) path)) in
    Some (prefix ++ name)%string.

(** [get_pyi_package_name(module_name, is_package)]; a [module_name] of
    [None] is the [None] of the option. *)
Definition get_pyi_package_name (module_name : option string) (is_package : bool)
  : string :=
  match module_name with
  | None => EmptyString
  | Some module_name =>
      let parts := split "." module_name in
      let parts := if negb is_package then removelast parts else parts in
      String.concat "." parts
  end.

(** [maybe_truncate(s, length)] on a string [s]. *)
Definition maybe_truncate (s : string) (length : Z) : string :=
  if length - 3 <? Z.of_nat (String.length s)
  then (slice_to s (length - 3) ++ "...")%string
  else s.

(** A dictionary in the order of its insertions, as [items()] gives it. *)
Definition odict (K V : Type) : Type := list (K * V).

Fixpoint odict_get {V} (k : string) (d : odict string V) : option V :=
  match d with
  | [] => None
  | (k', v) :: rest => if String.eqb k' k then Some v else odict_get k rest
  end.

(** [d[k].append(x)] on a [defaultdict(list)]: a missing key is first
    inserted, at the end, with an empty list. *)
Fixpoint defaultdict_append (k x : string) (d : odict string (list string))
  : odict string (list string) :=
  match d with
  | [] => [(k, [x])]
  | (k', xs) :: rest =>
      if String.eqb k' k then (k', xs ++ [x]) :: rest
      else (k', xs) :: defaultdict_append k x rest
  end.

(** [invert_dict(d)]: the two nested loops. *)
Definition invert_dict (d : odict string (list string)) : odict string (list string) :=
  fold_left
    (λ inverted item,
       fold_left (λ inverted val, defaultdict_append val item.1 inverted)
         item.2 inverted)
    d [].

(** *** Versions *)

(** The exceptions the helpers on versions raise. *)
Inductive error : Type :=
| UsageError (message : string)
| ValueError
| TypeError.

Inductive outcome (A : Type) : Type :=
| Ok (a : A)
| Err (e : error).
Arguments Ok {A} a.
Arguments Err {A} e.

(** A version is a tuple of integers. *)
Definition format_version (python_version : list Z) : string :=
  String.concat "." (map str python_version).

Definition is_int_char (c : ascii) : bool := is_digit c || Ascii.eqb c "-".

(** [int(s)] on the strings of digits and minus signs: digits, after at
    most one leading minus sign, are read in base ten, and anything else
    made of these characters raises [ValueError].  About a string with
    another character (a blank, a plus sign, an underscore, a letter) the
    embedding says nothing. *)
Definition py_int (s : string) : option (outcome Z) :=
  if forallb is_int_char (list_ascii_of_string s) then
    Some match NilZero.int_of_string s with
         | Some d => Ok (Z.of_int d)
         | None => Err ValueError
         end
  else None.

(** [map(int, l)] consumed by [tuple]: the first element that fails ends
    it. *)
Fixpoint map_int (l : list string) : option (outcome (list Z)) :=
  match l with
  | [] => Some (Ok [])
  | x :: rest =>
      match py_int x with
      | None => None
      | Some (Err e) => Some (Err e)
      | Some (Ok n) =>
          match map_int rest with
          | None => None
          | Some (Err e) => Some (Err e)
          | Some (Ok ns) => Some (Ok (n :: ns))
          end
      end
  end.

Definition parse_version (version_string : string) : option (outcome (list Z)) :=
  map_int (split "." version_string).

(** [a < b] and [a <= b] on tuples of integers: the first position where
    they differ decides, and a proper prefix is smaller. *)
Fixpoint tuple_lt (a b : list Z) : bool :=
  match a, b with
  | [], [] => false
  | [], _ :: _ => true
  | _ :: _, [] => false
  | x :: a', y :: b' => if x =? y then tuple_lt a' b' else x <? y
  end.

Fixpoint tuple_le (a b : list Z) : bool :=
  match a, b with
  | [], _ => true
  | _ :: _, [] => false
  | x :: a', y :: b' => if x =? y then tuple_le a' b' else x <? y
  end.

(** [repr(s)] of a string without quote, backslash or control character,
    as the text of a version is. *)
Definition repr (s : string) : string := ("'" ++ s ++ "'")%string.

Definition validate_version (python_version : list Z) : outcome unit :=
  if negb (length python_version =? 2)%nat then
    Err (UsageError ("python_version must be <major>.<minor>: "
                     ++ repr (format_version python_version)))
  else if tuple_le [3; 0] python_version && tuple_le python_version [3; 3] then
    Err (UsageError "Python versions 3.0 - 3.3 are not supported. Use 3.4 and higher.")
  else if tuple_lt [3; 6] python_version then
    Err (UsageError "Python versions > 3.6 are not yet supported.")
  else Ok tt.

(** ["python%d.%d" % python_version]: the format takes two arguments. *)
Definition get_python_exe (python_version : list Z) : outcome string :=
  match python_version with
  | [major; minor] => Ok ("python" ++ str major ++ "." ++ str minor)%string
  | _ => Err TypeError
  end.

(** *** Keys for sorting names that hold numbers *)

(** An element of a key: an integer or a string. *)
Inductive piece : Type :=
| PInt (n : Z)
| PStr (s : string).

Definition is_ascii (c : ascii) : bool := (nat_of_ascii c <? 128)%nat.

Definition starts_with_digit (s : string) : bool :=
  match s with
  | String c _ => is_digit c
  | EmptyString => false
  end.

(** [re.split(r"(\d+)", s)]: the text before the first run of digits, that
    run, the text up to the next run, and so on to the text after the last
    run; a text at either end or between two runs may be empty. *)
Fixpoint re_split_digits (s : string) : list string :=
  match s with
  | EmptyString => [EmptyString]
  | String c rest =>
      if is_digit c then
        if starts_with_digit rest then
          match re_split_digits rest with
          | _ :: d :: tail => EmptyString :: String c d :: tail
          | other => EmptyString :: String c EmptyString :: other
          end
        else EmptyString :: String c EmptyString :: re_split_digits rest
      else
        match re_split_digits rest with
        | t :: more => String c t :: more
        | [] => [String c EmptyString]
        end
  end.

(** [e.isdigit()]. *)
Definition isdigit (e : string) : bool :=
  match e with
  | EmptyString => false
  | _ => forallb is_digit (list_ascii_of_string e)
  end.

(** [int(e) if e.isdigit() else e]. *)
Definition key_piece (e : string) : option piece :=
  if isdigit e then
    match py_int e with
    | Some (Ok n) => Some (PInt n)
    | _ => None
    end
  else Some (PStr e).

(** [numeric_sort_key(s)], on ASCII text: there the digits of the pattern
    and of [isdigit] are the ten decimal digits. *)
Definition numeric_sort_key (s : string) : option (list piece) :=
  if forallb is_ascii (list_ascii_of_string s)
  then mapM key_piece (re_split_digits s)
  else None.

(** The order of the keys, which is that of tuples: [==] on the elements
    finds the first position where two keys differ, and [<] decides there.
    Between an integer and a string [==] is false and [<] raises
    [TypeError]. *)
Definition piece_eq (a b : piece) : bool :=
  match a, b with
  | PInt n, PInt m => n =? m
  | PStr s, PStr t => String.eqb s t
  | _, _ => false
  end.

Definition piece_lt (a b : piece) : outcome bool :=
  match a, b with
  | PInt n, PInt m => Ok (n <? m)
  | PStr s, PStr t => Ok (String.ltb s t)
  | _, _ => Err TypeError
  end.

Fixpoint key_lt (a b : list piece) : outcome bool :=
  match a, b with
  | [], [] => Ok false
  | [], _ :: _ => Ok true
  | _ :: _, [] => Ok false
  | x :: a', y :: b' => if piece_eq x y then key_lt a' b' else piece_lt x y
  end.

End Utils.

(** * Properties *)

(** ** AnnotatingDecorator: the registry *)

Module AnnotatingDecoratorSpec.
Import AnnotatingDecorator.

(** A function object of the examples: its name and its code. *)
Record named : Type := { fname : string; fbody : Z → Z }.

Section Registry.
Context {F V : Type}.
Variable name_of : F → string.

Lemma lookup_register_all_other (regs : list (V * F)) (self : AnnotatingDecorator)
    (name : string) :
  name ∉ map (λ vf, name_of vf.2) regs →
  lookup (register_all name_of regs self) !! name = lookup self !! name.
Proof.
  revert self. induction regs as [ | [v f] regs IH ]; intros self Hfresh; simpl.
  - reflexivity.
  - simpl in Hfresh. apply not_elem_of_cons in Hfresh as [Hne Hfresh].
    rewrite IH by exact Hfresh. simpl.
    apply lookup_insert_ne. congruence.
Qed.

(** C7.  Applying [self(value)] to a function [f] hands back [f] itself
    and leaves a registry in which the name of [f] maps to [value]; the
    other names keep what they had.  Registering a function [g] of the
    same name afterwards replaces the value: the registry is the one that
    the second registration alone would have produced. *)
Theorem register_round_trip (self : AnnotatingDecorator) (value value' : V) (f g : F) :
  name_of g = name_of f →
  let '(f', self1) := call name_of self value f in
  let '(g', self2) := call name_of self1 value' g in
  f' = f
  ∧ lookup self1 !! name_of f = Some value
  ∧ (∀ other, other ≠ name_of f → lookup self1 !! other = lookup self !! other)
  ∧ g' = g
  ∧ lookup self2 !! name_of f = Some value'
  ∧ self2 = (call name_of self value' g).2.
Proof.
  intros Hname. unfold call, decorate. simpl.
  repeat split.
  - apply lookup_insert_eq.
  - intros other Hother. apply lookup_insert_ne. congruence.
  - rewrite Hname. apply lookup_insert_eq.
  - f_equal. rewrite Hname. apply insert_insert_eq.
Qed.

(** C8.  In a registry built from the empty one by any series of
    registrations, the query of a name that none of them registered
    answers the absent value [None]: a result, not an exception. *)
Theorem lookup_unregistered_absent (regs : list (V * F)) (name : string) :
  name ∉ map (λ vf, name_of vf.2) regs →
  lookup_query (register_all name_of regs init) name = None.
Proof.
  intros Hfresh. unfold lookup_query.
  rewrite lookup_register_all_other by exact Hfresh.
  apply lookup_empty.
Qed.
End Registry.

Definition double : named := {| fname := "double"; fbody := λ x, 2 * x |}.
Definition double' : named := {| fname := "double"; fbody := λ x, x + x |}.
Definition negate : named := {| fname := "negate"; fbody := Z.opp |}.

Lemma register_round_trip_witness :
  fname double' = fname double
  ∧ let '(f', self1) := call fname init 3 double in
    let '(g', self2) := call fname self1 5 double' in
    f' = double
    ∧ lookup self1 !! fname double = Some 3
    ∧ (∀ other, other ≠ fname double → lookup self1 !! other = lookup init !! other)
    ∧ g' = double'
    ∧ lookup self2 !! fname double = Some 5
    ∧ self2 = (call fname init 5 double').2.
Proof.
  split; [ reflexivity | ].
  apply (register_round_trip fname init 3 5 double double'). reflexivity.
Defined.

Lemma lookup_unregistered_absent_witness :
  ("triple" ∉ map (λ vf : Z * named, fname vf.2) [(3, double); (7, negate)])
  ∧ (lookup_query (register_all fname [(3, double); (7, negate)] init) "triple" = None).
Proof.
  split; [ compute_done | ].
  apply (lookup_unregistered_absent fname [(3, double); (7, negate)] "triple").
  compute_done.
Defined.

End AnnotatingDecoratorSpec.

(** ** DynamicVar: scopes and threads *)

Module DynamicVarSpec.
Import DynamicVar.

(** The binding stack [_values] hands out to [tid]: the list of the thread,
    or the list [[None]] it would be given. *)
Definition stack (tid : thread) (st : ThreadLocal) : list Value :=
  default [VNone] (st !! tid).

(** The values the [get] calls of a run returned, in order. *)
Definition reads (tr : list (event * ThreadLocal)) : list Value :=
  omap (λ x, match x.1 with Read v => Some v | _ => None end) tr.

(** The states a run passed through. *)
Definition states (tr : list (event * ThreadLocal)) : list ThreadLocal :=
  map snd tr.

(** Every existing stack has the sentinel at its bottom. *)
Definition well_formed (st : ThreadLocal) : Prop :=
  ∀ t vs, st !! t = Some vs → head vs = Some VNone.

(** A stack with the sentinel at its bottom. *)
Definition sentinel (vs : list Value) : Prop := head vs = Some VNone.

Lemma sentinel_prefix (vs ws : list Value) :
  sentinel vs → vs `prefix_of` ws → sentinel ws.
Proof.
  unfold sentinel. intros Hvs [rest ->]. destruct vs; [ discriminate | exact Hvs ].
Qed.

Lemma lookup__values_self (tid : thread) (st : ThreadLocal) :
  _values tid st !! tid = Some (stack tid st).
Proof.
  unfold _values, stack. destruct (st !! tid) as [vs | ] eqn:E; simpl.
  - exact E.
  - apply lookup_insert_eq.
Qed.

Lemma lookup__values_other (tid t : thread) (st : ThreadLocal) :
  t ≠ tid → _values tid st !! t = st !! t.
Proof.
  intros Hne. unfold _values. destruct (st !! tid); [ reflexivity | ].
  by apply lookup_insert_ne.
Qed.

Lemma stack__values (tid : thread) (st : ThreadLocal) :
  stack tid (_values tid st) = stack tid st.
Proof. unfold stack at 1. by rewrite lookup__values_self. Qed.

Lemma _values_present (tid : thread) (st : ThreadLocal) :
  is_Some (st !! tid) → _values tid st = st.
Proof. intros [vs E]. unfold _values. by rewrite E. Qed.

Lemma lookup_bind_enter_self (tid : thread) (v : Value) (st : ThreadLocal) :
  bind_enter tid v st !! tid = Some (stack tid st ++ [v]).
Proof.
  unfold bind_enter, list_append. rewrite lookup__values_self.
  apply lookup_insert_eq.
Qed.

Lemma lookup_bind_enter_other (tid t : thread) (v : Value) (st : ThreadLocal) :
  t ≠ tid → bind_enter tid v st !! t = st !! t.
Proof.
  intros Hne. unfold bind_enter, list_append. rewrite lookup__values_self.
  rewrite lookup_insert_ne by done. by apply lookup__values_other.
Qed.

Lemma stack_bind_enter (tid : thread) (v : Value) (st : ThreadLocal) :
  stack tid (bind_enter tid v st) = stack tid st ++ [v].
Proof. unfold stack at 1. by rewrite lookup_bind_enter_self. Qed.

Lemma bind_exit_top (tid : thread) (vs : list Value) (v : Value) (st : ThreadLocal) :
  st !! tid = Some (vs ++ [v]) →
  bind_exit tid st = (Return v, <[tid := vs]> st).
Proof.
  intros E. unfold bind_exit, list_pop. rewrite E.
  by rewrite last_snoc, removelast_last.
Qed.

Lemma get_top (tid : thread) (st : ThreadLocal) :
  sentinel (stack tid st) →
  ∃ v, last (stack tid st) = Some v ∧ get tid st = (Return v, _values tid st).
Proof.
  intros Hs. unfold get. rewrite lookup__values_self.
  destruct (last (stack tid st)) as [v | ] eqn:E.
  - by exists v.
  - apply last_None in E. unfold sentinel in Hs. rewrite E in Hs. discriminate.
Qed.

(** What a run on [tid] from [st] may do: it leaves the stack of [tid] as it
    found it, keeps the attribute of [tid] once set, never touches another
    thread, and at every state it passes through the stack of [tid] extends
    the one it started from. *)
Definition balanced (tid : thread) (st : ThreadLocal)
    (out : Result unit * ThreadLocal * list (event * ThreadLocal)) : Prop :=
  stack tid out.1.2 = stack tid st
  ∧ (is_Some (st !! tid) → is_Some (out.1.2 !! tid))
  ∧ (∀ t, t ≠ tid → out.1.2 !! t = st !! t)
  ∧ Forall (λ s, stack tid st `prefix_of` stack tid s
                 ∧ ∀ t, t ≠ tid → s !! t = st !! t) (states out.2).

Lemma exec_balanced (tid : thread) (p : prog) :
  ∀ st, sentinel (stack tid st) → balanced tid st (exec tid p st).
Proof.
  induction p as [ | e | k IH | v body IH | p IHp q IHq | p IHp h IHh ]; intros st Hs.
  - repeat split; simpl; auto.
  - repeat split; simpl; auto.
  - simpl. destruct (get_top tid st Hs) as (v & _ & ->).
    specialize (IH v (_values tid st)).
    rewrite stack__values in IH. specialize (IH Hs).
    destruct (exec tid (k v) (_values tid st)) as [[r st2] tr] eqn:E.
    destruct IH as (Hstack & Hkeep & Hother & Hall). simpl in *.
    rewrite stack__values in Hstack, Hall.
    split; [ exact Hstack | ]. split; [ | split ].
    + intros _. apply Hkeep. rewrite lookup__values_self. eauto.
    + intros t Ht. rewrite Hother by done. by apply lookup__values_other.
    + constructor.
      * simpl. split; [ by rewrite stack__values | ].
        intros t Ht. by apply lookup__values_other.
      * eapply Forall_impl; [ exact Hall | ]. simpl. intros s [Hp Ho].
        split; [ exact Hp | ]. intros t Ht. rewrite Ho by done.
        by apply lookup__values_other.
  - simpl. unfold bind.
    assert (Hs1 : sentinel (stack tid (bind_enter tid v st))).
    { rewrite stack_bind_enter. eapply sentinel_prefix; [ exact Hs | ].
      by apply prefix_app_r. }
    specialize (IH _ Hs1).
    destruct (exec tid body (bind_enter tid v st)) as [[r st2] tr] eqn:E.
    destruct IH as (Hstack & Hkeep & Hother & Hall). simpl in *.
    rewrite stack_bind_enter in Hstack, Hall.
    assert (E2 : st2 !! tid = Some (stack tid st ++ [v])).
    { destruct Hkeep as [ws Hws]; [ rewrite lookup_bind_enter_self; eauto | ].
      unfold stack at 1 in Hstack. rewrite Hws in Hstack. simpl in Hstack.
      by rewrite Hws, Hstack. }
    rewrite (bind_exit_top tid _ v st2 E2).
    assert (Hfin : stack tid (<[tid := stack tid st]> st2) = stack tid st).
    { unfold stack at 1. by rewrite lookup_insert_eq. }
    assert (Hfr : ∀ t, t ≠ tid → <[tid := stack tid st]> st2 !! t = st !! t).
    { intros t Ht. rewrite lookup_insert_ne by done. rewrite Hother by done.
      by apply lookup_bind_enter_other. }
    split; [ exact Hfin | ]. split; [ | split ]; simpl.
    + intros _. rewrite lookup_insert_eq. eauto.
    + exact Hfr.
    + unfold states. simpl. constructor.
      * split; [ rewrite stack_bind_enter; by apply prefix_app_r | ].
        intros t Ht. by apply lookup_bind_enter_other.
      * rewrite map_app. apply Forall_app. split.
        -- eapply Forall_impl; [ exact Hall | ]. simpl. intros s [Hp Ho]. split.
           ++ etransitivity; [ | exact Hp ]. by apply prefix_app_r.
           ++ intros t Ht. rewrite Ho by done. by apply lookup_bind_enter_other.
        -- constructor; [ | constructor ]. simpl. split; [ by rewrite Hfin | exact Hfr ].
  - simpl. specialize (IHp st Hs).
    destruct (exec tid p st) as [[r1 st1] tr1] eqn:E1.
    destruct IHp as (Hstack1 & Hkeep1 & Hother1 & Hall1). simpl in *.
    destruct r1 as [ [] | e ].
    + assert (Hs1 : sentinel (stack tid st1)) by (by rewrite Hstack1).
      specialize (IHq st1 Hs1).
      destruct (exec tid q st1) as [[r2 st2] tr2] eqn:E2.
      destruct IHq as (Hstack2 & Hkeep2 & Hother2 & Hall2). simpl in *.
      unfold balanced; simpl.
      split; [ congruence | ]. split; [ tauto | ]. split.
      * intros t Ht. rewrite Hother2 by done. by apply Hother1.
      * unfold states. rewrite map_app. apply Forall_app. split; [ exact Hall1 | ].
        eapply Forall_impl; [ exact Hall2 | ]. simpl. intros s [Hp Ho]. split.
        -- by rewrite <- Hstack1.
        -- intros t Ht. rewrite Ho by done. by apply Hother1.
    + repeat split; simpl; auto.
  - simpl. specialize (IHp st Hs).
    destruct (exec tid p st) as [[r1 st1] tr1] eqn:E1.
    destruct IHp as (Hstack1 & Hkeep1 & Hother1 & Hall1). simpl in *.
    destruct r1 as [ [] | e ].
    + repeat split; simpl; auto.
    + assert (Hs1 : sentinel (stack tid st1)) by (by rewrite Hstack1).
      specialize (IHh e st1 Hs1).
      destruct (exec tid (h e) st1) as [[r2 st2] tr2] eqn:E2.
      destruct IHh as (Hstack2 & Hkeep2 & Hother2 & Hall2). simpl in *.
      unfold balanced; simpl.
      split; [ congruence | ]. split; [ tauto | ]. split.
      * intros t Ht. rewrite Hother2 by done. by apply Hother1.
      * unfold states. rewrite map_app. apply Forall_app. split; [ exact Hall1 | ].
        eapply Forall_impl; [ exact Hall2 | ]. simpl. intros s [Hp Ho]. split.
        -- by rewrite <- Hstack1.
        -- intros t Ht. rewrite Ho by done. by apply Hother1.
Qed.

Lemma well_formed_sentinel (tid : thread) (st : ThreadLocal) :
  well_formed st → sentinel (stack tid st).
Proof.
  intros Hwf. unfold stack, sentinel. destruct (st !! tid) as [vs | ] eqn:E; simpl.
  - by apply (Hwf tid).
  - reflexivity.
Qed.

Lemma well_formed_extends (tid : thread) (st s : ThreadLocal) :
  well_formed st →
  stack tid st `prefix_of` stack tid s →
  (∀ t, t ≠ tid → s !! t = st !! t) →
  well_formed s.
Proof.
  intros Hwf Hpre Hother t vs E. destruct (decide (t = tid)) as [-> | Hne].
  - assert (Hvs : stack tid s = vs) by (unfold stack; by rewrite E).
    rewrite Hvs in Hpre.
    exact (sentinel_prefix _ _ (well_formed_sentinel tid st Hwf) Hpre).
  - rewrite Hother in E by done. by apply (Hwf t).
Qed.

(** The scope of a [with]: one push, the body, one pop of what was pushed,
    whatever the outcome [r] of the body. *)
Lemma exec_With (tid : thread) (v : Value) (body : prog) (st : ThreadLocal) :
  sentinel (stack tid st) →
  ∀ r st2 tr, exec tid body (bind_enter tid v st) = (r, st2, tr) →
  let st3 := <[tid := stack tid st]> st2 in
  st2 !! tid = Some (stack tid st ++ [v])
  ∧ bind_exit tid st2 = (Return v, st3)
  ∧ exec tid (With v body) st
    = (r, st3, (Pushed v, bind_enter tid v st) :: tr ++ [(Popped v, st3)]).
Proof.
  intros Hs r st2 tr E.
  assert (Hs1 : sentinel (stack tid (bind_enter tid v st))).
  { rewrite stack_bind_enter. eapply sentinel_prefix; [ exact Hs | ].
    by apply prefix_app_r. }
  pose proof (exec_balanced tid body _ Hs1) as (Hstack & Hkeep & _ & _).
  rewrite E in Hstack, Hkeep. simpl in Hstack, Hkeep.
  rewrite stack_bind_enter in Hstack.
  assert (E2 : st2 !! tid = Some (stack tid st ++ [v])).
  { destruct Hkeep as [ws Hws]; [ rewrite lookup_bind_enter_self; eauto | ].
    unfold stack at 1 in Hstack. rewrite Hws in Hstack. simpl in Hstack.
    by rewrite Hws, Hstack. }
  split; [ exact E2 | ]. split; [ by apply bind_exit_top | ].
  simpl. unfold bind. rewrite E. by rewrite (bind_exit_top tid _ v st2 E2).
Qed.

(** Each primitive touches the attribute of the calling thread only: no
    assumption on the state is needed for that. *)
Lemma get_frame (tid t : thread) (st : ThreadLocal) :
  t ≠ tid → (get tid st).2 !! t = st !! t.
Proof.
  intros Hne. unfold get.
  destruct (_values tid st !! tid) as [vs | ]; [ destruct (last vs) | ]; simpl;
    by apply lookup__values_other.
Qed.

Lemma bind_exit_frame (tid t : thread) (st : ThreadLocal) :
  t ≠ tid → (bind_exit tid st).2 !! t = st !! t.
Proof.
  intros Hne. unfold bind_exit, list_pop.
  destruct (st !! tid) as [vs | ]; [ destruct (last vs) | ]; simpl; try done.
  by apply lookup_insert_ne.
Qed.

Lemma exec_frame (tid t : thread) (p : prog) :
  t ≠ tid →
  ∀ st, (exec tid p st).1.2 !! t = st !! t
        ∧ Forall (λ s, s !! t = st !! t) (states (exec tid p st).2).
Proof.
  intros Hne.
  pose proof (get_frame tid t) as Hget.
  pose proof (λ v st, lookup_bind_enter_other tid t v st Hne) as Henter.
  pose proof (bind_exit_frame tid t) as Hexit.
  induction p as [ | e | k IH | v body IH | p IHp q IHq | p IHp h IHh ]; intros st; simpl.
  - by split.
  - by split.
  - specialize (Hget st Hne). destruct (get tid st) as [[v | e] st1]; simpl in *.
    + specialize (IH v st1). destruct (exec tid (k v) st1) as [[r st2] tr]. simpl in *.
      destruct IH as [IH1 IH2]. split; [ congruence | ].
      constructor; [ exact Hget | ].
      eapply Forall_impl; [ exact IH2 | ]. simpl. congruence.
    + by split.
  - unfold bind. specialize (IH (bind_enter tid v st)). specialize (Henter v st).
    destruct (exec tid body (bind_enter tid v st)) as [[r st2] tr]. simpl in *.
    destruct IH as [IH1 IH2]. specialize (Hexit st2 Hne).
    assert (Hall : Forall (λ s, s !! t = st !! t) (states tr)).
    { eapply Forall_impl; [ exact IH2 | ]. simpl. congruence. }
    destruct (bind_exit tid st2) as [[x | e] st3]; simpl in *.
    + split; [ congruence | ]. constructor; [ exact Henter | ].
      unfold states in *. rewrite map_app. apply Forall_app. split; [ exact Hall | ].
      constructor; [ simpl; congruence | constructor ].
    + split; [ congruence | ]. by constructor.
  - specialize (IHp st). destruct (exec tid p st) as [[[ [] | e ] st1] tr1]; simpl in *.
    + specialize (IHq st1). destruct (exec tid q st1) as [[r2 st2] tr2]. simpl in *.
      destruct IHp as [P1 P2], IHq as [Q1 Q2]. split; [ congruence | ].
      unfold states in *. rewrite map_app. apply Forall_app. split; [ exact P2 | ].
      eapply Forall_impl; [ exact Q2 | ]. simpl. congruence.
    + exact IHp.
  - specialize (IHp st). destruct (exec tid p st) as [[[ [] | e ] st1] tr1]; simpl in *.
    + exact IHp.
    + specialize (IHh e st1). destruct (exec tid (h e) st1) as [[r2 st2] tr2]. simpl in *.
      destruct IHp as [P1 P2], IHh as [Q1 Q2]. split; [ congruence | ].
      unfold states in *. rewrite map_app. apply Forall_app. split; [ exact P2 | ].
      eapply Forall_impl; [ exact Q2 | ]. simpl. congruence.
Qed.

(** What [get] answers depends on the calling thread's attribute only. *)
Lemma get_local (tid : thread) (s st : ThreadLocal) :
  s !! tid = st !! tid → (get tid s).1 = (get tid st).1.
Proof.
  intros E. unfold get.
  assert (E' : _values tid s !! tid = _values tid st !! tid).
  { rewrite !lookup__values_self. unfold stack. by rewrite E. }
  rewrite E'. destruct (_values tid st !! tid) as [vs | ]; [ destruct (last vs) | ]; done.
Qed.

(** C5.  From a state in which every stack has the sentinel at its bottom,
    any code run on a thread passes only through such states, so no stack is
    ever empty, and it leaves the thread's stack as it found it.  A scope
    [with self.bind(value): body] pushes [value] once before the body runs,
    and pops it once after the body, whether the body returned or raised:
    the trace of the scope is the push, the body's trace, the pop. *)
Theorem stack_never_empty (tid : thread) (st : ThreadLocal) :
  well_formed st →
  (∀ p, let '(r, st', tr) := exec tid p st in
        Forall (λ s, well_formed s ∧ stack tid s ≠ []) (st' :: states tr)
        ∧ stack tid st' = stack tid st)
  ∧ (∀ value body,
       let st1 := bind_enter tid value st in
       let '(r, st2, tr) := exec tid body st1 in
       ∃ st3,
         stack tid st1 = stack tid st ++ [value]
         ∧ bind_exit tid st2 = (Return value, st3)
         ∧ stack tid st3 = stack tid st
         ∧ exec tid (With value body) st
           = (r, st3, (Pushed value, st1) :: tr ++ [(Popped value, st3)])).
Proof.
  intros Hwf. pose proof (well_formed_sentinel tid st Hwf) as Hs. split.
  - intros p. pose proof (exec_balanced tid p st Hs) as (Hstack & _ & Hother & Hall).
    destruct (exec tid p st) as [[r st'] tr]. simpl in *.
    assert (Hgood : ∀ s, stack tid st `prefix_of` stack tid s →
                         (∀ t, t ≠ tid → s !! t = st !! t) →
                         well_formed s ∧ stack tid s ≠ []).
    { intros s Hpre Ho. split; [ by eapply well_formed_extends | ].
      intros Hnil. pose proof (sentinel_prefix _ _ Hs Hpre) as Hbad.
      rewrite Hnil in Hbad. discriminate. }
    split; [ | exact Hstack ]. constructor.
    + apply Hgood; [ by rewrite Hstack | exact Hother ].
    + eapply Forall_impl; [ exact Hall | ]. simpl. intros s [Hp Ho]. by apply Hgood.
  - intros value body. simpl.
    destruct (exec tid body (bind_enter tid value st)) as [[r st2] tr] eqn:E.
    destruct (exec_With tid value body st Hs r st2 tr E) as (_ & Hexit & Hexec).
    exists (<[tid := stack tid st]> st2). split; [ apply stack_bind_enter | ].
    split; [ exact Hexit | ]. split; [ | exact Hexec ].
    unfold stack at 1. by rewrite lookup_insert_eq.
Qed.

(** The primitives of the variable, as threads may interleave them. *)
Inductive primitive : Type :=
| DoGet
| DoEnter (value : Value)
| DoExit.

Definition step (t : thread) (o : primitive) (st : ThreadLocal) : ThreadLocal :=
  match o with
  | DoGet => (get t st).2
  | DoEnter value => bind_enter t value st
  | DoExit => (bind_exit t st).2
  end.

(** A schedule: which thread performs which primitive, in the order in
    which they happen. *)
Definition interleave (schedule : list (thread * primitive)) (st : ThreadLocal)
  : ThreadLocal :=
  fold_left (λ s x, step x.1 x.2 s) schedule st.

Lemma interleave_frame (B : thread) (schedule : list (thread * primitive))
    (st : ThreadLocal) :
  Forall (λ x, x.1 ≠ B) schedule → interleave schedule st !! B = st !! B.
Proof.
  unfold interleave. revert st.
  induction schedule as [ | [t o] schedule IH ]; intros st Hall; simpl.
  - reflexivity.
  - apply Forall_cons in Hall as [Ht Hall]. simpl in Ht.
    rewrite IH by exact Hall. assert (Hne : B ≠ t) by congruence.
    destruct o as [ | value | ]; simpl.
    + by apply get_frame.
    + by apply lookup_bind_enter_other.
    + by apply bind_exit_frame.
Qed.

(** C10.  While code runs on thread [A], every state it passes through, and
    the one it ends in, holds for any other thread [B] the very attribute
    [B] had before, and [get] called on [B] in any of them answers what it
    answers without [A]'s activity.  The same holds after any interleaving
    of primitives, bracketed or not, that threads other than [B] perform. *)
Theorem thread_isolation (A B : thread) (p : prog) (st : ThreadLocal) :
  A ≠ B →
  (let '(r, st', tr) := exec A p st in
   Forall (λ s, s !! B = st !! B ∧ (get B s).1 = (get B st).1) (st' :: states tr))
  ∧ (∀ schedule,
       Forall (λ x, x.1 ≠ B) schedule →
       interleave schedule st !! B = st !! B
       ∧ (get B (interleave schedule st)).1 = (get B st).1).
Proof.
  intros Hne. assert (Hne' : B ≠ A) by congruence. split.
  - pose proof (exec_frame A B p Hne' st) as [Hfin Hall].
    destruct (exec A p st) as [[r st'] tr]. simpl in *.
    constructor.
    + split; [ exact Hfin | by apply get_local ].
    + eapply Forall_impl; [ exact Hall | ]. simpl. intros s Hsame.
      split; [ exact Hsame | by apply get_local ].
  - intros schedule Hothers.
    pose proof (interleave_frame B schedule st Hothers) as Hsame.
    split; [ exact Hsame | by apply get_local ].
Qed.

(** [var.get()], its value noted in the trace and then dropped. *)
Definition observe : prog := Get (λ _, Skip).

(** The scenario of two nested scopes, the inner one guarded so that the
    outer body goes on when [inner] raises:
<<
    var.get()
    with var.bind(v1):
      var.get()
      try:
        with var.bind(v2):
          var.get()
          inner
      except: pass
      var.get()
    var.get()
>> *)
Definition nesting (v1 v2 : Value) (inner : prog) : prog :=
  Seq observe
    (Seq (With v1
            (Seq observe
               (Seq (Try (With v2 (Seq observe inner)) (λ _, Skip))
                  observe)))
       observe).

Lemma exec_observe (tid : thread) (vs : list Value) (v : Value) (st : ThreadLocal) :
  st !! tid = Some (vs ++ [v]) →
  exec tid observe st = (Return tt, st, [(Read v, st)]).
Proof.
  intros E. simpl. unfold get. rewrite _values_present by eauto.
  by rewrite E, last_snoc.
Qed.

Lemma exec_Seq_return (tid : thread) (p q : prog) (st st1 : ThreadLocal) tr1 :
  exec tid p st = (Return tt, st1, tr1) →
  exec tid (Seq p q) st
  = let '(r, st2, tr2) := exec tid q st1 in (r, st2, tr1 ++ tr2).
Proof. intros E. simpl. by rewrite E. Qed.

Lemma reads_app tr1 tr2 : reads (tr1 ++ tr2) = reads tr1 ++ reads tr2.
Proof. unfold reads. apply omap_app. Qed.

(** C4.  On a thread with no active binding, [get] answers the sentinel;
    inside [bind(v1)] it answers [v1]; inside the nested [bind(v2)] it
    answers [v2], and so it does until the code [inner] of that scope has
    run; after the nested scope it answers [v1] again, and after the outer
    scope the sentinel, whether [inner] returned or raised.  And when the
    body of a scope raises and nothing catches it, the exception leaves the
    scope and [get] answers afterwards what it answered before the scope. *)
Theorem nested_scopes (tid : thread) (st : ThreadLocal) (v1 v2 : Value) (inner : prog) :
  stack tid st = [VNone] →
  (let '(r_in, _, tr_in) :=
     exec tid inner (bind_enter tid v2 (bind_enter tid v1 (_values tid st))) in
   let '(r, st', tr) := exec tid (nesting v1 v2 inner) st in
   r = Return tt
   ∧ reads tr = [VNone; v1; v2] ++ reads tr_in ++ [v1; VNone]
   ∧ stack tid st' = [VNone])
  ∧ (∀ body,
       let '(r_body, _, _) := exec tid body (bind_enter tid v1 st) in
       let '(r, st', _) := exec tid (With v1 body) st in
       r = r_body ∧ (get tid st').1 = Return VNone).
Proof.
  intros Hst.
  assert (Hs : sentinel (stack tid st)) by (by rewrite Hst).
  split.
  - set (s0 := _values tid st).
    assert (E0 : s0 !! tid = Some ([] ++ [VNone])).
    { unfold s0. by rewrite lookup__values_self, Hst. }
    assert (Hs0 : sentinel (stack tid s0)) by (unfold stack; by rewrite E0).
    set (s1 := bind_enter tid v1 s0).
    assert (E1 : s1 !! tid = Some ([VNone] ++ [v1])).
    { unfold s1. rewrite lookup_bind_enter_self. unfold stack. by rewrite E0. }
    assert (Hs1 : sentinel (stack tid s1)) by (unfold stack; by rewrite E1).
    set (s2 := bind_enter tid v2 s1).
    assert (E2 : s2 !! tid = Some ([VNone; v1] ++ [v2])).
    { unfold s2. rewrite lookup_bind_enter_self. unfold stack. by rewrite E1. }
    destruct (exec tid inner s2) as [[r_in s3] tr_in] eqn:Ein.
    (* the nested scope *)
    assert (Ebody2 : exec tid (Seq observe inner) s2
                     = (r_in, s3, [(Read v2, s2)] ++ tr_in)).
    { rewrite (exec_Seq_return _ _ _ _ _ _ (exec_observe tid _ _ _ E2)).
      by rewrite Ein. }
    destruct (exec_With tid v2 (Seq observe inner) s1 Hs1 _ _ _ Ebody2)
      as (_ & _ & Ewith2).
    fold s2 in Ewith2.
    assert (Hst1 : stack tid s1 = [VNone; v1]) by (unfold stack; by rewrite E1).
    rewrite Hst1 in Ewith2.
    set (s4 := <[tid := [VNone; v1]]> s3) in *.
    assert (E4 : s4 !! tid = Some ([VNone] ++ [v1])) by apply lookup_insert_eq.
    set (tr2 := (Pushed v2, s2) :: ([(Read v2, s2)] ++ tr_in) ++ [(Popped v2, s4)]) in *.
    assert (Etry : exec tid (Try (With v2 (Seq observe inner)) (λ _, Skip)) s1
                   = (Return tt, s4, tr2)).
    { cbn [exec]. cbn [exec] in Ewith2. rewrite Ewith2.
      destruct r_in as [ [] | e ]; [ reflexivity | ]. by rewrite app_nil_r. }
    (* the body of the outer scope *)
    assert (Ebody1 : exec tid (Seq observe
                                 (Seq (Try (With v2 (Seq observe inner)) (λ _, Skip))
                                    observe)) s1
                     = (Return tt, s4, [(Read v1, s1)] ++ tr2 ++ [(Read v1, s4)])).
    { rewrite (exec_Seq_return _ _ _ _ _ _ (exec_observe tid _ _ _ E1)).
      rewrite (exec_Seq_return _ _ _ _ _ _ Etry).
      by rewrite (exec_observe tid _ _ _ E4). }
    destruct (exec_With tid v1 _ s0 Hs0 _ _ _ Ebody1) as (_ & _ & Ewith1).
    fold s1 in Ewith1.
    assert (Hst0 : stack tid s0 = [VNone]) by (unfold stack; by rewrite E0).
    rewrite Hst0 in Ewith1.
    set (s5 := <[tid := [VNone]]> s4) in *.
    assert (E5 : s5 !! tid = Some ([] ++ [VNone])) by apply lookup_insert_eq.
    (* the whole scenario *)
    assert (Eobs0 : exec tid observe st = (Return tt, s0, [(Read VNone, s0)])).
    { simpl. destruct (get_top tid st Hs) as (v & Hlast & ->).
      rewrite Hst in Hlast. simpl in Hlast. by injection Hlast as <-. }
    unfold nesting.
    rewrite (exec_Seq_return _ _ _ _ _ _ Eobs0).
    rewrite (exec_Seq_return _ _ _ _ _ _ Ewith1).
    rewrite (exec_observe tid _ _ _ E5).
    split; [ reflexivity | ]. split.
    + unfold tr2. rewrite !reads_app. simpl. rewrite !reads_app. simpl.
      by rewrite <- !app_assoc.
    + unfold stack. by rewrite E5.
  - intros body.
    destruct (exec tid body (bind_enter tid v1 st)) as [[r_body s2] tr_body] eqn:E.
    destruct (exec_With tid v1 body st Hs _ _ _ E) as (_ & _ & ->).
    split; [ reflexivity | ]. rewrite Hst.
    unfold get. rewrite _values_present by (rewrite lookup_insert_eq; eauto).
    by rewrite lookup_insert_eq.
Qed.

(** *** The theorems at work: two threads and a body that raises *)

Definition failing_body : prog :=
  Seq (With (VInt 3) observe) (Throw (UserError (VStr "boom"))).

Lemma nested_scopes_witness :
  (stack 0%nat init = [VNone])
  ∧ (let '(r, st', tr) := exec 0%nat (nesting (VInt 1) (VInt 2) failing_body) init in
     r = Return tt
     ∧ reads tr = [VNone; VInt 1; VInt 2; VInt 3; VInt 1; VNone]
     ∧ stack 0%nat st' = [VNone]).
Proof.
  split; [ reflexivity | ].
  pose proof (nested_scopes 0%nat init (VInt 1) (VInt 2) failing_body eq_refl) as [H _].
  vm_compute in H. vm_compute. exact H.
Defined.

Lemma stack_never_empty_witness :
  well_formed init
  ∧ (let '(r, st', tr) := exec 0%nat (With (VInt 1) failing_body) init in
     Forall (λ s, well_formed s ∧ stack 0%nat s ≠ []) (st' :: states tr)
     ∧ stack 0%nat st' = stack 0%nat init).
Proof.
  assert (Hwf : well_formed init).
  { intros t vs E. unfold init in E. by rewrite lookup_empty in E. }
  split; [ exact Hwf | ].
  exact (proj1 (stack_never_empty 0%nat init Hwf) (With (VInt 1) failing_body)).
Defined.

Lemma thread_isolation_witness :
  (0%nat ≠ 1%nat)
  ∧ (let '(r, st', tr) := exec 0%nat (With (VInt 1) failing_body) (bind_enter 1%nat (VInt 7) init) in
     Forall (λ s, s !! 1%nat = bind_enter 1%nat (VInt 7) init !! 1%nat
                  ∧ (get 1%nat s).1 = (get 1%nat (bind_enter 1%nat (VInt 7) init)).1)
       (st' :: states tr))
  ∧ ((get 1%nat (interleave [(0%nat, DoEnter (VInt 1)); (2%nat, DoEnter (VInt 2));
                              (0%nat, DoExit); (2%nat, DoGet)]
                    (bind_enter 1%nat (VInt 7) init))).1
     = Return (VInt 7)).
Proof.
  assert (H : 0%nat ≠ 1%nat) by compute_done.
  destruct (thread_isolation 0%nat 1%nat (With (VInt 1) failing_body)
              (bind_enter 1%nat (VInt 7) init) H) as [Hrun Hany].
  split; [ exact H | ]. split; [ exact Hrun | ].
  destruct (Hany [(0%nat, DoEnter (VInt 1)); (2%nat, DoEnter (VInt 2));
                  (0%nat, DoExit); (2%nat, DoGet)]) as [_ ->].
  - repeat constructor; compute_done.
  - reflexivity.
Defined.

End DynamicVarSpec.

(** ** Key expressions: the text built for a bare function *)

Module KeyExprFacts.

Lemma append_cons (a : ascii) (s t : string) :
  (String a s ++ t)%string = String a (s ++ t)%string.
Proof. reflexivity. Qed.

Lemma append_assoc (s t u : string) :
  ((s ++ t) ++ u)%string = (s ++ (t ++ u))%string.
Proof.
  induction s as [ | a s IH ]; [ reflexivity | ].
  by rewrite !append_cons, IH.
Qed.

(** The characters of a name of the fragment. *)
Lemma is_name_chars (n : string) :
  is_name n = true →
  n ≠ EmptyString ∧ forallb is_ident_char (list_ascii_of_string n) = true.
Proof.
  destruct n as [ | c n ]; [ discriminate | ]. unfold is_name.
  rewrite !andb_true_iff. intros [[[_ Hchars] _] _]. by split.
Qed.

(** A run of identifier characters that ends at a different character is
    scanned as one name. *)
Lemma scan_name (n rest : string) :
  n ≠ EmptyString →
  forallb is_ident_char (list_ascii_of_string n) = true →
  starts_with_ident_char rest = false →
  scan (n ++ rest) = TName n :: scan rest.
Proof.
  intros Hne Hchars Hrest. induction n as [ | c n IH ]; [ done | ].
  simpl in Hchars. apply andb_true_iff in Hchars as [Hc Hchars].
  rewrite append_cons. cbn [scan]. rewrite Hc.
  destruct n as [ | c' n ].
  - change (EmptyString ++ rest)%string with rest. by rewrite Hrest.
  - rewrite append_cons. cbn [starts_with_ident_char].
    simpl in Hchars. pose proof Hchars as Hc'. apply andb_true_iff in Hc' as [Hc' _].
    rewrite Hc'. rewrite <- append_cons. by rewrite IH.
Qed.

(** The tokens of [n1, n2, ..., nk]. *)
Fixpoint name_tokens (names : list string) : list token :=
  match names with
  | [] => []
  | [n] => [TName n]
  | n :: rest => TName n :: TComma :: name_tokens rest
  end.

Lemma scan_joined_names (names : list string) :
  Forall (λ n, is_name n = true) names →
  scan (String.concat ", " names ++ ")") = name_tokens names ++ [TRParen].
Proof.
  induction 1 as [ | n names Hn Hnames IH ]; [ reflexivity | ].
  destruct (is_name_chars n Hn) as [Hne Hchars].
  destruct names as [ | n' names ].
  - cbn [String.concat name_tokens]. by rewrite scan_name.
  - change (String.concat ", " (n :: n' :: names))
      with (n ++ ", " ++ String.concat ", " (n' :: names))%string.
    rewrite !append_assoc. rewrite scan_name by done.
    change (name_tokens (n :: n' :: names))
      with (TName n :: TComma :: name_tokens (n' :: names)).
    simpl. f_equal. f_equal. exact IH.
Qed.

Lemma name_tokens_ok (names : list string) :
  Forall (λ n, is_name n = true) names →
  forallb token_ok (name_tokens names) = true.
Proof.
  induction 1 as [ | n names Hn Hnames IH ]; [ reflexivity | ].
  destruct names as [ | n' names ].
  - simpl. by rewrite Hn.
  - change (name_tokens (n :: n' :: names))
      with (TName n :: TComma :: name_tokens (n' :: names)).
    simpl. simpl in IH. by rewrite Hn, IH.
Qed.

(** Reading [n1, ..., nk] where an operand may start adds the names to the
    items of the current level. *)
Lemma parse_name_tokens (n : string) (names : list string) (rest : list token)
    (items : list expr) (st : slot) (outer : list frame) :
  st ≠ Have →
  parse (name_tokens (n :: names) ++ rest) (items, st) outer
  = parse rest (rev (map EName (n :: names)) ++ items, Have) outer.
Proof.
  revert n items st. induction names as [ | n' names IH ]; intros n items st Hst.
  - simpl. by destruct st.
  - change (name_tokens (n :: n' :: names))
      with (TName n :: TComma :: name_tokens (n' :: names)).
    cbn [app parse]. destruct st; [ | | done ].
    + rewrite IH by done. f_equal. f_equal. simpl. by rewrite <- !app_assoc.
    + rewrite IH by done. f_equal. f_equal. simpl. by rewrite <- !app_assoc.
Qed.

(** The expression of the text ["(" + ", ".join(names) + ")"]: no tuple
    around a single name. *)
Definition default_program (names : list string) : expr :=
  match names with
  | [n] => EName n
  | _ => ETuple (map EName names)
  end.

Lemma compile_default_key (names : list string) :
  Forall (λ n, is_name n = true) names →
  compile ("(" ++ String.concat ", " names ++ ")") = Some (Return (default_program names)).
Proof.
  intros Hnames. unfold compile, tokenize.
  change ("(" ++ String.concat ", " names ++ ")")%string
    with (String "(" (String.concat ", " names ++ ")")%string).
  cbn [scan]. change (is_ident_char "(") with false. cbn iota.
  change (Ascii.eqb "(" " ") with false. change (Ascii.eqb "(" "(") with true. cbn iota.
  rewrite scan_joined_names by done.
  cbn [forallb token_ok]. rewrite forallb_app, name_tokens_ok by done. cbn.
  destruct names as [ | n names ]; [ reflexivity | ].
  rewrite parse_name_tokens by done. cbn [parse].
  destruct names as [ | n' names ]; [ reflexivity | ].
  unfold default_program. cbn [close].
  remember (rev (map EName (n :: n' :: names)) ++ []) as its eqn:Hits.
  rewrite app_nil_r in Hits.
  assert (Hlen : (2 ≤ length its)%nat).
  { rewrite Hits, length_rev, length_map. simpl. lia. }
  destruct its as [ | i1 [ | i2 its ] ]; [ simpl in Hlen; lia | simpl in Hlen; lia | ].
  cbn [close]. rewrite Hits, rev_involutive. reflexivity.
Qed.

(** A single name compiles to itself. *)
Lemma compile_name (n : string) :
  is_name n = true → compile n = Some (Return (EName n)).
Proof.
  intros Hn. destruct (is_name_chars n Hn) as [Hne Hchars].
  assert (Hscan : scan n = [TName n]).
  { pose proof (scan_name n EmptyString Hne Hchars eq_refl) as Hs.
    assert (En : (n ++ "")%string = n).
    { clear. induction n as [ | a n IH ]; [ reflexivity | by rewrite append_cons, IH ]. }
    by rewrite En in Hs. }
  unfold compile, tokenize. rewrite Hscan. cbn [forallb token_ok]. rewrite Hn. cbn.
  destruct n as [ | c n ]; [ done | ].
  destruct (Ascii.eqb_spec c " ") as [-> | Hc].
  - exfalso. unfold is_name in Hn. cbn in Hn. discriminate.
  - destruct c as [[] [] [] [] [] [] [] []]; try reflexivity. by exfalso.
Qed.

(** The names an expression reads, in the order in which [eval] reads
    them. *)
Fixpoint names_of (e : expr) : list string :=
  match e with
  | EName n => [n]
  | ETuple items => concat (map names_of items)
  end.

Lemma expr_nested_ind (P : expr → Prop) :
  (∀ n, P (EName n)) →
  (∀ items, Forall P items → P (ETuple items)) →
  ∀ e, P e.
Proof.
  intros HName HTuple. fix IH 1. intros [ n | items ]; [ apply HName | ].
  apply HTuple. induction items as [ | x xs IHxs ]; constructor; [ apply IH | exact IHxs ].
Qed.

Section Eval.
Variable builtins : string → bool.

(** A name that [eval] finds: in the mapping it is given, or in the
    builtins. *)
Definition bound (env : gmap string Value) (n : string) : Prop :=
  is_Some (env !! n) ∨ builtins n = true.

(** How an evaluation that read [names] can have ended: with a value, all
    the names being bound, or with [NameError] for one that is not. *)
Definition reads {A : Type} (env : gmap string Value) (names : list string)
    (r : Result A) : Prop :=
  match r with
  | Return _ => Forall (bound env) names
  | Raise x => ∃ n, x = NameError n ∧ n ∈ names ∧ env !! n = None ∧ builtins n = false
  end.

Lemma eval_reads (env : gmap string Value) (e : expr) :
  reads env (names_of e) (eval builtins env e).
Proof.
  induction e as [ n | items IH ] using expr_nested_ind.
  - simpl. destruct (env !! n) as [v | ] eqn:E.
    + constructor; [ | constructor ]. left. by rewrite E.
    + destruct (builtins n) eqn:Hb.
      * constructor; [ | constructor ]. by right.
      * exists n. split; [ reflexivity | ]. split; [ by left | done ].
  - assert (Hitems : reads env (concat (map names_of items))
                       (eval_items (eval builtins env) items)).
    { induction IH as [ | e rest He _ IHrest ]; [ by constructor | ].
      cbn [eval_items map concat].
      destruct (eval builtins env e) as [v | x].
      - destruct (eval_items (eval builtins env) rest) as [vs | x].
        + apply Forall_app. by split.
        + destruct IHrest as (n & -> & Hin & Hn). exists n.
          split; [ reflexivity | ]. split; [ | exact Hn ].
          apply elem_of_app. by right.
      - destruct He as (n & -> & Hin & Hn). exists n.
        split; [ reflexivity | ]. split; [ | exact Hn ].
        apply elem_of_app. by left. }
    cbn [eval names_of].
    by destruct (eval_items (eval builtins env) items).
Qed.

(** An expression that reads a name which nothing binds raises
    [NameError], for such a name. *)
Lemma eval_unbound (env : gmap string Value) (e : expr) (n : string) :
  n ∈ names_of e → env !! n = None → builtins n = false →
  ∃ n', eval builtins env e = Raise (NameError n')
        ∧ n' ∈ names_of e ∧ env !! n' = None ∧ builtins n' = false.
Proof.
  intros Hin Hn Hb. pose proof (eval_reads env e) as Hreads.
  destruct (eval builtins env e) as [v | x].
  - exfalso. apply (proj1 (Forall_forall _ _) Hreads) in Hin as [[v' Hv] | Hb'];
      congruence.
  - destruct Hreads as (n' & -> & Hreads). by exists n'.
Qed.

Lemma eval_names (env : gmap string Value) (names : list string) (vs : list Value) :
  Forall2 (λ n v, env !! n = Some v) names vs →
  eval_items (eval builtins env) (map EName names) = Return vs.
Proof.
  induction 1 as [ | n v names vs Hn _ IH ]; [ reflexivity | ].
  simpl. by rewrite Hn, IH.
Qed.

Lemma eval_default_program (env : gmap string Value) (names : list string)
    (vs : list Value) :
  Forall2 (λ n v, env !! n = Some v) names vs →
  eval builtins env (default_program names)
  = Return match vs with [v] => v | _ => VTuple vs end.
Proof.
  intros Hvs. pose proof (eval_names env names vs Hvs) as Hitems.
  destruct Hvs as [ | n v names vs Hn Hrest ]; [ reflexivity | ].
  destruct Hrest as [ | n' v' names vs Hn' Hrest ].
  - simpl. by rewrite Hn.
  - unfold default_program. cbn [eval]. by rewrite Hitems.
Qed.

End Eval.
End KeyExprFacts.

(** ** memoize: the cache *)

Module MemoizeSpec.
Import Memoize KeyExprFacts.

(** *** Dictionaries built by repeated assignment *)

Lemma fold_insert_union {K V} `{Countable K} (kvs : list (K * V)) (d : gmap K V) :
  fold_left (λ d p, <[p.1 := p.2]> d) kvs d = dict_of_pairs kvs ∪ d.
Proof.
  unfold dict_of_pairs. revert d.
  induction kvs as [ | [k v] kvs IH ]; intros d; simpl.
  - by rewrite (left_id_L ∅ (∪)).
  - rewrite IH. rewrite (IH (<[k:=v]> ∅)).
    rewrite !insert_union_singleton_l, (right_id_L ∅ (∪)).
    by rewrite (assoc_L (∪)).
Qed.

Lemma fold_insert_twice {K V} `{Countable K} (kvs : list (K * V)) (d : gmap K V) :
  fold_left (λ d p, <[p.1 := p.2]> d) kvs
    (fold_left (λ d p, <[p.1 := p.2]> d) kvs d)
  = fold_left (λ d p, <[p.1 := p.2]> d) kvs d.
Proof.
  rewrite !fold_insert_union. rewrite (assoc_L (∪)). by rewrite (idemp_L (∪)).
Qed.


Lemma dict_of_pairs_cons {K V} `{Countable K} (k : K) (v : V) (l : list (K * V)) :
  dict_of_pairs ((k, v) :: l) = dict_of_pairs l ∪ {[k := v]}.
Proof.
  unfold dict_of_pairs at 1. simpl. rewrite fold_insert_union.
  by rewrite insert_union_singleton_l, (right_id_L ∅ (∪)).
Qed.

Lemma dict_of_pairs_lookup_Some {K V} `{Countable K} (l : list (K * V)) (k : K) (v : V) :
  dict_of_pairs l !! k = Some v → k ∈ l.*1.
Proof.
  revert v. induction l as [ | [k' v'] l IH ]; intros v.
  - unfold dict_of_pairs. simpl. by rewrite lookup_empty.
  - rewrite dict_of_pairs_cons. rewrite lookup_union_Some_raw. simpl.
    intros [Hl | [_ Hs]].
    + right. by eapply IH.
    + apply lookup_singleton_Some in Hs as [-> _]. by left.
Qed.

Lemma dict_of_pairs_nonempty {K V} `{Countable K} (p : K * V) (l : list (K * V)) :
  dict_of_pairs (p :: l) ≠ ∅.
Proof.
  destruct p as [k v]. rewrite dict_of_pairs_cons. intros Hempty.
  assert (Hk : (dict_of_pairs l ∪ {[k := v]}) !! k = None)
    by (by rewrite Hempty, lookup_empty).
  apply lookup_union_None in Hk as [_ Hk]. by rewrite lookup_singleton_eq in Hk.
Qed.


Lemma dict_of_pairs_lookup_None {K V} `{Countable K} (l : list (K * V)) (k : K) :
  k ∉ l.*1 → dict_of_pairs l !! k = None.
Proof.
  intros Hk. destruct (dict_of_pairs l !! k) as [v | ] eqn:E; [ | reflexivity ].
  by apply dict_of_pairs_lookup_Some in E.
Qed.

Lemma dict_of_pairs_zip_lookup {V} (names : list string) (vals : list V)
    (i : nat) (n : string) (v : V) :
  NoDup names → names !! i = Some n → vals !! i = Some v →
  dict_of_pairs (zip names vals) !! n = Some v.
Proof.
  revert vals i. induction names as [ | n0 names IH ]; intros vals i Hnodup Hn Hv.
  - by rewrite lookup_nil in Hn.
  - apply NoDup_cons in Hnodup as [Hfresh Hnodup].
    destruct vals as [ | v0 vals ]; [ by rewrite lookup_nil in Hv | ].
    cbn [zip_with]. rewrite dict_of_pairs_cons. destruct i as [ | i ].
    + simpl in Hn, Hv. injection Hn as ->. injection Hv as ->.
      rewrite lookup_union_r; [ apply lookup_singleton_eq | ].
      apply dict_of_pairs_lookup_None. intros Hin. apply Hfresh.
      apply list_elem_of_fmap in Hin as ([a b] & -> & Hin). by apply elem_of_zip_l in Hin.
    + apply lookup_union_Some_l. by apply (IH vals i).
Qed.

Lemma zip_names_keys {V} (names : list string) (vals : list V) (n : string) :
  n ∈ (zip names vals).*1 → ∃ i, names !! i = Some n ∧ (i < length vals)%nat.
Proof.
  intros Hin. apply list_elem_of_fmap in Hin as ([a b] & -> & Hin).
  apply list_elem_of_lookup in Hin as [i Hi].
  apply lookup_zip_with_Some in Hi as (x & y & [= <- <-] & Hx & Hy).
  exists i. split; [ exact Hx | ]. by apply lookup_lt_Some in Hy.
Qed.

Section Cache.
Context {World : Type}.
Variable builtins : string → bool.

Abbreviation Body := (Body World).
Abbreviation Function := (Function World).
Abbreviation Closure := (Closure World).
Abbreviation Outcome := (Outcome World).

(** *** The loop of the fast path, by what it writes *)

(** The assignments the loop performs before it stops. *)
Fixpoint filled (pairs : list (nat * string)) (posargs : list Value)
  : list (string * Value) :=
  match pairs with
  | [] => []
  | (pos, arg) :: rest =>
      match posargs !! pos with
      | Some v => (arg, v) :: filled rest posargs
      | None => []
      end
  end.

(** How the loop ends. *)
Fixpoint fill_outcome (pairs : list (nat * string)) (posargs : list Value)
  : Result unit :=
  match pairs with
  | [] => Return tt
  | (pos, arg) :: rest =>
      match posargs !! pos with
      | Some v => fill_outcome rest posargs
      | None => Raise IndexError
      end
  end.

Lemma fill_shared_eq (pairs : list (nat * string)) (posargs : list Value)
    (d : gmap string Value) :
  fill_shared pairs posargs d
  = (fill_outcome pairs posargs,
     fold_left (λ d p, <[p.1 := p.2]> d) (filled pairs posargs) d).
Proof.
  revert d. induction pairs as [ | [pos arg] pairs IH ]; intros d; simpl.
  - reflexivity.
  - destruct (posargs !! pos) as [v | ]; [ | reflexivity ]. by rewrite IH.
Qed.

(** Deriving the key a second time, from the scratch dictionary the first
    derivation left, gives the same key and the same dictionary. *)
Lemma derive_key_again (c : Closure) (posargs : list Value)
    (kwargs shared : gmap string Value) :
  derive_key builtins c posargs kwargs
    (derive_key builtins c posargs kwargs shared).2
  = derive_key builtins c posargs kwargs shared.
Proof.
  unfold derive_key.
  destruct (dict_truthy kwargs || dict_truthy (defaults c)); [ reflexivity | ].
  rewrite !fill_shared_eq.
  destruct (fill_outcome (pos_and_arg_tuples c) posargs) as [ [] | e ]; simpl;
    by rewrite fold_insert_twice.
Qed.

(** *** One call, case by case *)

(** The outcome of a call that does not reach the wrapped function. *)
Definition answered (res : Result Value) (st : Cells) (shared' : gmap string Value)
    (w : World) : Outcome :=
  {| result := res;
     cells := {| memoized := memoized st; shared_dict := shared' |};
     world := w; invoked := [] |}.

(** The outcome of a call that ran the wrapped function, from the outcome
    [o] of that run: a value returned is assigned to the key. *)
Definition stored (k : Value) (a : list Value * gmap string Value) (o : Outcome)
  : Outcome :=
  {| result := result o;
     cells := match result o with
              | Return r => {| memoized := <[k := r]> (memoized (cells o));
                               shared_dict := shared_dict (cells o) |}
              | Raise _ => cells o
              end;
     world := world o;
     invoked := a :: invoked o |}.

(** The run of the wrapped function that a call makes when its key is not
    in the cache: the function is given the arguments of the call, and the
    calls of the wrapper it makes may nest [depth] deep. *)
Definition body_run (depth : nat) (c : Closure) (posargs : list Value)
    (kwargs : gmap string Value) (st : Cells) (w : World) : option Outcome :=
  run (call builtins depth c) (func_call (wrapped c) posargs kwargs w)
    {| memoized := memoized st;
       shared_dict := (derive_key builtins c posargs kwargs (shared_dict st)).2 |}.

Lemma call_key_raises (depth : nat) (c : Closure) posargs kwargs st (w : World) e :
  (derive_key builtins c posargs kwargs (shared_dict st)).1 = Raise e →
  call builtins (S depth) c posargs kwargs st w
  = Some (answered (Raise e) st
            (derive_key builtins c posargs kwargs (shared_dict st)).2 w).
Proof.
  intros E. cbn [call].
  destruct (derive_key builtins c posargs kwargs (shared_dict st)) as [rk sh].
  simpl in E. by subst rk.
Qed.

Lemma call_unhashable (depth : nat) (c : Closure) posargs kwargs st (w : World) k :
  (derive_key builtins c posargs kwargs (shared_dict st)).1 = Return k →
  hashable k = false →
  call builtins (S depth) c posargs kwargs st w
  = Some (answered (Raise TypeError) st
            (derive_key builtins c posargs kwargs (shared_dict st)).2 w).
Proof.
  intros E Hh. cbn [call].
  destruct (derive_key builtins c posargs kwargs (shared_dict st)) as [rk sh].
  simpl in E. subst rk. by rewrite Hh.
Qed.

Lemma call_hit (depth : nat) (c : Closure) posargs kwargs st (w : World) k r :
  (derive_key builtins c posargs kwargs (shared_dict st)).1 = Return k →
  hashable k = true →
  memoized st !! k = Some r →
  call builtins (S depth) c posargs kwargs st w
  = Some (answered (Return r) st
            (derive_key builtins c posargs kwargs (shared_dict st)).2 w).
Proof.
  intros E Hh Hm. cbn [call].
  destruct (derive_key builtins c posargs kwargs (shared_dict st)) as [rk sh].
  simpl in E. subst rk. by rewrite Hh, Hm.
Qed.

Lemma call_miss (depth : nat) (c : Closure) posargs kwargs st (w : World) k :
  (derive_key builtins c posargs kwargs (shared_dict st)).1 = Return k →
  hashable k = true →
  memoized st !! k = None →
  call builtins (S depth) c posargs kwargs st w
  = stored k (posargs, kwargs) <$> body_run depth c posargs kwargs st w.
Proof.
  intros E Hh Hm. unfold body_run. cbn [call].
  destruct (derive_key builtins c posargs kwargs (shared_dict st)) as [rk sh].
  simpl in E. subst rk. rewrite Hh, Hm. simpl.
  by destruct (run _ _ _).
Qed.

(** The four ways a call can go. *)
Inductive call_case (c : Closure) posargs kwargs (st : Cells) : Prop :=
| KeyRaises e :
    (derive_key builtins c posargs kwargs (shared_dict st)).1 = Raise e →
    call_case c posargs kwargs st
| Unhashable k :
    (derive_key builtins c posargs kwargs (shared_dict st)).1 = Return k →
    hashable k = false →
    call_case c posargs kwargs st
| Hit k r :
    (derive_key builtins c posargs kwargs (shared_dict st)).1 = Return k →
    hashable k = true →
    memoized st !! k = Some r →
    call_case c posargs kwargs st
| Miss k :
    (derive_key builtins c posargs kwargs (shared_dict st)).1 = Return k →
    hashable k = true →
    memoized st !! k = None →
    call_case c posargs kwargs st.

Lemma call_cases (c : Closure) posargs kwargs st : call_case c posargs kwargs st.
Proof.
  destruct (derive_key builtins c posargs kwargs (shared_dict st)).1 as [k | e] eqn:E.
  - destruct (hashable k) eqn:Hh; [ | by eapply Unhashable ].
    destruct (memoized st !! k) as [r | ] eqn:Hm; [ by eapply Hit | by eapply Miss ].
  - by eapply KeyRaises.
Qed.

(** *** What holds from the start of a call to its end *)

Section Invariant.
Variable c : Closure.
Variable P : Cells → Outcome → Prop.
Hypothesis P_done : ∀ st r w,
  P st {| result := r; cells := st; world := w; invoked := [] |}.
Hypothesis P_then : ∀ st o o',
  P st o → P (cells o) o' →
  P st {| result := result o'; cells := cells o'; world := world o';
          invoked := invoked o ++ invoked o' |}.
Hypothesis P_answered : ∀ st posargs kwargs res w,
  P st (answered res st (derive_key builtins c posargs kwargs (shared_dict st)).2 w).
Hypothesis P_stored : ∀ st posargs kwargs k o,
  (derive_key builtins c posargs kwargs (shared_dict st)).1 = Return k →
  memoized st !! k = None →
  P {| memoized := memoized st;
       shared_dict := (derive_key builtins c posargs kwargs (shared_dict st)).2 |} o →
  P st (stored k (posargs, kwargs) o).

Lemma run_invariant
    (self : list Value → gmap string Value → Cells → World → option Outcome)
    (b : Body) (st : Cells) (o : Outcome) :
  (∀ posargs kwargs st w o, self posargs kwargs st w = Some o → P st o) →
  run self b st = Some o → P st o.
Proof.
  intros Hself. revert st o.
  induction b as [ r w | posargs kwargs w resume IH ]; intros st o; simpl.
  - intros [= <-]. apply P_done.
  - destruct (self posargs kwargs st w) as [o1 | ] eqn:E1; [ | done ].
    destruct (run self (resume (result o1) (world o1)) (cells o1)) as [o2 | ] eqn:E2;
      [ | done ].
    intros [= <-]. apply P_then; [ by eapply Hself | by eapply IH ].
Qed.

Lemma call_invariant (depth : nat) posargs kwargs st (w : World) (o : Outcome) :
  call builtins depth c posargs kwargs st w = Some o → P st o.
Proof.
  revert posargs kwargs st w o.
  induction depth as [ | depth IH ]; intros posargs kwargs st w o; [ done | ].
  destruct (call_cases c posargs kwargs st) as [ e E | k E Hh | k r E Hh Hm | k E Hh Hm ].
  - rewrite (call_key_raises _ _ _ _ _ _ _ E). intros [= <-]. apply P_answered.
  - rewrite (call_unhashable _ _ _ _ _ _ _ E Hh). intros [= <-]. apply P_answered.
  - rewrite (call_hit _ _ _ _ _ _ _ _ E Hh Hm). intros [= <-]. apply P_answered.
  - rewrite (call_miss _ _ _ _ _ _ _ E Hh Hm). unfold body_run.
    destruct (run _ _ _) as [b | ] eqn:Hb; [ | done ]. simpl. intros [= <-].
    apply P_stored; [ exact E | exact Hm | ].
    eapply run_invariant; [ | exact Hb ]. intros ? ? ? ? ?. apply IH.
Qed.

Lemma body_run_invariant (depth : nat) posargs kwargs st (w : World) (b : Outcome) :
  body_run depth c posargs kwargs st w = Some b →
  P {| memoized := memoized st;
       shared_dict := (derive_key builtins c posargs kwargs (shared_dict st)).2 |} b.
Proof.
  unfold body_run. apply run_invariant. intros ? ? ? ? ?. apply call_invariant.
Qed.

End Invariant.


Lemma body_run_keeps_entries (c : Closure) (depth : nat) posargs kwargs st (w : World) b :
  body_run depth c posargs kwargs st w = Some b →
  memoized st ⊆ memoized (cells b).
Proof.
  apply (body_run_invariant c (λ st o, memoized st ⊆ memoized (cells o))).
  - done.
  - intros s o1 o2 H1 H2. simpl. by etrans.
  - done.
  - intros s pos kw k o _ Hm Hb. simpl in *.
    destruct (result o); simpl; [ | exact Hb ]. by apply insert_subseteq_r.
Qed.

(** The cache gains at most one entry for each run of the wrapped
    function. *)
Definition grows_by_invocations (st : Cells) (o : Outcome) : Prop :=
  (size (memoized (cells o)) ≤ size (memoized st) + length (invoked o))%nat.

Lemma grows_by_invocations_stored (st : Cells) (k : Value)
    (a : list Value * gmap string Value) (sh : gmap string Value) (o : Outcome) :
  grows_by_invocations {| memoized := memoized st; shared_dict := sh |} o →
  grows_by_invocations st (stored k a o).
Proof.
  unfold grows_by_invocations. simpl. intros Ho.
  destruct (result o); simpl; [ | lia ].
  pose proof (map_size_insert k a0 (memoized (cells o))) as Hsize.
  destruct (memoized (cells o) !! k); unfold id in Hsize; lia.
Qed.


Lemma body_run_grows_by_invocations (c : Closure) (depth : nat) posargs kwargs st
    (w : World) b :
  body_run depth c posargs kwargs st w = Some b → grows_by_invocations st b.
Proof.
  intros Hb.
  apply (body_run_invariant c grows_by_invocations) in Hb; [ exact Hb | .. ].
  - intros s r w'. unfold grows_by_invocations. simpl. lia.
  - intros s o1 o2. unfold grows_by_invocations. simpl. rewrite length_app. lia.
  - intros s pos kw res w'. unfold grows_by_invocations. simpl. lia.
  - intros s pos kw k o _ _. apply grows_by_invocations_stored.
Qed.

(** *** The scratch dictionary through the calls *)

(** Two scratch dictionaries that differ at parameter names only. *)
Definition agree_outside (c : Closure) (sh1 sh2 : gmap string Value) : Prop :=
  ∀ n, n ∉ (pos_and_arg_tuples c).*2 → sh1 !! n = sh2 !! n.

Lemma filled_names (pairs : list (nat * string)) (posargs : list Value) (n : string) :
  n ∈ (filled pairs posargs).*1 → n ∈ pairs.*2.
Proof.
  induction pairs as [ | [pos arg] pairs IH ]; simpl; [ done | ].
  destruct (posargs !! pos); simpl; [ | by rewrite elem_of_nil ].
  rewrite !elem_of_cons. intros [-> | Hin]; [ by left | right; by apply IH ].
Qed.

Lemma filled_all_names (pairs : list (nat * string)) (posargs : list Value) (n : string) :
  fill_outcome pairs posargs = Return tt →
  n ∈ pairs.*2 → n ∈ (filled pairs posargs).*1.
Proof.
  induction pairs as [ | [pos arg] pairs IH ]; simpl; [ done | ].
  destruct (posargs !! pos); [ | discriminate ]. simpl.
  rewrite !elem_of_cons. intros Hok [-> | Hin]; [ by left | right; by apply IH ].
Qed.

Lemma dict_of_pairs_lookup_is_Some {K V} `{Countable K} (l : list (K * V)) (k : K) :
  k ∈ l.*1 → is_Some (dict_of_pairs l !! k).
Proof.
  induction l as [ | [k' v'] l IH ]; [ by rewrite elem_of_nil | ].
  rewrite fmap_cons, elem_of_cons, dict_of_pairs_cons. simpl. intros Hin.
  destruct (dict_of_pairs l !! k) as [v | ] eqn:E.
  - exists v. by apply lookup_union_Some_l.
  - destruct Hin as [-> | Hin]; [ | by apply IH in Hin as [? ?] ].
    exists v'. rewrite lookup_union_r by done. apply lookup_singleton_eq.
Qed.

(** Deriving a key writes parameter names only. *)
Lemma derive_key_writes_names (c : Closure) posargs kwargs (shared : gmap string Value) :
  agree_outside c (derive_key builtins c posargs kwargs shared).2 shared.
Proof.
  intros n Hn. unfold derive_key.
  destruct (dict_truthy kwargs || dict_truthy (defaults c)); [ reflexivity | ].
  rewrite fill_shared_eq, fold_insert_union.
  assert (Hu : (dict_of_pairs (filled (pos_and_arg_tuples c) posargs) ∪ shared) !! n
               = shared !! n).
  { apply lookup_union_r. apply dict_of_pairs_lookup_None. intros Hin.
    by apply filled_names in Hin. }
  by destruct (fill_outcome (pos_and_arg_tuples c) posargs).
Qed.

(** The key does not depend on what the scratch dictionary holds under
    parameter names. *)
Lemma derive_key_agree (c : Closure) posargs kwargs (sh1 sh2 : gmap string Value) :
  agree_outside c sh1 sh2 →
  (derive_key builtins c posargs kwargs sh1).1
  = (derive_key builtins c posargs kwargs sh2).1.
Proof.
  intros Hagree. unfold derive_key.
  destruct (dict_truthy kwargs || dict_truthy (defaults c)); [ reflexivity | ].
  rewrite !fill_shared_eq.
  destruct (fill_outcome (pos_and_arg_tuples c) posargs) as [ [] | e ] eqn:Hfill;
    [ | reflexivity ].
  simpl. f_equal. rewrite !fold_insert_union. apply map_eq. intros n.
  set (F := dict_of_pairs (filled (pos_and_arg_tuples c) posargs)).
  destruct (F !! n) as [v | ] eqn:E.
  - by rewrite !(lookup_union_Some_l _ _ _ _ E).
  - rewrite !lookup_union_r by exact E. apply Hagree. intros Hin.
    apply (filled_all_names _ posargs) in Hin; [ | exact Hfill ].
    apply dict_of_pairs_lookup_is_Some in Hin as [v Hv]. fold F in Hv. congruence.
Qed.

(** A call, with all the calls inside it, writes parameter names only. *)
Lemma call_writes_names (c : Closure) (depth : nat) posargs kwargs st (w : World) o :
  call builtins depth c posargs kwargs st w = Some o →
  agree_outside c (shared_dict (cells o)) (shared_dict st).
Proof.
  apply (call_invariant c
           (λ st o, agree_outside c (shared_dict (cells o)) (shared_dict st))).
  - done.
  - intros s o1 o2 H1 H2 n Hn. simpl. rewrite (H2 n Hn). by apply H1.
  - intros s pos kw res w'. simpl. apply derive_key_writes_names.
  - intros s pos kw k b _ _ Hb n Hn. simpl in *.
    assert (E : shared_dict (cells b) !! n
                = (derive_key builtins c pos kw (shared_dict s)).2 !! n) by by apply Hb.
    rewrite <- (derive_key_writes_names c pos kw (shared_dict s) n Hn), <- E.
    by destruct (result b).
Qed.

(** A series of calls of the wrapper, one after the other, each of them
    brought to its end. *)
Fixpoint calls (depth : nat) (c : Closure) (l : list (list Value * gmap string Value))
    (st : Cells) (w : World) : option (Cells * World) :=
  match l with
  | [] => Some (st, w)
  | a :: l =>
      match call builtins depth c a.1 a.2 st w with
      | None => None
      | Some o => calls depth c l (cells o) (world o)
      end
  end.


Lemma calls_write_names (c : Closure) (depth : nat) l st (w : World) st' w' :
  calls depth c l st w = Some (st', w') →
  agree_outside c (shared_dict st') (shared_dict st).
Proof.
  revert st w. induction l as [ | [pos kw] l IH ]; intros st w; simpl.
  - by intros [= <- <-].
  - destruct (call builtins depth c pos kw st w) as [o | ] eqn:E; [ | done ].
    intros Hl n Hn. rewrite (IH _ _ Hl n Hn). by eapply call_writes_names.
Qed.


(** A call whose key is in the cache answers from it. *)
Lemma call_cached (c : Closure) (depth : nat) posargs kwargs st (w : World) k r :
  (derive_key builtins c posargs kwargs (shared_dict st)).1 = Return k →
  hashable k = true →
  memoized st !! k = Some r →
  ∃ o, call builtins (S depth) c posargs kwargs st w = Some o
       ∧ result o = Return r ∧ invoked o = [] ∧ world o = w
       ∧ memoized (cells o) = memoized st.
Proof.
  intros E Hh Hm. rewrite (call_hit _ _ _ _ _ _ _ _ E Hh Hm). by eexists.
Qed.


(** What a call that returned has left in the cache, and where the value
    came from: from the cache as the call found it, or from the wrapped
    function. *)
Lemma call_return_inv (c : Closure) (depth : nat) posargs kwargs st (w : World) o r :
  call builtins depth c posargs kwargs st w = Some o →
  result o = Return r →
  ∃ k, (derive_key builtins c posargs kwargs (shared_dict st)).1 = Return k
       ∧ hashable k = true
       ∧ memoized (cells o) !! k = Some r
       ∧ (memoized st !! k = Some r ∧ invoked o = [] ∧ world o = w
          ∧ memoized (cells o) = memoized st
          ∨ memoized st !! k = None
            ∧ ∃ depth' b,
                depth = S depth'
                ∧ body_run depth' c posargs kwargs st w = Some b
                ∧ result b = Return r
                ∧ world o = world b
                ∧ invoked o = (posargs, kwargs) :: invoked b
                ∧ memoized (cells o) = <[k := r]> (memoized (cells b))).
Proof.
  intros Ho Hr. destruct depth as [ | depth ]; [ done | ].
  destruct (call_cases c posargs kwargs st) as [ e E | k E Hh | k r' E Hh Hm | k E Hh Hm ].
  - rewrite (call_key_raises _ _ _ _ _ _ _ E) in Ho. injection Ho as <-. discriminate Hr.
  - rewrite (call_unhashable _ _ _ _ _ _ _ E Hh) in Ho. injection Ho as <-.
    discriminate Hr.
  - rewrite (call_hit _ _ _ _ _ _ _ _ E Hh Hm) in Ho. injection Ho as <-.
    simpl in Hr. injection Hr as ->. exists k. simpl. split; [ exact E | ].
    split; [ exact Hh | ]. split; [ exact Hm | ]. by left.
  - rewrite (call_miss _ _ _ _ _ _ _ E Hh Hm) in Ho.
    destruct (body_run depth c posargs kwargs st w) as [b | ] eqn:Hb; [ | done ].
    injection Ho as <-. simpl in Hr. exists k. simpl. rewrite Hr. simpl.
    split; [ exact E | ]. split; [ exact Hh | ].
    split; [ apply lookup_insert_eq | ]. right. split; [ exact Hm | ].
    by exists depth, b.
Qed.


(** C9, as the code has it.  Take a call whose key is not in the cache, and
    whose run of the wrapped function ends with the function raising [e].
    The call raises [e], the very exception, and assigns nothing: it leaves
    the two dictionaries as the wrapped function left them.  The cache then
    holds every entry it held before the call, and beyond those at most one
    for each run of the wrapped function made from inside this one, by the
    calls of the wrapper that a recursive function makes; with a function
    that made no such call the cache is unchanged.  As long as the key has
    no entry, the next call that derives it runs the wrapped function
    again. *)
Theorem exception_not_cached (c : Closure) (depth : nat) (posargs : list Value)
    (kwargs : gmap string Value) (st : Cells) (w : World) (k : Value)
    (b : Outcome) (e : Exn) :
  (derive_key builtins c posargs kwargs (shared_dict st)).1 = Return k →
  hashable k = true →
  memoized st !! k = None →
  body_run depth c posargs kwargs st w = Some b →
  result b = Raise e →
  ∃ o1, call builtins (S depth) c posargs kwargs st w = Some o1
        ∧ result o1 = Raise e
        ∧ world o1 = world b
        ∧ invoked o1 = (posargs, kwargs) :: invoked b
        ∧ cells o1 = cells b
        ∧ memoized st ⊆ memoized (cells o1)
        ∧ (size (memoized (cells o1)) ≤ size (memoized st) + length (invoked b))%nat
        ∧ (invoked b = [] →
             memoized (cells o1) = memoized st ∧ memoized (cells o1) !! k = None)
        ∧ (memoized (cells o1) !! k = None →
             ∀ posargs' kwargs' depth',
               (derive_key builtins c posargs' kwargs' (shared_dict (cells o1))).1
               = Return k →
               match body_run depth' c posargs' kwargs' (cells o1) (world o1) with
               | Some b' =>
                   ∃ o2, call builtins (S depth') c posargs' kwargs' (cells o1) (world o1)
                         = Some o2
                         ∧ result o2 = result b'
                         ∧ world o2 = world b'
                         ∧ invoked o2 = (posargs', kwargs') :: invoked b'
               | None =>
                   call builtins (S depth') c posargs' kwargs' (cells o1) (world o1) = None
               end).
Proof.
  intros E Hh Hm Hb Hr.
  pose proof (body_run_keeps_entries c _ _ _ _ _ _ Hb) as Hkeeps.
  pose proof (body_run_grows_by_invocations c _ _ _ _ _ _ Hb) as Hsize.
  unfold grows_by_invocations in Hsize.
  exists (stored k (posargs, kwargs) b).
  split; [ by rewrite (call_miss _ _ _ _ _ _ _ E Hh Hm), Hb | ].
  unfold stored. cbn [result cells world invoked]. rewrite Hr.
  split; [ reflexivity | ]. split; [ reflexivity | ]. split; [ reflexivity | ].
  split; [ reflexivity | ]. split; [ exact Hkeeps | ]. split; [ exact Hsize | ].
  split.
  - intros Hnone. rewrite Hnone in Hsize. simpl in Hsize.
    assert (Heq : memoized (cells b) = memoized st).
    { symmetry. apply map_subseteq_size_eq; [ exact Hkeeps | lia ]. }
    by rewrite Heq.
  - intros Habsent posargs' kwargs' depth' E'.
    rewrite (call_miss _ _ _ _ _ _ _ E' Hh Habsent).
    destruct (body_run depth' c posargs' kwargs' (cells b) (world b)) as [b' | ];
      [ | reflexivity ].
    simpl. by eexists.
Qed.

(** What [__call__] captures when the key compiles. *)
Lemma memoize_call_inv (self : memoize) (f : Function) (c : Closure) :
  memoize_call self f = Some (Return c) →
  compile (key self) = Some (Return (key_program c))
  ∧ argnames c = _arg_names f
  ∧ pos_and_arg_tuples c = zip (seq 0 (co_argcount f)) (_arg_names f)
  ∧ wrapped c = f
  ∧ defaults c
    = match func_defaults f with
      | Some (d :: ds) =>
          dict_of_pairs
            (zip (drop (length (_arg_names f) - length (d :: ds)) (_arg_names f)) (d :: ds))
      | _ => ∅
      end.
Proof.
  unfold memoize_call. destruct (compile (key self)) as [[kp | e] | ]; try discriminate.
  intros [= <-]. by simpl.
Qed.

(** The wrap succeeds as soon as the key compiles: nothing is evaluated. *)
Lemma memoize_call_compiled (self : memoize) (f : Function) (e : expr) :
  compile (key self) = Some (Return e) →
  ∃ c, memoize_call self f = Some (Return c) ∧ key_program c = e ∧ wrapped c = f.
Proof. intros He. unfold memoize_call. rewrite He. by eexists. Qed.

(** The mapping of the slow path binds parameter names, and the names of
    the keywords. *)
Lemma slow_args_unbound (c : Closure) (f : Function) (self : memoize)
    (posargs : list Value) (kwargs : gmap string Value) (n : string) :
  memoize_call self f = Some (Return c) →
  n ∉ _arg_names f →
  kwargs !! n = None →
  slow_args c posargs kwargs !! n = None.
Proof.
  intros Hwrap Hn Hkw.
  destruct (memoize_call_inv self f c Hwrap) as (_ & Hnames & _ & _ & Hdef).
  unfold slow_args, dict_update. rewrite !lookup_union_None.
  split; [ exact Hkw | ]. split.
  - apply dict_of_pairs_lookup_None. rewrite Hnames. intros Hin.
    apply zip_names_keys in Hin as (i & Hi & _). apply Hn.
    by eapply list_elem_of_lookup_2.
  - rewrite Hdef. destruct (func_defaults f) as [ [ | d ds ] | ]; try apply lookup_empty.
    apply dict_of_pairs_lookup_None. intros Hin.
    apply list_elem_of_fmap in Hin as ([a b] & -> & Hin). apply elem_of_zip_l in Hin.
    apply Hn. simpl. by eapply subseteq_drop.
Qed.


(** *** The fast path on a full list of positional arguments *)

Lemma filled_zip_seq (names : list string) (start cnt : nat) (posargs : list Value) :
  (length names ≤ cnt)%nat →
  (start + length names ≤ length posargs)%nat →
  filled (zip (seq start cnt) names) posargs = zip names (drop start posargs)
  ∧ fill_outcome (zip (seq start cnt) names) posargs = Return tt.
Proof.
  revert start cnt. induction names as [ | n names IH ]; intros start cnt Hcnt Hlen.
  - by rewrite zip_with_nil_r.
  - destruct cnt as [ | cnt ]; [ simpl in Hcnt; lia | ]. simpl in Hcnt, Hlen.
    destruct (lookup_lt_is_Some_2 posargs start) as [v Hv]; [ lia | ].
    cbn [seq zip_with filled fill_outcome]. rewrite Hv.
    destruct (IH (S start) cnt) as [IH1 IH2]; [ lia | lia | ].
    split; [ | exact IH2 ].
    rewrite IH1. by rewrite (drop_S posargs v start Hv).
Qed.

(** When the fast path is taken, nothing comes from keywords or defaults. *)
Lemma fast_path_inv (c : Closure) (kwargs : gmap string Value) :
  dict_truthy kwargs || dict_truthy (defaults c) = false →
  kwargs = ∅ ∧ defaults c = ∅.
Proof.
  unfold dict_truthy. rewrite orb_false_iff, !negb_false_iff.
  intros [H1 H2]. by apply bool_decide_eq_true in H1, H2.
Qed.

(** The key of a closure whose program is the default one: the values that
    the mapping of the call gives to the declared names, in their order. *)
Lemma derive_key_default (c : Closure) (names : list string) (cnt : nat)
    (posargs : list Value) (kwargs shared : gmap string Value) (vs : list Value) :
  key_program c = default_program names →
  argnames c = names →
  pos_and_arg_tuples c = zip (seq 0 cnt) names →
  (length names ≤ cnt)%nat →
  NoDup names →
  Forall2 (λ n v, slow_args c posargs kwargs !! n = Some v) names vs →
  (derive_key builtins c posargs kwargs shared).1
  = Return match vs with [v] => v | _ => VTuple vs end.
Proof.
  intros Hprog Hnames Hpairs Hcnt Hnodup Hvs. unfold derive_key.
  destruct (dict_truthy kwargs || dict_truthy (defaults c)) eqn:Hpath.
  - simpl. rewrite Hprog. by apply eval_default_program.
  - destruct (fast_path_inv c kwargs Hpath) as [-> Hdef].
    assert (Eargs : slow_args c posargs ∅ = dict_of_pairs (zip names posargs)).
    { unfold slow_args, dict_update. rewrite Hdef, Hnames.
      by rewrite (left_id_L ∅ (∪)), (right_id_L ∅ (∪)). }
    rewrite Eargs in Hvs.
    assert (Hlen : (length names ≤ length posargs)%nat).
    { destruct (decide (length names = 0)%nat) as [E0 | Hpos]; [ lia | ].
      destruct (lookup_lt_is_Some_2 names (length names - 1)) as [n Hn]; [ lia | ].
      destruct (Forall2_lookup_l _ _ _ _ _ Hvs Hn) as (v & _ & Hv).
      apply dict_of_pairs_lookup_Some, zip_names_keys in Hv as (i & Hi & Hlt).
      pose proof (NoDup_lookup _ _ _ _ Hnodup Hn Hi). lia. }
    rewrite fill_shared_eq, Hpairs.
    destruct (filled_zip_seq names 0 cnt posargs Hcnt) as [-> ->]; [ simpl; lia | ].
    rewrite drop_0, fold_insert_union. simpl. rewrite Hprog.
    apply eval_default_program.
    eapply Forall2_impl; [ exact Hvs | ]. simpl. intros n v Hn.
    by apply lookup_union_Some_l.
Qed.

(** C2, as the code has it.  Wrapping a bare function whose parameter names
    are distinct names succeeds.  The key of a call is then the value of the
    text ["(" + ", ".join(names) + ")"] in the mapping of the call: for a
    function of one parameter the value of that parameter, itself and not a
    tuple around it, and otherwise the tuple of the parameters' values in
    the order of their declaration.  In particular a call that passes every
    parameter by position has its argument list for key, so that equal
    arguments give equal keys. *)
Theorem default_key_is_parameter_values (f : Function) :
  Forall (λ n, is_name n = true) (_arg_names f) →
  NoDup (_arg_names f) →
  ∃ c, memoize_new (inl f) = Some (Return (inl c))
       ∧ (∀ posargs kwargs shared vs,
            Forall2 (λ n v, slow_args c posargs kwargs !! n = Some v) (_arg_names f) vs →
            (derive_key builtins c posargs kwargs shared).1
            = Return match vs with [v] => v | _ => VTuple vs end)
       ∧ (∀ posargs shared,
            length posargs = length (_arg_names f) →
            (derive_key builtins c posargs ∅ shared).1
            = Return match posargs with [v] => v | _ => VTuple posargs end).
Proof.
  intros Hnames Hnodup.
  pose proof (compile_default_key (_arg_names f) Hnames) as Hcompile.
  assert (Hwrap : ∃ c, memoize_call {| key := default_key f |} f = Some (Return c)).
  { unfold memoize_call. cbn [key]. unfold default_key. rewrite Hcompile. eauto. }
  destruct Hwrap as [c Hwrap].
  destruct (memoize_call_inv _ _ _ Hwrap) as (Hprog & Hargnames & Hpairs & _ & _).
  cbn [key] in Hprog. unfold default_key in Hprog. rewrite Hcompile in Hprog.
  injection Hprog as Hprog.
  assert (Hkey : ∀ posargs kwargs shared vs,
            Forall2 (λ n v, slow_args c posargs kwargs !! n = Some v) (_arg_names f) vs →
            (derive_key builtins c posargs kwargs shared).1
            = Return match vs with [v] => v | _ => VTuple vs end).
  { intros posargs kwargs shared vs Hvs.
    apply derive_key_default with (names := _arg_names f) (cnt := co_argcount f);
      try done.
    unfold _arg_names. rewrite length_take. lia. }
  exists c. split; [ | split ].
  - unfold memoize_new. by rewrite Hwrap.
  - exact Hkey.
  - intros posargs shared Hlen. apply Hkey.
    apply Forall2_same_length_lookup. split; [ by rewrite Hlen | ].
    intros i n v Hn Hv. unfold slow_args, dict_update.
    rewrite (left_id_L ∅ (∪)). apply lookup_union_Some_l. rewrite Hargnames.
    by apply (dict_of_pairs_zip_lookup _ _ i).
Qed.

(** *** Keys that fail *)

(** A key that reads a name which is neither a parameter nor a builtin:
    every call that gives the positional parameters, and does not pass the
    name as a keyword, raises [NameError] from the evaluation of the key,
    without running the wrapped function. *)
Lemma unbound_name_raises (self : memoize) (f : Function) (c : Closure) (n : string)
    (history : list (list Value * gmap string Value)) (depth0 depth : nat)
    (w0 w : World) (st : Cells) (posargs : list Value) (kwargs : gmap string Value) :
  memoize_call self f = Some (Return c) →
  n ∈ names_of (key_program c) →
  n ∉ _arg_names f →
  builtins n = false →
  calls depth0 c history fresh_cells w0 = Some (st, w) →
  kwargs !! n = None →
  (length (_arg_names f) ≤ length posargs)%nat →
  ∃ o n', call builtins (S depth) c posargs kwargs st w = Some o
          ∧ result o = Raise (NameError n')
          ∧ n' ∈ names_of (key_program c)
          ∧ (n' ∉ _arg_names f)
          ∧ kwargs !! n' = None
          ∧ builtins n' = false
          ∧ invoked o = []
          ∧ world o = w
          ∧ memoized (cells o) = memoized st.
Proof.
  intros Hwrap Hin Hfresh Hb Hhist Hkw Hlen.
  destruct (memoize_call_inv _ _ _ Hwrap) as (_ & Hnames & Hpairs & _ & _).
  assert (Hzip : ∀ m, dict_of_pairs (zip (_arg_names f) posargs) !! m = None →
                      m ∉ _arg_names f).
  { intros m Hm Hin'.
    destruct (dict_of_pairs_lookup_is_Some (zip (_arg_names f) posargs) m) as [v Hv];
      [ by rewrite fst_zip | congruence ]. }
  assert (Hkey : ∃ env, (derive_key builtins c posargs kwargs (shared_dict st)).1
                        = eval builtins env (key_program c)
                        ∧ env !! n = None
                        ∧ ∀ m, env !! m = None → (m ∉ _arg_names f) ∧ kwargs !! m = None).
  { unfold derive_key.
    destruct (dict_truthy kwargs || dict_truthy (defaults c)) eqn:Hpath.
    - exists (slow_args c posargs kwargs). split; [ reflexivity | ].
      split; [ by apply (slow_args_unbound c f self) | ].
      intros m. unfold slow_args, dict_update. rewrite !lookup_union_None, Hnames.
      intros (Hm1 & Hm2 & _). split; [ by apply Hzip | exact Hm1 ].
    - destruct (fast_path_inv c kwargs Hpath) as [-> _].
      rewrite fill_shared_eq, Hpairs.
      destruct (filled_zip_seq (_arg_names f) 0 (co_argcount f) posargs) as [-> ->].
      { unfold _arg_names. rewrite length_take. lia. }
      { simpl. lia. }
      rewrite drop_0, fold_insert_union. eexists. split; [ reflexivity | ].
      split.
      + rewrite lookup_union_None. split.
        * apply dict_of_pairs_lookup_None. intros Hz.
          apply zip_names_keys in Hz as (i & Hi & _). apply Hfresh.
          by eapply list_elem_of_lookup_2.
        * rewrite (calls_write_names c _ _ _ _ _ _ Hhist n); [ apply lookup_empty | ].
          rewrite Hpairs. intros Hz. apply list_elem_of_fmap in Hz as ([a b] & -> & Hz).
          by apply elem_of_zip_r in Hz.
      + intros m. rewrite lookup_union_None. intros [Hm _].
        split; [ by apply Hzip | apply lookup_empty ]. }
  destruct Hkey as (env & Hkey & Henv & Hunbound).
  destruct (eval_unbound builtins env _ n Hin Henv Hb) as (n' & Heval & Hin' & Hn' & Hb').
  destruct (Hunbound n' Hn') as [Hparam Hkw'].
  rewrite Heval in Hkey. rewrite (call_key_raises _ _ _ _ _ _ _ Hkey).
  eexists. exists n'. by repeat split.
Qed.

(** C6, as the code has it.  Constructing [memoize(key)] stores the text and
    never fails.  A text that does not compile fails when the instance is
    applied to the function, with the error of [compile], before any call.
    A text that compiles is wrapped without being evaluated, whatever it
    reads: the wrap succeeds, and holds the compiled expression.  A failure
    of the evaluation comes at each call that evaluates the key, as the
    exception [eval] raised, before the wrapped function is run and with
    the cache untouched.  Such is a key that reads a name which is neither
    a parameter nor a builtin: every call that gives the positional
    parameters raises [NameError], for a name the key reads; when the key
    is that name alone, for that name. *)
Theorem key_errors_at_wrap_or_call (text : string) (f : Function) :
  memoize_new (inr text : Function + string) = Some (Return (inr {| key := text |}))
  ∧ (∀ e, compile text = Some (Raise e) →
          memoize_call {| key := text |} f = Some (Raise e))
  ∧ (∀ e, compile text = Some (Return e) →
       ∃ c, memoize_call {| key := text |} f = Some (Return c)
            ∧ key_program c = e
            ∧ wrapped c = f
            ∧ (∀ posargs kwargs st w x depth,
                 (derive_key builtins c posargs kwargs (shared_dict st)).1 = Raise x →
                 ∃ o, call builtins (S depth) c posargs kwargs st w = Some o
                      ∧ result o = Raise x ∧ invoked o = [] ∧ world o = w
                      ∧ memoized (cells o) = memoized st)
            ∧ (∀ n, n ∈ names_of e → n ∉ _arg_names f → builtins n = false →
                 ∀ history depth0 w0 st w,
                   calls depth0 c history fresh_cells w0 = Some (st, w) →
                   ∀ posargs kwargs depth,
                     kwargs !! n = None →
                     (length (_arg_names f) ≤ length posargs)%nat →
                     ∃ o n', call builtins (S depth) c posargs kwargs st w = Some o
                             ∧ result o = Raise (NameError n')
                             ∧ n' ∈ names_of e
                             ∧ (n' ∉ _arg_names f)
                             ∧ kwargs !! n' = None
                             ∧ builtins n' = false
                             ∧ invoked o = []
                             ∧ world o = w
                             ∧ memoized (cells o) = memoized st))
  ∧ (is_name text = true → text ∉ _arg_names f → builtins text = false →
     ∃ c, memoize_call {| key := text |} f = Some (Return c)
          ∧ ∀ history depth0 w0 st w,
              calls depth0 c history fresh_cells w0 = Some (st, w) →
              ∀ posargs kwargs depth,
                kwargs !! text = None →
                (length (_arg_names f) ≤ length posargs)%nat →
                ∃ o, call builtins (S depth) c posargs kwargs st w = Some o
                     ∧ result o = Raise (NameError text) ∧ invoked o = []
                     ∧ world o = w ∧ memoized (cells o) = memoized st).
Proof.
  split; [ reflexivity | ]. split; [ | split ].
  - intros e He. unfold memoize_call. cbn [key]. by rewrite He.
  - intros e He.
    destruct (memoize_call_compiled {| key := text |} f e He) as (c & Hwrap & Hprog & Hf).
    exists c. split; [ exact Hwrap | ]. split; [ exact Hprog | ]. split; [ exact Hf | ].
    split.
    + intros posargs kwargs st w x depth Hx.
      rewrite (call_key_raises _ _ _ _ _ _ _ Hx). by eexists.
    + intros n Hin Hfresh Hb history depth0 w0 st w Hhist posargs kwargs depth Hkw Hlen.
      rewrite <- Hprog in Hin |- *.
      by apply (unbound_name_raises {| key := text |} f c n history depth0 depth w0).
  - intros Hname Hfresh Hb.
    destruct (memoize_call_compiled {| key := text |} f _ (compile_name text Hname))
      as (c & Hwrap & Hprog & _).
    exists c. split; [ exact Hwrap | ].
    intros history depth0 w0 st w Hhist posargs kwargs depth Hkw Hlen.
    destruct (unbound_name_raises {| key := text |} f c text history depth0 depth
                w0 w st posargs kwargs Hwrap)
      as (o & n' & Ho & Hr & Hin & _ & _ & _ & ? & ? & ?);
      try done.
    { rewrite Hprog. by left. }
    rewrite Hprog in Hin. apply list_elem_of_singleton in Hin as ->. by exists o.
Qed.

End Cache.

(** *** The theorems at work *)

(** [def with_default(x, y=2): return 10 * x + y], counting invocations. *)
Definition with_default : Function nat :=
  {| co_varnames := ["x"; "y"]; co_argcount := 2; func_defaults := Some [VInt 2];
     func_call := λ posargs kwargs counter,
       match posargs with
       | [VInt x] => Done (Return (VInt (10 * x + 2))) (S counter)
       | [VInt x; VInt y] => Done (Return (VInt (10 * x + y))) (S counter)
       | _ => Done (Raise TypeError) counter
       end |}.

(** A function that counts its invocations and raises. *)
Definition flaky : Function nat :=
  {| co_varnames := ["x"]; co_argcount := 1; func_defaults := None;
     func_call := λ posargs kwargs counter,
       Done (Raise (UserError (VStr "boom"))) (S counter) |}.

(** A function that calls itself through its wrapper, and fails after the
    inner call has returned: with [descend] being the name of the wrapper,
    [def descend(n)] returns [0] when [n == 0], and otherwise evaluates
    [descend(n - 1)] and raises. *)
Definition descend : Function nat :=
  {| co_varnames := ["n"]; co_argcount := 1; func_defaults := None;
     func_call := λ posargs kwargs counter,
       match posargs with
       | [VInt 0] => Done (Return (VInt 0)) (S counter)
       | [VInt n] =>
           Reenter [VInt (n - 1)] ∅ (S counter)
             (λ r counter',
                match r with
                | Return _ => Done (Raise (UserError (VStr "boom"))) counter'
                | Raise e => Done (Raise e) counter'
                end)
       | _ => Done (Raise TypeError) counter
       end |}.

(** [memoize(square)], [memoize(with_default)], [memoize(flaky)],
    [memoize(descend)]. *)
Definition square_wrapped : Closure nat :=
  {| key_program := EName "x"; argnames := ["x"]; defaults := ∅;
     pos_and_arg_tuples := [(0%nat, "x")]; wrapped := square |}.

Definition with_default_wrapped : Closure nat :=
  {| key_program := ETuple [EName "x"; EName "y"]; argnames := ["x"; "y"];
     defaults := dict_of_pairs [("y", VInt 2)];
     pos_and_arg_tuples := [(0%nat, "x"); (1%nat, "y")]; wrapped := with_default |}.

Definition flaky_wrapped : Closure nat :=
  {| key_program := EName "x"; argnames := ["x"]; defaults := ∅;
     pos_and_arg_tuples := [(0%nat, "x")]; wrapped := flaky |}.

Definition descend_wrapped : Closure nat :=
  {| key_program := EName "n"; argnames := ["n"]; defaults := ∅;
     pos_and_arg_tuples := [(0%nat, "n")]; wrapped := descend |}.

Lemma memoize_square : memoize_new (inl square) = Some (Return (inl square_wrapped)).
Proof. reflexivity. Qed.

Lemma memoize_with_default :
  memoize_new (inl with_default) = Some (Return (inl with_default_wrapped)).
Proof. reflexivity. Qed.

Lemma memoize_flaky : memoize_new (inl flaky) = Some (Return (inl flaky_wrapped)).
Proof. reflexivity. Qed.

Lemma memoize_descend : memoize_new (inl descend) = Some (Return (inl descend_wrapped)).
Proof. reflexivity. Qed.



(** [flaky(4)]: the exception comes out, the cache stays empty, and the
    next call runs the function again. *)
Lemma exception_not_cached_witness :
  ∃ b o1,
    (derive_key pybuiltins flaky_wrapped [VInt 4] ∅ (shared_dict fresh_cells)).1
    = Return (VInt 4)
    ∧ hashable (VInt 4) = true
    ∧ memoized fresh_cells !! VInt 4 = None
    ∧ body_run pybuiltins 0 flaky_wrapped [VInt 4] ∅ fresh_cells 0%nat = Some b
    ∧ result b = Raise (UserError (VStr "boom"))
    ∧ call pybuiltins 1 flaky_wrapped [VInt 4] ∅ fresh_cells 0%nat = Some o1
    ∧ result o1 = Raise (UserError (VStr "boom"))
    ∧ invoked o1 = [([VInt 4], ∅)]
    ∧ memoized (cells o1) = memoized fresh_cells.
Proof.
  assert (H1 : (derive_key pybuiltins flaky_wrapped [VInt 4] ∅ (shared_dict fresh_cells)).1
               = Return (VInt 4)) by reflexivity.
  assert (H2 : hashable (VInt 4) = true) by reflexivity.
  assert (H3 : memoized (fresh_cells) !! VInt 4 = None) by reflexivity.
  assert (H4 : ∃ b, body_run pybuiltins 0 flaky_wrapped [VInt 4] ∅ fresh_cells 0%nat = Some b
                    ∧ result b = Raise (UserError (VStr "boom"))
                    ∧ invoked b = []).
  { eexists. split; [ reflexivity | ]. by split. }
  destruct H4 as (b & Hb & Hr & Hinv).
  destruct (exception_not_cached pybuiltins flaky_wrapped 0 [VInt 4] ∅ fresh_cells 0%nat
              (VInt 4) b _ H1 H2 H3 Hb Hr)
    as (o1 & Ho1 & Hr1 & _ & Hinv1 & _ & _ & _ & Hsame & _).
  exists b, o1. rewrite Hinv in Hinv1. destruct (Hsame Hinv) as [Hmem _].
  by repeat split.
Defined.

(** [descend(1)] on an empty cache: the call fails, and the entry that the
    inner call [descend(0)] made is in the cache. *)
Lemma failed_call_keeps_inner_entries :
  ∃ o1,
    call pybuiltins 2 descend_wrapped [VInt 1] ∅ fresh_cells 0%nat = Some o1
    ∧ result o1 = Raise (UserError (VStr "boom"))
    ∧ invoked o1 = [([VInt 1], ∅); ([VInt 0], ∅)]
    ∧ memoized (cells o1) !! VInt 0 = Some (VInt 0)
    ∧ memoized fresh_cells !! VInt 0 = None
    ∧ memoized (cells o1) ≠ memoized fresh_cells.
Proof.
  eexists. split; [ reflexivity | ]. split; [ reflexivity | ].
  split; [ reflexivity | ]. split; [ reflexivity | ]. split; [ reflexivity | ].
  intros H. apply (f_equal (λ m, m !! VInt 0)) in H. discriminate H.
Qed.


Lemma default_key_is_parameter_values_witness :
  Forall (λ n, is_name n = true) (_arg_names with_default)
  ∧ NoDup (_arg_names with_default)
  ∧ ∃ c, memoize_new (inl with_default) = Some (Return (inl c))
         ∧ (derive_key pybuiltins c [VInt 1; VInt 2] ∅ ∅).1
           = Return (VTuple [VInt 1; VInt 2]).
Proof.
  assert (H1 : Forall (λ n, is_name n = true) (_arg_names with_default)).
  { repeat constructor. }
  assert (H2 : NoDup (_arg_names with_default)) by compute_done.
  destruct (default_key_is_parameter_values pybuiltins with_default H1 H2)
    as (c & Hc & _ & Hkey).
  split; [ exact H1 | ]. split; [ exact H2 | ].
  exists c. split; [ exact Hc | ]. apply (Hkey [VInt 1; VInt 2] ∅). reflexivity.
Defined.

(** The key of [square(4)] is [4], not the tuple [(4,)]. *)
Lemma default_key_of_one_parameter :
  memoize_new (inl square) = Some (Return (inl square_wrapped))
  ∧ (derive_key pybuiltins square_wrapped [VInt 4] ∅ ∅).1 = Return (VInt 4)
  ∧ VInt 4 ≠ VTuple [VInt 4].
Proof. split; [ reflexivity | ]. split; [ reflexivity | discriminate ]. Qed.

(** The text ["(x"] is accepted by the constructor and refused, with
    [SyntaxError], when the instance is applied to [square]: at wrap time,
    no call having been made. *)
Lemma unbalanced_key_fails_at_wrap :
  memoize_new (inr "(x" : Function nat + string) = Some (Return (inr {| key := "(x" |}))
  ∧ memoize_call {| key := "(x" |} square = Some (Raise SyntaxError).
Proof. split; reflexivity. Qed.

(** The key ["(x, z)"] on [square]: the wrap succeeds, and the call raises
    [NameError] for [z]. *)
Lemma key_errors_at_wrap_or_call_witness :
  compile "(x, z)" = Some (Return (ETuple [EName "x"; EName "z"]))
  ∧ ("z" ∉ _arg_names square)
  ∧ pybuiltins "z" = false
  ∧ ∃ c, memoize_call {| key := "(x, z)" |} square = Some (Return c)
         ∧ ∃ o, call pybuiltins 1 c [VInt 4] ∅ fresh_cells 0%nat = Some o
                ∧ result o = Raise (NameError "z")
                ∧ invoked o = [].
Proof.
  assert (H1 : compile "(x, z)" = Some (Return (ETuple [EName "x"; EName "z"])))
    by reflexivity.
  assert (H2 : "z" ∉ _arg_names square) by compute_done.
  assert (H3 : pybuiltins "z" = false) by reflexivity.
  destruct (key_errors_at_wrap_or_call pybuiltins "(x, z)" square) as (_ & _ & Hwrap & _).
  destruct (Hwrap _ H1) as (c & Hc & Hprog & Hf & _ & Hcall).
  destruct (Hcall "z") with (history := @nil (list Value * gmap string Value))
    (depth0 := 0%nat) (w0 := 0%nat) (st := @fresh_cells) (w := 0%nat)
    (posargs := [VInt 4]) (kwargs := (∅ : gmap string Value)) (depth := 0%nat)
    as (o & n' & Ho & Hr & Hin & Hparam & _ & _ & Hinv & _);
    [ compute_done | exact H2 | exact H3 | reflexivity | apply lookup_empty
    | simpl; lia | ].
  split; [ exact H1 | ]. split; [ exact H2 | ]. split; [ exact H3 | ].
  exists c. split; [ exact Hc | ]. exists o. split; [ exact Ho | ].
  split; [ | exact Hinv ].
  assert (En : n' = "z").
  { simpl in Hin. rewrite !elem_of_cons, elem_of_nil in Hin.
    destruct Hin as [-> | [-> | []]]; [ | reflexivity ].
    exfalso. apply Hparam. compute_done. }
  by rewrite <- En.
Defined.

End MemoizeSpec.

(** ** Strings: how the primitives compose *)

Module PyStrFacts.
Import PyStr KeyExprFacts.

(** Whether a character occurs in a string. *)
Fixpoint has_char (c : ascii) (s : string) : bool :=
  match s with
  | EmptyString => false
  | String a rest => Ascii.eqb a c || has_char c rest
  end.

(** The string of [k] times the character [c]. *)
Fixpoint repeat_char (c : ascii) (k : nat) : string :=
  match k with
  | O => EmptyString
  | S k' => String c (repeat_char c k')
  end.

Lemma length_append (s t : string) :
  String.length (s ++ t) = (String.length s + String.length t)%nat.
Proof.
  induction s as [ | a s IH ]; [ reflexivity | ].
  rewrite append_cons. simpl. by rewrite IH.
Qed.

Lemma append_nil_r (s : string) : (s ++ "")%string = s.
Proof. induction s as [ | a s IH ]; [ reflexivity | by rewrite append_cons, IH ]. Qed.

Lemma startswith_append (p rest : string) : startswith (p ++ rest) p = true.
Proof.
  induction p as [ | a p IH ]; [ reflexivity | ].
  rewrite append_cons. simpl. by rewrite Ascii.eqb_refl, IH.
Qed.

Lemma startswith_inv (s p : string) :
  startswith s p = true → s = (p ++ drop_chars (String.length p) s)%string.
Proof.
  revert s. induction p as [ | a p IH ]; intros s H; [ reflexivity | ].
  destruct s as [ | c s ]; [ discriminate | ]. simpl in H.
  apply andb_true_iff in H as [Hc H]. apply Ascii.eqb_eq in Hc as ->.
  rewrite append_cons. simpl. f_equal. by apply IH.
Qed.

Lemma drop_chars_append (p rest : string) :
  drop_chars (String.length p) (p ++ rest) = rest.
Proof. induction p as [ | a p IH ]; [ reflexivity | by rewrite append_cons ]. Qed.

Lemma take_chars_append (p rest : string) :
  take_chars (String.length p) (p ++ rest) = p.
Proof.
  induction p as [ | a p IH ]; [ reflexivity | ].
  rewrite append_cons. simpl. by rewrite IH.
Qed.

Lemma length_take_chars (n : nat) (s : string) :
  String.length (take_chars n s) = min n (String.length s).
Proof.
  revert s. induction n as [ | n IH ]; intros [ | c s ]; simpl; try reflexivity.
  by rewrite IH.
Qed.

Lemma take_chars_all (n : nat) (s : string) :
  (String.length s ≤ n)%nat → take_chars n s = s.
Proof.
  revert s. induction n as [ | n IH ]; intros [ | c s ] H; simpl in *; try reflexivity.
  - lia.
  - rewrite IH; [ reflexivity | lia ].
Qed.

Lemma take_chars_take_append (n : nat) (s t : string) :
  (n ≤ String.length s)%nat → take_chars n (take_chars n s ++ t) = take_chars n s.
Proof.
  intros H. rewrite <- (take_chars_append (take_chars n s) t) at 2.
  by rewrite length_take_chars, Nat.min_l.
Qed.

(** *** [split] and [join] *)

Lemma concat_cons2 (sep x y : string) (l : list string) :
  String.concat sep (x :: y :: l) = (x ++ sep ++ String.concat sep (y :: l))%string.
Proof. reflexivity. Qed.

Lemma split_nonempty (sep : ascii) (s : string) : split sep s ≠ [].
Proof.
  induction s as [ | c s IH ]; simpl; [ done | ].
  destruct (Ascii.eqb c sep); [ done | ]. by destruct (split sep s).
Qed.

(** Joining what [split] gave restores the string. *)
Lemma join_split (sep : ascii) (s : string) :
  String.concat (String sep "") (split sep s) = s.
Proof.
  induction s as [ | c s IH ]; [ reflexivity | ]. simpl.
  pose proof (split_nonempty sep s) as Hne.
  destruct (Ascii.eqb_spec c sep) as [-> | Hc].
  - destruct (split sep s) as [ | w ws ]; [ done | ].
    rewrite concat_cons2, IH. reflexivity.
  - destruct (split sep s) as [ | w ws ]; [ done | ].
    destruct ws as [ | w' ws ].
    + simpl in *. by rewrite IH.
    + rewrite concat_cons2 in *. rewrite append_cons. by rewrite IH.
Qed.

Lemma split_no_sep (sep : ascii) (w : string) :
  has_char sep w = false → split sep w = [w].
Proof.
  induction w as [ | c w IH ]; [ reflexivity | ]. simpl.
  intros H. apply orb_false_iff in H as [Hc H]. rewrite Hc, IH by done. reflexivity.
Qed.

Lemma split_append_sep (sep : ascii) (w rest : string) :
  has_char sep w = false →
  split sep (w ++ String sep rest) = w :: split sep rest.
Proof.
  induction w as [ | c w IH ]; intros H.
  - change (EmptyString ++ String sep rest)%string with (String sep rest).
    simpl. by rewrite Ascii.eqb_refl.
  - simpl in H. apply orb_false_iff in H as [Hc H].
    rewrite append_cons. simpl. rewrite Hc, IH by done. reflexivity.
Qed.

(** Splitting a join of pieces that hold no separator gives the pieces. *)
Lemma split_join (sep : ascii) (l : list string) :
  l ≠ [] →
  Forall (λ w, has_char sep w = false) l →
  split sep (String.concat (String sep "") l) = l.
Proof.
  intros Hne Hall. induction Hall as [ | w l Hw Hl IH ]; [ done | ].
  destruct l as [ | w' l ].
  - simpl. by apply split_no_sep.
  - rewrite concat_cons2. rewrite append_cons.
    change (EmptyString ++ String.concat (String sep "") (w' :: l))%string
      with (String.concat (String sep "") (w' :: l)).
    rewrite split_append_sep by done. f_equal. by apply IH.
Qed.

Lemma length_split (sep : ascii) (l : list string) :
  l ≠ [] →
  Forall (λ w, has_char sep w = false) l →
  length (split sep (String.concat (String sep "") l)) = length l.
Proof. intros Hne Hall. by rewrite split_join. Qed.

(** *** [lstrip] *)

Lemma lstrip_repeat (c : ascii) (k : nat) (name : string) :
  startswith name (String c "") = false →
  lstrip c (repeat_char c k ++ name) = name.
Proof.
  intros Hname. induction k as [ | k IH ].
  - change (repeat_char c 0 ++ name)%string with name.
    destruct name as [ | a name ]; [ reflexivity | ]. simpl in *.
    rewrite andb_true_r in Hname. by rewrite Hname.
  - change (repeat_char c (S k)) with (String c (repeat_char c k)).
    rewrite append_cons. simpl. by rewrite Ascii.eqb_refl.
Qed.

Lemma length_repeat_char (c : ascii) (k : nat) : String.length (repeat_char c k) = k.
Proof. induction k as [ | k IH ]; simpl; [ reflexivity | by rewrite IH ]. Qed.

End PyStrFacts.

(** ** The helpers on lists, names and strings *)

Module UtilsSpec.
Import PyStr Utils KeyExprFacts PyStrFacts.

(** *** Prefixes of lists and strings *)

Lemma list_startswith_prefix_aux {A} `{EqDecision A} (l prefix : list A) :
  list_startswith l prefix = true ↔ prefix `prefix_of` l.
Proof.
  unfold list_startswith. rewrite bool_decide_eq_true. split.
  - intros H. exists (drop (length prefix) l).
    rewrite <- H at 1. by rewrite take_drop.
  - intros [rest ->]. by rewrite take_app_length.
Qed.

(** [list_startswith] decides the prefix relation, whatever the lengths: a
    prefix longer than the list is not one, and the empty list is a prefix
    of every list. *)
Theorem list_startswith_prefix {A} `{EqDecision A} (l prefix : list A) :
  (list_startswith l prefix = true ↔ prefix `prefix_of` l)
  ∧ ((length l < length prefix)%nat → list_startswith l prefix = false)
  ∧ list_startswith l [] = true.
Proof.
  split; [ apply list_startswith_prefix_aux | ]. split.
  - intros Hlen. destruct (list_startswith l prefix) eqn:E; [ | reflexivity ].
    apply list_startswith_prefix_aux in E as [rest ->].
    rewrite length_app in Hlen. lia.
  - apply list_startswith_prefix_aux. apply prefix_nil.
Qed.

(** [list_strip_prefix] takes a prefix off exactly when it is there: it
    undoes a concatenation, and it returns any other list as it is. *)
Theorem list_strip_prefix_spec {A} `{EqDecision A} (prefix l : list A) :
  (∀ rest, list_strip_prefix (prefix ++ rest) prefix = rest)
  ∧ (prefix `prefix_of` l → prefix ++ list_strip_prefix l prefix = l)
  ∧ (¬ prefix `prefix_of` l → list_strip_prefix l prefix = l).
Proof.
  unfold list_strip_prefix. split; [ | split ].
  - intros rest.
    rewrite (proj2 (list_startswith_prefix_aux _ _)) by (by exists rest).
    by rewrite drop_app_length.
  - intros Hpre. pose proof Hpre as [rest ->].
    rewrite (proj2 (list_startswith_prefix_aux _ _)) by exact Hpre.
    by rewrite drop_app_length.
  - intros Hnot. destruct (list_startswith l prefix) eqn:E; [ | reflexivity ].
    exfalso. apply Hnot. by apply list_startswith_prefix_aux.
Qed.

(** [strip_prefix] on strings: it undoes putting the prefix in front, and
    gives back as it is a string that does not start with the prefix. *)
Theorem strip_prefix_spec (prefix s : string) :
  (∀ rest, strip_prefix (prefix ++ rest) prefix = rest)
  ∧ (startswith s prefix = true → (prefix ++ strip_prefix s prefix)%string = s)
  ∧ (startswith s prefix = false → strip_prefix s prefix = s).
Proof.
  unfold strip_prefix. split; [ | split ].
  - intros rest. by rewrite startswith_append, drop_chars_append.
  - intros H. rewrite H. symmetry. by apply startswith_inv.
  - intros H. by rewrite H.
Qed.

(** *** Dotted names *)

Lemma split_snoc (sep : ascii) (s last : string) :
  has_char sep last = false →
  split sep (s ++ String sep last) = split sep s ++ [last].
Proof.
  intros Hlast. induction s as [ | c s IH ].
  - change (EmptyString ++ String sep last)%string with (String sep last).
    simpl. rewrite Ascii.eqb_refl. by rewrite split_no_sep.
  - rewrite append_cons. simpl. rewrite IH.
    destruct (Ascii.eqb c sep); [ reflexivity | ].
    pose proof (split_nonempty sep s) as Hne.
    by destruct (split sep s).
Qed.

(** For a package, [get_pyi_package_name] is the module name itself; for a
    module it is the name without its last component, which is the empty
    name when there is one component only; and it is the empty name when
    there is no module name. *)
Theorem get_pyi_package_name_spec (name package last : string) :
  has_char "." last = false →
  get_pyi_package_name (Some name) true = name
  ∧ get_pyi_package_name (Some (package ++ "." ++ last)%string) false = package
  ∧ get_pyi_package_name (Some last) false = EmptyString
  ∧ (∀ is_package, get_pyi_package_name None is_package = EmptyString).
Proof.
  intros Hlast. unfold get_pyi_package_name. simpl. split; [ | split; [ | split ] ].
  - apply (join_split "."%char).
  - change ("." ++ last)%string with (String "." last).
    rewrite split_snoc by done. rewrite removelast_last. apply (join_split "."%char).
  - by rewrite split_no_sep.
  - reflexivity.
Qed.

Lemma get_pyi_package_name_witness :
  has_char "." "vm" = false
  ∧ get_pyi_package_name (Some "pytype.vm") true = "pytype.vm"
  ∧ get_pyi_package_name (Some "pytype.pytd.vm") false = "pytype.pytd"
  ∧ get_pyi_package_name (Some "vm") false = "".
Proof.
  destruct (get_pyi_package_name_spec "pytype.vm" "pytype.pytd" "vm" eq_refl)
    as (H1 & H2 & H3 & _).
  split; [ reflexivity | ]. split; [ exact H1 | ]. split; [ exact H2 | exact H3 ].
Defined.

Lemma concat_with_dots (l : list string) :
  l ≠ [] →
  String.concat "" (map (λ p, p ++ ".")%string l) = (String.concat "." l ++ ".")%string.
Proof.
  intros Hne. induction l as [ | w l IH ]; [ done | ].
  destruct l as [ | w' l ].
  - simpl. reflexivity.
  - change (map (λ p, p ++ ".")%string (w :: w' :: l))
      with ((w ++ ".")%string :: map (λ p, p ++ ".")%string (w' :: l)).
    change (map (λ p, p ++ ".")%string (w' :: l))
      with ((w' ++ ".")%string :: map (λ p, p ++ ".")%string l) at 1.
    rewrite concat_cons2.
    change ((w' ++ ".")%string :: map (λ p, p ++ ".")%string l)
      with (map (λ p, p ++ ".")%string (w' :: l)).
    rewrite IH by done. rewrite concat_cons2.
    change (EmptyString ++ String.concat "." (w' :: l) ++ ".")%string
      with (String.concat "." (w' :: l) ++ ".")%string.
    by rewrite !append_assoc.
Qed.

Lemma leading_dots (k : nat) (name : string) :
  startswith name "." = false →
  lstrip "." (repeat_char "." k ++ name) = name
  ∧ (String.length (repeat_char "." k ++ name) - String.length name)%nat = k.
Proof.
  intros Hname. split; [ by apply lstrip_repeat | ].
  rewrite length_append, length_repeat_char. lia.
Qed.

(** [get_absolute_name] on a prefix of components [comps] and a relative
    name of [k] leading dots: the name is put under the prefix for no dot
    and for one dot alike, each further dot removes one more component from
    the end of the prefix, and with more dots than components the answer is
    [None].  The first component is never removed. *)
Theorem get_absolute_name_components (comps : list string) (k : nat) (name : string) :
  comps ≠ [] →
  Forall (λ w, has_char "." w = false) comps →
  String.concat "." comps ≠ EmptyString →
  startswith name "." = false →
  get_absolute_name (String.concat "." comps) (repeat_char "." k ++ name)
  = if (k <=? length comps)%nat
    then Some (String.concat "." (take (length comps + 1 - k) comps) ++ "." ++ name)%string
    else None.
Proof.
  intros Hne Hcomps Hprefix Hname. unfold get_absolute_name.
  destruct (leading_dots k name Hname) as [-> ->].
  destruct (String.concat "." comps) as [ | c rest ] eqn:E; [ done | ].
  rewrite <- E. rewrite (split_join "."%char comps Hne Hcomps).
  destruct (Nat.ltb_spec (length comps) k) as [Hlt | Hge].
  - rewrite (proj2 (Nat.leb_gt _ _)) by lia. reflexivity.
  - rewrite (proj2 (Nat.leb_le _ _)) by lia. f_equal.
    rewrite concat_with_dots.
    + by rewrite append_assoc.
    + destruct comps as [ | w comps ]; [ done | ].
      replace (length (w :: comps) + 1 - k)%nat with (S (length comps + 1 - k)).
      * done.
      * cbn [length] in *. lia.
Qed.

Lemma get_absolute_name_components_witness :
  ["foo"; "bar"; "baz"] ≠ []
  ∧ Forall (λ w, has_char "." w = false) ["foo"; "bar"; "baz"]
  ∧ get_absolute_name "foo.bar.baz" "..hello.world" = Some "foo.bar.hello.world"
  ∧ get_absolute_name "foo.bar.baz" "...x" = Some "foo.x"
  ∧ get_absolute_name "foo.bar.baz" "....x" = None.
Proof.
  assert (H1 : ["foo"; "bar"; "baz"] ≠ []) by discriminate.
  assert (H2 : Forall (λ w, has_char "." w = false) ["foo"; "bar"; "baz"])
    by (repeat constructor).
  assert (H3 : String.concat "." ["foo"; "bar"; "baz"] ≠ EmptyString) by discriminate.
  split; [ exact H1 | ]. split; [ exact H2 | ]. split; [ | split ].
  - exact (get_absolute_name_components _ 2 "hello.world" H1 H2 H3 eq_refl).
  - exact (get_absolute_name_components _ 3 "x" H1 H2 H3 eq_refl).
  - exact (get_absolute_name_components _ 4 "x" H1 H2 H3 eq_refl).
Defined.

(** Without reference to the components: under a prefix that is not empty,
    a relative name with no leading dot or with one is the prefix, a dot,
    and the name.  Under the empty prefix a name without leading dots is
    returned as it is, and every leading dot is one too many. *)
Theorem get_absolute_name_same_level (prefix name : string) (k : nat) :
  startswith name "." = false →
  (prefix ≠ EmptyString → (k ≤ 1)%nat →
   get_absolute_name prefix (repeat_char "." k ++ name)
   = Some (prefix ++ "." ++ name)%string)
  ∧ get_absolute_name "" (repeat_char "." k ++ name)
    = (if (k =? 0)%nat then Some name else None).
Proof.
  intros Hname. unfold get_absolute_name.
  destruct (leading_dots k name Hname) as [-> ->]. split.
  - intros Hprefix Hk. destruct prefix as [ | c rest ] eqn:E; [ done | ].
    rewrite <- E. pose proof (split_nonempty "."%char prefix) as Hne.
    pose proof (join_split "."%char prefix) as Hjoin.
    destruct (split "." prefix) as [ | w ws ] eqn:Es; [ done | ].
    rewrite (proj2 (Nat.ltb_ge _ _)) by (simpl; lia).
    rewrite firstn_all2 by (simpl; lia).
    rewrite concat_with_dots by done. rewrite Hjoin. by rewrite append_assoc.
  - destruct k as [ | k ]; reflexivity.
Qed.

Lemma get_absolute_name_same_level_witness :
  startswith "x.y" "." = false
  ∧ get_absolute_name "foo.bar" ".x.y" = Some "foo.bar.x.y"
  ∧ get_absolute_name "foo.bar" "x.y" = Some "foo.bar.x.y"
  ∧ get_absolute_name "" ".x.y" = None.
Proof.
  split; [ reflexivity | ].
  destruct (get_absolute_name_same_level "foo.bar" "x.y" 1 eq_refl) as [H1 H2].
  destruct (get_absolute_name_same_level "foo.bar" "x.y" 0 eq_refl) as [H0 _].
  split; [ apply H1; [ discriminate | lia ] | ].
  split; [ apply H0; [ discriminate | lia ] | exact H2 ].
Defined.

(** *** [maybe_truncate] *)

Lemma maybe_truncate_short (s : string) (len : Z) :
  Z.of_nat (String.length s) ≤ len - 3 → maybe_truncate s len = s.
Proof.
  intros H. unfold maybe_truncate.
  by rewrite (proj2 (Z.ltb_ge _ _)) by lia.
Qed.

Lemma maybe_truncate_long (s : string) (len : Z) :
  3 ≤ len →
  len - 3 < Z.of_nat (String.length s) →
  maybe_truncate s len = (take_chars (Z.to_nat (len - 3)) s ++ "...")%string.
Proof.
  intros Hlen H. unfold maybe_truncate, slice_to.
  rewrite (proj2 (Z.ltb_lt _ _)) by lia.
  rewrite (proj2 (Z.ltb_ge _ _)) by lia.
  by rewrite Z.min_l by lia.
Qed.

(** For a length of 3 or more the result fits in it: a string of at most
    [length - 3] characters is returned as it is, and any longer one, even
    one that would fit, is cut to its first [length - 3] characters followed
    by three dots, [length] characters in all. *)
Theorem maybe_truncate_fits (s : string) (len : Z) :
  3 ≤ len →
  Z.of_nat (String.length (maybe_truncate s len)) ≤ len
  ∧ (Z.of_nat (String.length s) ≤ len - 3 → maybe_truncate s len = s)
  ∧ (len - 3 < Z.of_nat (String.length s) →
     maybe_truncate s len = (take_chars (Z.to_nat (len - 3)) s ++ "...")%string
     ∧ Z.of_nat (String.length (maybe_truncate s len)) = len).
Proof.
  intros Hlen.
  assert (Hlong : len - 3 < Z.of_nat (String.length s) →
            maybe_truncate s len = (take_chars (Z.to_nat (len - 3)) s ++ "...")%string
            ∧ Z.of_nat (String.length (maybe_truncate s len)) = len).
  { intros H. rewrite maybe_truncate_long by done. split; [ reflexivity | ].
    rewrite length_append, length_take_chars. simpl. lia. }
  split; [ | split; [ apply maybe_truncate_short | exact Hlong ] ].
  destruct (Z.le_gt_cases (Z.of_nat (String.length s)) (len - 3)) as [Hs | Hl].
  - rewrite maybe_truncate_short by done. lia.
  - destruct (Hlong Hl) as [_ ->]. lia.
Qed.

Lemma maybe_truncate_fits_witness :
  3 ≤ 10
  ∧ maybe_truncate "short" 10 = "short"
  ∧ maybe_truncate "nine char" 10 = "nine ch..."
  ∧ maybe_truncate "a much longer string" 10 = "a much ...".
Proof.
  assert (H : 3 ≤ 10) by lia. split; [ exact H | ]. split; [ | split ].
  - apply (proj1 (proj2 (maybe_truncate_fits "short" 10 H))). simpl. lia.
  - destruct (proj2 (proj2 (maybe_truncate_fits "nine char" 10 H))) as [-> _];
      [ simpl; lia | reflexivity ].
  - destruct (proj2 (proj2 (maybe_truncate_fits "a much longer string" 10 H))) as [-> _];
      [ simpl; lia | reflexivity ].
Defined.

(** For a length of 3 or more, truncating what was truncated changes
    nothing. *)
Theorem maybe_truncate_idempotent (s : string) (len : Z) :
  3 ≤ len →
  maybe_truncate (maybe_truncate s len) len = maybe_truncate s len.
Proof.
  intros Hlen.
  destruct (Z.le_gt_cases (Z.of_nat (String.length s)) (len - 3)) as [Hs | Hl].
  - by rewrite !maybe_truncate_short by (rewrite ?maybe_truncate_short; done).
  - rewrite (maybe_truncate_long s) by (done || lia).
    set (n := Z.to_nat (len - 3)).
    assert (Hn : (n ≤ String.length s)%nat) by (unfold n; lia).
    rewrite maybe_truncate_long.
    + fold n. by rewrite take_chars_take_append.
    + done.
    + rewrite length_append, length_take_chars. simpl. unfold n in *. lia.
Qed.

Lemma maybe_truncate_idempotent_witness :
  3 ≤ 10
  ∧ maybe_truncate (maybe_truncate "a much longer string" 10) 10
    = maybe_truncate "a much longer string" 10.
Proof.
  assert (H : 3 ≤ 10) by lia. split; [ exact H | ].
  exact (maybe_truncate_idempotent "a much longer string" 10 H).
Defined.

(** For a length below 3 the comparison holds for every string, the empty
    one too: the result is [s[0:length-3] + "..."], the slice having a
    negative bound, and it is longer than [length]. *)
Theorem maybe_truncate_small_length (s : string) (len : Z) :
  len < 3 →
  maybe_truncate s len = (slice_to s (len - 3) ++ "...")%string
  ∧ len < Z.of_nat (String.length (maybe_truncate s len)).
Proof.
  intros Hlen. unfold maybe_truncate.
  rewrite (proj2 (Z.ltb_lt _ _)) by lia. split; [ reflexivity | ].
  rewrite length_append. simpl. lia.
Qed.

Lemma maybe_truncate_small_length_witness :
  2 < 3
  ∧ maybe_truncate "" 2 = "..."
  ∧ maybe_truncate "abcdef" 2 = "abcde...".
Proof.
  assert (H : 2 < 3) by lia. split; [ exact H | ]. split.
  - by rewrite (proj1 (maybe_truncate_small_length "" 2 H)).
  - by rewrite (proj1 (maybe_truncate_small_length "abcdef" 2 H)).
Defined.

(** *** [invert_dict] *)

(** [n[y]] on the [defaultdict] that [invert_dict] returns. *)
Definition values_of (y : string) (n : odict string (list string)) : list string :=
  default [] (odict_get y n).

(** How many times [y] occurs in a list. *)
Fixpoint occurrences (y : string) (vs : list string) : nat :=
  match vs with
  | [] => O
  | v :: rest => if String.eqb v y then S (occurrences y rest) else occurrences y rest
  end.

Lemma occurrences_pos (y : string) (vs : list string) :
  (0 < occurrences y vs)%nat ↔ y ∈ vs.
Proof.
  induction vs as [ | v vs IH ]; simpl.
  - split; [ lia | by rewrite elem_of_nil ].
  - rewrite elem_of_cons. destruct (String.eqb_spec v y) as [-> | Hne].
    + split; [ by left | lia ].
    + rewrite IH. split; [ by right | intros [-> | H]; done ].
Qed.

Lemma values_of_append (k x y : string) (d : odict string (list string)) :
  values_of y (defaultdict_append k x d)
  = if String.eqb k y then values_of y d ++ [x] else values_of y d.
Proof.
  unfold values_of. induction d as [ | [k' xs] d IH ]; simpl.
  - by destruct (String.eqb k y).
  - destruct (String.eqb_spec k' k) as [-> | Hk]; simpl.
    + by destruct (String.eqb_spec k y).
    + destruct (String.eqb_spec k' y) as [-> | Hy]; simpl.
      * destruct (String.eqb_spec k y) as [-> | _]; done.
      * exact IH.
Qed.

Lemma keys_append (k x : string) (d : odict string (list string)) :
  (defaultdict_append k x d).*1 = if bool_decide (k ∈ d.*1) then d.*1 else d.*1 ++ [k].
Proof.
  induction d as [ | [k' xs] d IH ]; [ reflexivity | ].
  cbn [defaultdict_append]. destruct (String.eqb_spec k' k) as [-> | Hk].
  - rewrite !fmap_cons. cbn [fst].
    rewrite bool_decide_eq_true_2; [ reflexivity | by left ].
  - rewrite !fmap_cons. cbn [fst]. rewrite IH.
    destruct (bool_decide_reflect (k ∈ d.*1)) as [Hin | Hout].
    + rewrite bool_decide_eq_true_2; [ reflexivity | by right ].
    + rewrite bool_decide_eq_false_2; [ reflexivity | ].
      rewrite elem_of_cons. intros [-> | ?]; done.
Qed.

Lemma values_of_inner (vals : list string) (key y : string)
    (n : odict string (list string)) :
  values_of y (fold_left (λ inverted val, defaultdict_append val key inverted) vals n)
  = values_of y n ++ replicate (occurrences y vals) key.
Proof.
  revert n. induction vals as [ | v vals IH ]; intros n; simpl.
  - by rewrite app_nil_r.
  - rewrite IH, values_of_append. destruct (String.eqb v y); simpl.
    + by rewrite <- app_assoc.
    + reflexivity.
Qed.

Lemma keys_inner_NoDup (vals : list string) (key : string)
    (n : odict string (list string)) :
  NoDup n.*1 →
  NoDup (fold_left (λ inverted val, defaultdict_append val key inverted) vals n).*1.
Proof.
  revert n. induction vals as [ | v vals IH ]; intros n Hn; simpl; [ exact Hn | ].
  apply IH. rewrite keys_append.
  destruct (bool_decide_reflect (v ∈ n.*1)) as [Hin | Hout]; [ exact Hn | ].
  apply NoDup_app. split; [ exact Hn | ]. split.
  - intros x Hx Hx'. apply list_elem_of_singleton in Hx' as ->. done.
  - apply NoDup_singleton.
Qed.

(** What [invert_dict] returns holds, under each [y], the keys [x] of [d]
    whose list holds [y], in the order of [d] and once for each occurrence
    of [y]: so [x] is in [n[y]] exactly when [y] is in [d[x]].  No key of
    the result is listed twice. *)
Theorem invert_dict_spec (d : odict string (list string)) (y : string) :
  values_of y (invert_dict d)
  = flat_map (λ item, replicate (occurrences y item.2) item.1) d
  ∧ (∀ x, x ∈ values_of y (invert_dict d) ↔ ∃ vs, (x, vs) ∈ d ∧ y ∈ vs)
  ∧ NoDup (invert_dict d).*1.
Proof.
  assert (Hgen : ∀ n,
            values_of y
              (fold_left
                 (λ inverted item,
                    fold_left (λ inverted val, defaultdict_append val item.1 inverted)
                      item.2 inverted) d n)
            = values_of y n ++ flat_map (λ item, replicate (occurrences y item.2) item.1) d).
  { induction d as [ | [k vs] d IH ]; intros n; simpl.
    - by rewrite app_nil_r.
    - rewrite IH, values_of_inner. by rewrite <- app_assoc. }
  assert (Hvalues : values_of y (invert_dict d)
                    = flat_map (λ item, replicate (occurrences y item.2) item.1) d).
  { unfold invert_dict. by rewrite Hgen. }
  split; [ exact Hvalues | ]. split.
  - intros x. rewrite Hvalues. rewrite list_elem_of_In, in_flat_map. split.
    + intros ([k vs] & Hin & Hx). simpl in Hx.
      apply list_elem_of_In, elem_of_replicate in Hx as [-> Hocc].
      exists vs. split; [ by apply list_elem_of_In | ].
      apply occurrences_pos. lia.
    + intros (vs & Hin & Hy). exists (x, vs). split; [ by apply list_elem_of_In | ].
      simpl. apply list_elem_of_In, elem_of_replicate. split; [ reflexivity | ].
      apply occurrences_pos in Hy. lia.
  - unfold invert_dict.
    assert (Hkeys : ∀ n : odict string (list string), NoDup n.*1 →
              NoDup (fold_left
                       (λ inverted item,
                          fold_left (λ inverted val, defaultdict_append val item.1 inverted)
                            item.2 inverted) d n).*1).
    { clear. induction d as [ | [k vs] d IH ]; intros n Hn; simpl; [ exact Hn | ].
      apply IH. by apply keys_inner_NoDup. }
    apply Hkeys. constructor.
Qed.

End UtilsSpec.

(** ** Versions *)

Module VersionsSpec.
Import PyStr Utils KeyExpr KeyExprFacts PyStrFacts.

(** *** The text of an integer *)

Lemma uint_chars (d : Decimal.uint) :
  forallb is_int_char (list_ascii_of_string (NilEmpty.string_of_uint d)) = true.
Proof. induction d; simpl; [ reflexivity | exact IHd .. ]. Qed.

Lemma str_chars (n : Z) : forallb is_int_char (list_ascii_of_string (str n)) = true.
Proof.
  unfold str. destruct n as [ | p | p ]; [ reflexivity | | ]; simpl.
  - unfold NilZero.string_of_uint.
    destruct (Pos.to_uint p); try reflexivity; apply (uint_chars (_ _)).
  - unfold NilZero.string_of_uint.
    destruct (Pos.to_uint p); try reflexivity; apply (uint_chars (_ _)).
Qed.

Lemma int_chars_no_dot (s : string) :
  forallb is_int_char (list_ascii_of_string s) = true → has_char "." s = false.
Proof.
  induction s as [ | c s IH ]; [ reflexivity | ]. simpl.
  intros H. apply andb_true_iff in H as [Hc H]. rewrite IH by done.
  rewrite orb_false_r. destruct (Ascii.eqb_spec c ".") as [-> | ]; [ discriminate | done ].
Qed.

(** Reading the text of an integer gives the integer. *)
Lemma py_int_str (n : Z) : py_int (str n) = Some (Ok n).
Proof.
  unfold py_int. rewrite str_chars. unfold str.
  rewrite NilZero.isi.
  - by rewrite DecimalZ.of_to.
  - destruct n as [ | p | p ]; simpl; try discriminate.
    intros [= H]. by apply (Unsigned.to_uint_nonnil p).
  - destruct n as [ | p | p ]; simpl; try discriminate.
    intros [= H]. by apply (Unsigned.to_uint_nonnil p).
Qed.

Lemma map_int_str (v : list Z) : map_int (map str v) = Some (Ok v).
Proof.
  induction v as [ | n v IH ]; [ reflexivity | ]. simpl.
  by rewrite py_int_str, IH.
Qed.

(** [parse_version] reads back what [format_version] wrote, for every
    version of at least one number, negative numbers included.  The empty
    version is the exception: its text is the empty string, and parsing
    that raises [ValueError]. *)
Theorem parse_format_version (v : list Z) :
  (v ≠ [] → parse_version (format_version v) = Some (Ok v))
  ∧ parse_version (format_version []) = Some (Err ValueError).
Proof.
  split; [ | reflexivity ].
  intros Hne. unfold parse_version, format_version.
  rewrite (split_join "."%char).
  - apply map_int_str.
  - by destruct v.
  - apply Forall_forall. intros w Hw. apply list_elem_of_fmap in Hw as (n & -> & _).
    apply int_chars_no_dot, str_chars.
Qed.

Lemma parse_format_version_witness :
  [2; 7] ≠ []
  ∧ format_version [2; 7] = "2.7"
  ∧ parse_version "2.7" = Some (Ok [2; 7]).
Proof.
  assert (H : [2; 7] ≠ []) by discriminate.
  split; [ exact H | ]. split; [ reflexivity | ].
  exact (proj1 (parse_format_version [2; 7]) H).
Defined.

(** *** Which versions pass *)

(** Case analysis on every comparison of integers in the goal. *)
Ltac compare_integers :=
  repeat match goal with
         | |- context [ (?a =? ?b) ] => destruct (Z.eqb_spec a b); cbn [andb]
         | |- context [ (?a <? ?b) ] => destruct (Z.ltb_spec a b); cbn [andb]
         end.

Lemma validate_version_pair (major minor : Z) :
  validate_version [major; minor] = Ok tt
  ↔ major < 3 ∨ (major = 3 ∧ (minor < 0 ∨ 4 ≤ minor ≤ 6)).
Proof.
  unfold validate_version. cbn [length Nat.eqb negb tuple_le tuple_lt].
  compare_integers;
    (split; [ intros Hok; try discriminate Hok; lia
            | intros Hok; try reflexivity; exfalso; lia ]).
Qed.

(** [validate_version] lets through the pairs below 3.0 and those from 3.4
    to 3.6, and nothing else; being below 3.0 includes any major number
    under 3, and a negative minor number after a major 3 passes as well.
    Everything it refuses, it refuses with [UsageError]. *)
Theorem validate_version_accepts (v : list Z) :
  (validate_version v = Ok tt
   ↔ ∃ major minor, v = [major; minor]
                    ∧ (major < 3 ∨ (major = 3 ∧ (minor < 0 ∨ 4 ≤ minor ≤ 6))))
  ∧ (validate_version v = Ok tt ∨ ∃ message, validate_version v = Err (UsageError message)).
Proof.
  split.
  - split.
    + intros H. destruct v as [ | major [ | minor [ | x v ] ] ]; try discriminate.
      exists major, minor. split; [ reflexivity | ]. by apply validate_version_pair.
    + intros (major & minor & -> & H). by apply validate_version_pair.
  - unfold validate_version.
    destruct (negb (length v =? 2)%nat); [ right; eauto | ].
    destruct (tuple_le [3; 0] v && tuple_le v [3; 3]); [ right; eauto | ].
    destruct (tuple_lt [3; 6] v); [ right; eauto | by left ].
Qed.

(** [get_python_exe] needs a pair, and for a pair it is ["python"] followed
    by the text [format_version] gives; so it is for every version that
    [validate_version] lets through. *)
Theorem get_python_exe_format (v : list Z) :
  (length v = 2%nat → get_python_exe v = Ok ("python" ++ format_version v)%string)
  ∧ (length v ≠ 2%nat → get_python_exe v = Err TypeError)
  ∧ (validate_version v = Ok tt →
     get_python_exe v = Ok ("python" ++ format_version v)%string).
Proof.
  assert (Hpair : length v = 2%nat →
            get_python_exe v = Ok ("python" ++ format_version v)%string).
  { intros H. destruct v as [ | major [ | minor [ | x v ] ] ]; try discriminate.
    reflexivity. }
  split; [ exact Hpair | ]. split.
  - intros H. destruct v as [ | major [ | minor [ | x v ] ] ]; try reflexivity. done.
  - intros H. apply Hpair.
    destruct v as [ | major [ | minor [ | x v ] ] ]; try discriminate. reflexivity.
Qed.

End VersionsSpec.

(** ** memoize: edges of the wrapper *)

Module MemoizeEdges.
Import Memoize KeyExprFacts MemoizeSpec.

Lemma dict_truthy_empty {K V} `{Countable K} `{EqDecision V} :
  dict_truthy (∅ : gmap K V) = false.
Proof. unfold dict_truthy. by rewrite bool_decide_eq_true_2. Qed.

Section Edges.
Context {World : Type}.
Variable builtins : string → bool.

Abbreviation Function := (Function World).
Abbreviation Closure := (Closure World).
Abbreviation Outcome := (Outcome World).

(** *** Too few positional arguments *)

Lemma fill_outcome_short (names : list string) (start cnt : nat) (posargs : list Value) :
  (length names ≤ cnt)%nat →
  (start ≤ length posargs < start + length names)%nat →
  fill_outcome (zip (seq start cnt) names) posargs = Raise IndexError.
Proof.
  revert start cnt. induction names as [ | n names IH ]; intros start cnt Hcnt Hlen.
  - simpl in Hlen. lia.
  - destruct cnt as [ | cnt ]; [ simpl in Hcnt; lia | ]. simpl in Hcnt, Hlen.
    cbn [seq zip_with fill_outcome].
    destruct (posargs !! start) as [v | ] eqn:E; [ | reflexivity ].
    apply lookup_lt_Some in E. apply IH; lia.
Qed.

Lemma no_defaults (self : memoize) (f : Function) (c : Closure) :
  memoize_call self f = Some (Return c) →
  func_defaults f = None ∨ func_defaults f = Some [] →
  defaults c = ∅.
Proof.
  intros Hwrap Hnone. destruct (memoize_call_inv self f c Hwrap) as (_ & _ & _ & _ & ->).
  by destruct Hnone as [-> | ->].
Qed.

(** A function without default values, called through its wrapper with
    positional arguments only and fewer of them than it has parameters:
    the call raises [IndexError], from the wrapper's own loop; the wrapped
    function, which would have reported the missing argument, is not
    run, and the cache and the world stay as they were. *)
Theorem too_few_arguments (self : memoize) (f : Function) (c : Closure)
    (posargs : list Value) (st : Cells) (w : World) (depth : nat) :
  memoize_call self f = Some (Return c) →
  func_defaults f = None ∨ func_defaults f = Some [] →
  (length posargs < length (_arg_names f))%nat →
  ∃ o, call builtins (S depth) c posargs ∅ st w = Some o
       ∧ result o = Raise IndexError
       ∧ invoked o = []
       ∧ memoized (cells o) = memoized st
       ∧ world o = w.
Proof.
  intros Hwrap Hnone Hlen.
  pose proof (no_defaults self f c Hwrap Hnone) as Hdef.
  destruct (memoize_call_inv self f c Hwrap) as (_ & _ & Hpairs & _ & _).
  assert (E : (derive_key builtins c posargs ∅ (shared_dict st)).1 = Raise IndexError).
  { unfold derive_key. rewrite Hdef.
    rewrite !(dict_truthy_empty (K := string) (V := Value)). simpl.
    rewrite fill_shared_eq, Hpairs, fill_outcome_short; [ done | | simpl; lia ].
    unfold _arg_names. rewrite length_take. lia. }
  rewrite (call_key_raises builtins _ _ _ _ _ _ _ E). by eexists.
Qed.

(** *** An argument that cannot be hashed *)

Lemma positional_mapping (c : Closure) (names : list string) (posargs : list Value) :
  argnames c = names →
  NoDup names →
  length posargs = length names →
  Forall2 (λ n v, slow_args c posargs ∅ !! n = Some v) names posargs.
Proof.
  intros Hnames Hnodup Hlen.
  apply Forall2_same_length_lookup. split; [ by rewrite Hlen | ].
  intros i n v Hn Hv. unfold slow_args, dict_update.
  rewrite (left_id_L ∅ (∪)). apply lookup_union_Some_l. rewrite Hnames.
  by apply (dict_of_pairs_zip_lookup _ _ i).
Qed.

Lemma default_closure (f : Function) (c : Closure) :
  Forall (λ n, KeyExpr.is_name n = true) (_arg_names f) →
  memoize_new (inl f) = Some (Return (inl c)) →
  memoize_call {| key := default_key f |} f = Some (Return c)
  ∧ key_program c = default_program (_arg_names f).
Proof.
  intros Hnames Hnew. unfold memoize_new in Hnew.
  destruct (memoize_call {| key := default_key f |} f) as [[c' | e] | ] eqn:Hwrap;
    try discriminate.
  injection Hnew as ->. split; [ reflexivity | ].
  destruct (memoize_call_inv _ _ _ Hwrap) as (Hprog & _).
  cbn [key] in Hprog. unfold default_key in Hprog.
  rewrite (compile_default_key _ Hnames) in Hprog. by injection Hprog as <-.
Qed.

(** A bare function wrapped by [memoize] cannot be given an argument that
    is a list, or a tuple holding one: a call that passes every parameter
    by position with such an argument among them raises [TypeError] from
    the lookup in the cache, without the wrapped function being run. *)
Theorem unhashable_argument (f : Function) (c : Closure)
    (posargs : list Value) (st : Cells) (w : World) (depth : nat) :
  Forall (λ n, KeyExpr.is_name n = true) (_arg_names f) →
  NoDup (_arg_names f) →
  memoize_new (inl f) = Some (Return (inl c)) →
  length posargs = length (_arg_names f) →
  Exists (λ v, hashable v = false) posargs →
  ∃ o, call builtins (S depth) c posargs ∅ st w = Some o
       ∧ result o = Raise TypeError
       ∧ invoked o = []
       ∧ memoized (cells o) = memoized st
       ∧ world o = w.
Proof.
  intros Hnames Hnodup Hnew Hlen Hbad.
  destruct (default_closure f c Hnames Hnew) as [Hwrap Hprog].
  destruct (memoize_call_inv _ _ _ Hwrap) as (_ & Hargnames & Hpairs & _ & _).
  pose proof (positional_mapping c _ posargs Hargnames Hnodup Hlen) as Hvs.
  pose proof (derive_key_default builtins c (_arg_names f) (co_argcount f) posargs ∅
                (shared_dict st) posargs Hprog Hargnames Hpairs) as Hkey.
  assert (Hk : (derive_key builtins c posargs ∅ (shared_dict st)).1
               = Return match posargs with [v] => v | _ => VTuple posargs end).
  { apply Hkey; [ unfold _arg_names; rewrite length_take; lia | done | done ]. }
  assert (Hh : hashable match posargs with [v] => v | _ => VTuple posargs end = false).
  { assert (Hall : forallb hashable posargs = false).
    { clear -Hbad. induction Hbad as [ v vs Hv | v vs _ IH ]; simpl.
      - by rewrite Hv.
      - rewrite IH. apply andb_false_r. }
    destruct posargs as [ | v [ | v' vs ] ]; [ done | | exact Hall ].
    simpl in Hall. by rewrite andb_true_r in Hall. }
  rewrite (call_unhashable builtins _ _ _ _ _ _ _ Hk Hh). by eexists.
Qed.

(** *** The scratch dictionary *)

(** Two states of the wrapper with the same cache, and scratch dictionaries
    that differ at parameter names only. *)
Definition similar (c : Closure) (st1 st2 : Cells) : Prop :=
  memoized st1 = memoized st2
  ∧ agree_outside c (shared_dict st1) (shared_dict st2).

(** Two calls that end the same way, or that both go deeper than allowed:
    same result, same runs of the wrapped function, same world and, but for
    the scratch dictionary at parameter names, same state of the wrapper. *)
Definition same_outcome (c : Closure) (a b : option Outcome) : Prop :=
  match a, b with
  | Some o, Some o' =>
      result o = result o' ∧ invoked o = invoked o' ∧ world o = world o'
      ∧ similar c (cells o) (cells o')
  | None, None => True
  | _, _ => False
  end.

Lemma run_same (c : Closure)
    (self : list Value → gmap string Value → Cells → World → option Outcome)
    (b : Body World) (st1 st2 : Cells) :
  (∀ posargs kwargs st1 st2 w,
     similar c st1 st2 →
     same_outcome c (self posargs kwargs st1 w) (self posargs kwargs st2 w)) →
  similar c st1 st2 →
  same_outcome c (run self b st1) (run self b st2).
Proof.
  intros Hself. revert st1 st2.
  induction b as [ r w | posargs kwargs w resume IH ]; intros st1 st2 Hsim; simpl.
  - done.
  - pose proof (Hself posargs kwargs st1 st2 w Hsim) as Hcall.
    destruct (self posargs kwargs st1 w) as [o1 | ],
             (self posargs kwargs st2 w) as [o2 | ]; simpl in Hcall; try done.
    destruct Hcall as (Hr & Hi & Hw & Hc). rewrite Hr, Hw, Hi.
    pose proof (IH (result o2) (world o2) (cells o1) (cells o2) Hc) as Hrest.
    destruct (run self (resume (result o2) (world o2)) (cells o1)) as [o1' | ],
             (run self (resume (result o2) (world o2)) (cells o2)) as [o2' | ];
      simpl in Hrest |- *; try done.
    destruct Hrest as (Hr' & Hi' & Hw' & Hc'). by rewrite Hi'.
Qed.

(** What is left in the scratch dictionary under parameter names has no
    effect on a call, nor on the calls inside it. *)
Lemma call_same (c : Closure) (depth : nat) posargs kwargs (st1 st2 : Cells) (w : World) :
  similar c st1 st2 →
  same_outcome c (call builtins depth c posargs kwargs st1 w)
                 (call builtins depth c posargs kwargs st2 w).
Proof.
  revert posargs kwargs st1 st2 w.
  induction depth as [ | depth IH ]; intros posargs kwargs st1 st2 w [Hm Hs]; [ done | ].
  pose proof (derive_key_agree builtins c posargs kwargs _ _ Hs) as Hkey.
  assert (Hs' : agree_outside c
            (derive_key builtins c posargs kwargs (shared_dict st1)).2
            (derive_key builtins c posargs kwargs (shared_dict st2)).2).
  { intros n Hn. rewrite !(derive_key_writes_names builtins c _ _ _ n Hn). by apply Hs. }
  destruct (call_cases builtins c posargs kwargs st1)
    as [ e E | k E Hh | k r E Hh Hm1 | k E Hh Hm1 ];
    pose proof E as E2; rewrite Hkey in E2.
  - rewrite (call_key_raises builtins _ _ _ _ _ _ _ E),
      (call_key_raises builtins _ _ _ _ _ _ _ E2). by repeat split.
  - rewrite (call_unhashable builtins _ _ _ _ _ _ _ E Hh),
      (call_unhashable builtins _ _ _ _ _ _ _ E2 Hh). by repeat split.
  - pose proof Hm1 as Hm2. rewrite Hm in Hm2.
    rewrite (call_hit builtins _ _ _ _ _ _ _ _ E Hh Hm1),
      (call_hit builtins _ _ _ _ _ _ _ _ E2 Hh Hm2). by repeat split.
  - pose proof Hm1 as Hm2. rewrite Hm in Hm2.
    rewrite (call_miss builtins _ _ _ _ _ _ _ E Hh Hm1),
      (call_miss builtins _ _ _ _ _ _ _ E2 Hh Hm2). unfold body_run.
    pose proof (run_same c (call builtins depth c)
                  (func_call (wrapped c) posargs kwargs w)
                  {| memoized := memoized st1;
                     shared_dict := (derive_key builtins c posargs kwargs (shared_dict st1)).2 |}
                  {| memoized := memoized st2;
                     shared_dict := (derive_key builtins c posargs kwargs (shared_dict st2)).2 |}
                  IH (conj Hm Hs')) as Hrun.
    destruct (run _ _ _) as [b1 | ], (run _ _ _) as [b2 | ]; simpl in Hrun |- *;
      try done.
    destruct Hrun as (Hr & Hi & Hw & Hmb & Hsb). rewrite Hr, Hi.
    repeat split; try done.
    + destruct (result b2); simpl; [ by rewrite Hmb | exact Hmb ].
    + by destruct (result b2).
Qed.

(** The wrapper keeps one dictionary for the arguments of all its calls
    and never clears it.  Nothing of an earlier call shows through: after
    any series of calls, a call derives the key it would derive with an
    empty dictionary, and it ends as it would end with one: same result,
    same runs of the wrapped function, same world and same cache. *)
Theorem scratch_dictionary_is_sound (c : Closure)
    (history : list (list Value * gmap string Value)) (depth0 : nat) (w0 : World)
    (st : Cells) (w : World) (posargs : list Value) (kwargs : gmap string Value) :
  calls builtins depth0 c history fresh_cells w0 = Some (st, w) →
  (derive_key builtins c posargs kwargs (shared_dict st)).1
  = (derive_key builtins c posargs kwargs ∅).1
  ∧ ∀ depth,
      same_outcome c
        (call builtins depth c posargs kwargs st w)
        (call builtins depth c posargs kwargs
           {| memoized := memoized st; shared_dict := ∅ |} w).
Proof.
  intros Hhist.
  pose proof (calls_write_names builtins c _ _ _ _ _ _ Hhist) as Hsh.
  split; [ by apply derive_key_agree | ].
  intros depth. by apply call_same.
Qed.

(** *** The cache only grows *)


(** *** A key narrower than the arguments *)

Lemma derive_key_name (c : Closure) (names : list string) (cnt i : nat) (n : string)
    (posargs : list Value) (v : Value) (shared : gmap string Value) :
  key_program c = KeyExpr.EName n →
  argnames c = names →
  pos_and_arg_tuples c = zip (seq 0 cnt) names →
  (length names ≤ cnt)%nat →
  NoDup names →
  names !! i = Some n →
  length posargs = length names →
  posargs !! i = Some v →
  (derive_key builtins c posargs ∅ shared).1 = Return v.
Proof.
  intros Hprog Hnames Hpairs Hcnt Hnodup Hn Hlen Hv. unfold derive_key.
  destruct (dict_truthy ∅ || dict_truthy (defaults c)).
  - simpl. rewrite Hprog. simpl.
    pose proof (positional_mapping c names posargs Hnames Hnodup Hlen) as Hall.
    destruct (Forall2_lookup_l _ _ _ _ _ Hall Hn) as (v' & Hv' & ->).
    congruence.
  - rewrite fill_shared_eq, Hpairs.
    destruct (filled_zip_seq names 0 cnt posargs Hcnt) as [-> ->]; [ simpl; lia | ].
    rewrite drop_0, fold_insert_union. simpl. rewrite Hprog. simpl.
    by rewrite (lookup_union_Some_l _ _ _ _ (dict_of_pairs_zip_lookup _ _ i _ _ Hnodup Hn Hv)).
Qed.

(** With the name of one parameter for key, as in [@memoize("x")], two
    calls that agree on that parameter share their entry whatever their
    other arguments are: the second one returns what the first returned
    and does not run the wrapped function. *)
Theorem narrow_key_shares_entries (f : Function) (c : Closure) (n : string) (i : nat)
    (v : Value) (posargs posargs' : list Value) (st : Cells) (w : World) (r : Value)
    (depth : nat) (o1 : Outcome) :
  KeyExpr.is_name n = true →
  memoize_call {| key := n |} f = Some (Return c) →
  NoDup (_arg_names f) →
  _arg_names f !! i = Some n →
  length posargs = length (_arg_names f) →
  length posargs' = length (_arg_names f) →
  posargs !! i = Some v →
  posargs' !! i = Some v →
  call builtins depth c posargs ∅ st w = Some o1 →
  result o1 = Return r →
  ∀ depth2, ∃ o2,
    call builtins (S depth2) c posargs' ∅ (cells o1) (world o1) = Some o2
    ∧ result o2 = Return r ∧ invoked o2 = [] ∧ world o2 = world o1.
Proof.
  intros Hname Hwrap Hnodup Hn Hlen Hlen' Hv Hv' Ho1 Hr depth2.
  destruct (memoize_call_inv _ _ _ Hwrap) as (Hprog & Hargnames & Hpairs & _ & _).
  cbn [key] in Hprog. rewrite (compile_name n Hname) in Hprog. injection Hprog as Hprog.
  assert (Hcnt : (length (_arg_names f) ≤ co_argcount f)%nat).
  { unfold _arg_names. rewrite length_take. lia. }
  assert (Hkey : ∀ args shared, length args = length (_arg_names f) → args !! i = Some v →
            (derive_key builtins c args ∅ shared).1 = Return v).
  { intros args shared Ha Hi.
    by apply (derive_key_name c (_arg_names f) (co_argcount f) i n). }
  destruct (call_return_inv builtins c _ _ _ _ _ _ _ Ho1 Hr) as (k & Ek & Hh & Hin & _).
  rewrite (Hkey posargs _ Hlen Hv) in Ek. injection Ek as <-.
  destruct (call_cached builtins c depth2 posargs' ∅ (cells o1) (world o1) v r
              (Hkey posargs' _ Hlen' Hv') Hh Hin) as (o2 & ? & ? & ? & ? & _).
  by exists o2.
Qed.

(** *** A parameter left without a value *)

Lemma eval_items_unbound (env : gmap string Value) (pre post : list string)
    (n : string) (vs : list Value) :
  Forall2 (λ n v, env !! n = Some v) pre vs →
  env !! n = None →
  builtins n = false →
  KeyExpr.eval_items (KeyExpr.eval builtins env) (map KeyExpr.EName (pre ++ n :: post))
  = Raise (NameError n).
Proof.
  intros Hpre Hn Hb. induction Hpre as [ | p v pre vs Hp _ IH ]; simpl.
  - by rewrite Hn, Hb.
  - by rewrite Hp, IH.
Qed.

Lemma eval_default_program_unbound (env : gmap string Value) (pre post : list string)
    (n : string) (vs : list Value) :
  Forall2 (λ n v, env !! n = Some v) pre vs →
  env !! n = None →
  builtins n = false →
  KeyExpr.eval builtins env (default_program (pre ++ n :: post)) = Raise (NameError n).
Proof.
  intros Hpre Hn Hb.
  pose proof (eval_items_unbound env pre post n vs Hpre Hn Hb) as Hitems.
  destruct pre as [ | p pre ].
  - destruct post as [ | q post ].
    + simpl. by rewrite Hn, Hb.
    + unfold default_program. cbn [app KeyExpr.eval]. cbn [app] in Hitems.
      by rewrite Hitems.
  - assert (Hshape : default_program ((p :: pre) ++ n :: post)
                     = KeyExpr.ETuple (map KeyExpr.EName ((p :: pre) ++ n :: post))).
    { by destruct pre. }
    rewrite Hshape. cbn [KeyExpr.eval]. by rewrite Hitems.
Qed.

(** A bare function with default values, called through its wrapper with
    too few positional arguments for its parameters without default: the
    call raises [NameError] for the first parameter left without a value,
    from the evaluation of the key, unless that name is also a builtin.
    The wrapped function is not run. *)
Theorem missing_required_argument (f : Function) (c : Closure) (ds posargs : list Value)
    (n : string) (st : Cells) (w : World) (depth : nat) :
  Forall (λ n, KeyExpr.is_name n = true) (_arg_names f) →
  NoDup (_arg_names f) →
  memoize_new (inl f) = Some (Return (inl c)) →
  func_defaults f = Some ds →
  ds ≠ [] →
  (length ds ≤ length (_arg_names f))%nat →
  (length posargs < length (_arg_names f) - length ds)%nat →
  _arg_names f !! length posargs = Some n →
  builtins n = false →
  ∃ o, call builtins (S depth) c posargs ∅ st w = Some o
       ∧ result o = Raise (NameError n)
       ∧ invoked o = []
       ∧ memoized (cells o) = memoized st
       ∧ world o = w.
Proof.
  intros Hnames Hnodup Hnew Hds Hne Hk Hm Hn Hb.
  destruct (default_closure f c Hnames Hnew) as [Hwrap Hprog].
  destruct (memoize_call_inv _ _ _ Hwrap) as (_ & Hargnames & _ & _ & Hdef).
  rewrite Hds in Hdef. destruct ds as [ | d ds ]; [ done | ].
  set (names := _arg_names f) in *. set (m := length posargs) in *.
  assert (Htruthy : dict_truthy (defaults c) = true).
  { unfold dict_truthy. rewrite Hdef.
    destruct (zip (drop (length names - length (d :: ds)) names) (d :: ds))
      as [ | p l ] eqn:Ez.
    - exfalso. apply (f_equal length) in Ez. rewrite length_zip, length_drop in Ez.
      simpl in *. lia.
    - rewrite bool_decide_eq_false_2; [ reflexivity | apply dict_of_pairs_nonempty ]. }
  assert (HP : dict_of_pairs (zip names posargs) !! n = None).
  { apply dict_of_pairs_lookup_None. intros Hin.
    apply zip_names_keys in Hin as (i & Hi & Hlt).
    pose proof (NoDup_lookup _ _ _ _ Hnodup Hn Hi). unfold m in *. lia. }
  assert (HD : defaults c !! n = None).
  { rewrite Hdef. apply dict_of_pairs_lookup_None. intros Hin.
    apply list_elem_of_fmap in Hin as ([a b] & -> & Hin). apply elem_of_zip_l in Hin.
    simpl in Hin. apply list_elem_of_lookup in Hin as [j Hj]. rewrite lookup_drop in Hj.
    pose proof (NoDup_lookup _ _ _ _ Hnodup Hn Hj). cbn [length] in *. lia. }
  assert (Henv : slow_args c posargs ∅ !! n = None).
  { unfold slow_args, dict_update. rewrite Hargnames.
    rewrite !lookup_union_None. by rewrite lookup_empty. }
  assert (Hpre : Forall2 (λ n v, slow_args c posargs ∅ !! n = Some v)
                   (take m names) posargs).
  { apply Forall2_same_length_lookup. split.
    - rewrite length_take. unfold m. lia.
    - intros i x v Hx Hv. apply lookup_take_Some in Hx as [Hx Hi].
      unfold slow_args, dict_update. rewrite Hargnames, (left_id_L ∅ (∪)).
      apply lookup_union_Some_l. by apply (dict_of_pairs_zip_lookup _ _ i). }
  assert (Hkey : (derive_key builtins c posargs ∅ (shared_dict st)).1
                 = Raise (NameError n)).
  { unfold derive_key. rewrite Htruthy, orb_true_r. cbn [fst].
    rewrite Hprog. fold names. rewrite <- (take_drop_middle names m n Hn).
    by apply (eval_default_program_unbound _ _ _ _ posargs). }
  rewrite (call_key_raises builtins _ _ _ _ _ _ _ Hkey). by eexists.
Qed.

End Edges.

(** *** The theorems at work *)

(** [def pair(x, y): return (x, y)], which never looks at the cache. *)
Definition pair : Memoize.Function nat :=
  {| co_varnames := ["x"; "y"]; co_argcount := 2; func_defaults := None;
     func_call := λ posargs kwargs counter,
       match posargs with
       | [x; y] => Done (Return (VTuple [x; y])) (S counter)
       | _ => Done (Raise Py.TypeError) counter
       end |}.

(** [memoize("x")(pair)]. *)
Definition pair_by_x : Memoize.Closure nat :=
  {| key_program := KeyExpr.EName "x"; argnames := ["x"; "y"]; defaults := ∅;
     pos_and_arg_tuples := [(0%nat, "x"); (1%nat, "y")]; wrapped := pair |}.

(** A function that calls itself through its wrapper: with [triangle] being
    the name of the wrapper, [def triangle(n)] returns [0] when [n == 0]
    and [n + triangle(n - 1)] otherwise. *)
Definition triangle : Memoize.Function nat :=
  {| co_varnames := ["n"]; co_argcount := 1; func_defaults := None;
     func_call := λ posargs kwargs counter,
       match posargs with
       | [VInt 0] => Done (Return (VInt 0)) (S counter)
       | [VInt n] =>
           Reenter [VInt (n - 1)] ∅ (S counter)
             (λ r counter',
                match r with
                | Return (VInt t) => Done (Return (VInt (n + t))) counter'
                | Return _ => Done (Raise Py.TypeError) counter'
                | Raise e => Done (Raise e) counter'
                end)
       | _ => Done (Raise Py.TypeError) counter
       end |}.

(** [memoize(triangle)]. *)
Definition triangle_wrapped : Memoize.Closure nat :=
  {| key_program := KeyExpr.EName "n"; argnames := ["n"]; defaults := ∅;
     pos_and_arg_tuples := [(0%nat, "n")]; wrapped := triangle |}.

Lemma memoize_triangle :
  memoize_new (inl triangle) = Some (Return (inl triangle_wrapped)).
Proof. reflexivity. Qed.

Lemma too_few_arguments_witness :
  memoize_call {| key := "(x)" |} square = Some (Return square_wrapped)
  ∧ (length ([] : list Value) < length (_arg_names square))%nat
  ∧ ∃ o, call pybuiltins 1 square_wrapped [] ∅ fresh_cells 0%nat = Some o
         ∧ result o = Raise IndexError.
Proof.
  assert (H1 : memoize_call {| key := "(x)" |} square = Some (Return square_wrapped))
    by reflexivity.
  assert (H2 : (length ([] : list Value) < length (_arg_names square))%nat)
    by (simpl; lia).
  split; [ exact H1 | ]. split; [ exact H2 | ].
  destruct (too_few_arguments pybuiltins _ _ _ [] fresh_cells 0%nat 0%nat H1
              (or_introl eq_refl) H2) as (o & Ho & Hr & _).
  by exists o.
Defined.

Lemma unhashable_argument_witness :
  Forall (λ n, KeyExpr.is_name n = true) (_arg_names square)
  ∧ NoDup (_arg_names square)
  ∧ Exists (λ v, hashable v = false) [VList [VInt 1]]
  ∧ ∃ o, call pybuiltins 1 square_wrapped [VList [VInt 1]] ∅ fresh_cells 0%nat = Some o
         ∧ result o = Raise Py.TypeError.
Proof.
  assert (H1 : Forall (λ n, KeyExpr.is_name n = true) (_arg_names square))
    by (repeat constructor).
  assert (H2 : NoDup (_arg_names square)) by compute_done.
  assert (H3 : Exists (λ v, hashable v = false) [VList [VInt 1]])
    by (left; reflexivity).
  split; [ exact H1 | ]. split; [ exact H2 | ]. split; [ exact H3 | ].
  destruct (unhashable_argument pybuiltins square square_wrapped [VList [VInt 1]]
              fresh_cells 0%nat 0%nat H1 H2 eq_refl eq_refl H3) as (o & Ho & Hr & _).
  by exists o.
Defined.

(** After [square(4)], the scratch dictionary holds [x = 4]; [square(5)]
    goes as with an empty one. *)
Lemma scratch_dictionary_is_sound_witness :
  ∃ st w,
    calls pybuiltins 1 square_wrapped [([VInt 4], ∅)] fresh_cells 0%nat = Some (st, w)
    ∧ shared_dict st !! "x" = Some (VInt 4)
    ∧ same_outcome square_wrapped
        (call pybuiltins 1 square_wrapped [VInt 5] ∅ st w)
        (call pybuiltins 1 square_wrapped [VInt 5] ∅
           {| memoized := memoized st; shared_dict := ∅ |} w).
Proof.
  assert (H1 : ∃ st w,
            calls pybuiltins 1 square_wrapped [([VInt 4], ∅)] fresh_cells 0%nat
            = Some (st, w)
            ∧ shared_dict st !! "x" = Some (VInt 4)).
  { do 2 eexists. split; reflexivity. }
  destruct H1 as (st & w & Hhist & Hx).
  exists st, w. split; [ exact Hhist | ]. split; [ exact Hx | ].
  exact (proj2 (scratch_dictionary_is_sound pybuiltins square_wrapped _ _ _ _ _
                  [VInt 5] ∅ Hhist) 1%nat).
Defined.


Lemma narrow_key_shares_entries_witness :
  memoize_call {| key := "x" |} pair = Some (Return pair_by_x)
  ∧ ∃ o1 o2,
      call pybuiltins 1 pair_by_x [VInt 1; VInt 2] ∅ fresh_cells 0%nat = Some o1
      ∧ result o1 = Return (VTuple [VInt 1; VInt 2])
      ∧ call pybuiltins 1 pair_by_x [VInt 1; VInt 3] ∅ (cells o1) (world o1) = Some o2
      ∧ result o2 = Return (VTuple [VInt 1; VInt 2])
      ∧ invoked o2 = [].
Proof.
  assert (H1 : memoize_call {| key := "x" |} pair = Some (Return pair_by_x))
    by reflexivity.
  split; [ exact H1 | ].
  assert (H2 : ∃ o1,
            call pybuiltins 1 pair_by_x [VInt 1; VInt 2] ∅ fresh_cells 0%nat = Some o1
            ∧ result o1 = Return (VTuple [VInt 1; VInt 2])).
  { eexists. split; reflexivity. }
  destruct H2 as (o1 & Ho1 & Hr).
  assert (H3 : NoDup (_arg_names pair)) by compute_done.
  destruct (narrow_key_shares_entries pybuiltins pair pair_by_x "x" 0 (VInt 1)
              [VInt 1; VInt 2] [VInt 1; VInt 3] fresh_cells 0%nat
              (VTuple [VInt 1; VInt 2]) 1 o1 eq_refl H1 H3 eq_refl eq_refl eq_refl
              eq_refl eq_refl Ho1 Hr 0%nat) as (o2 & Ho2 & Hr2 & Hinv2 & _).
  by exists o1, o2.
Defined.

Lemma missing_required_argument_witness :
  memoize_new (inl with_default) = Some (Return (inl with_default_wrapped))
  ∧ func_defaults with_default = Some [VInt 2]
  ∧ pybuiltins "x" = false
  ∧ ∃ o, call pybuiltins 1 with_default_wrapped [] ∅ fresh_cells 0%nat = Some o
         ∧ result o = Raise (NameError "x").
Proof.
  assert (H1 : Forall (λ n, KeyExpr.is_name n = true) (_arg_names with_default))
    by (repeat constructor).
  assert (H2 : NoDup (_arg_names with_default)) by compute_done.
  assert (H3 : memoize_new (inl with_default) = Some (Return (inl with_default_wrapped)))
    by reflexivity.
  assert (H4 : func_defaults with_default = Some [VInt 2]) by reflexivity.
  assert (H5 : [VInt 2] ≠ []) by discriminate.
  assert (H6 : (length [VInt 2] ≤ length (_arg_names with_default))%nat) by (simpl; lia).
  assert (H7 : (length ([] : list Value)
                < length (_arg_names with_default) - length [VInt 2])%nat) by (simpl; lia).
  split; [ exact H3 | ]. split; [ exact H4 | ]. split; [ reflexivity | ].
  destruct (missing_required_argument pybuiltins with_default with_default_wrapped
              [VInt 2] [] "x" fresh_cells 0%nat 0%nat H1 H2 H3 H4 H5 H6 H7 eq_refl eq_refl)
    as (o & Ho & Hr & _).
  by exists o.
Defined.

End MemoizeEdges.

(** ** Keys for sorting *)

Module SortKeySpec.
Import PyStr Utils KeyExpr KeyExprFacts PyStrFacts VersionsSpec.

(** The shape of [re.split(r"(\d+)", s)]: texts that [isdigit] refuses, with
    a run of digits between each two of them. *)
Inductive text_first : list string → Prop :=
| text_last (t : string) :
    isdigit t = false → text_first [t]
| text_then (t d : string) (rest : list string) :
    isdigit t = false → isdigit d = true → text_first rest →
    text_first (t :: d :: rest).

(** The shape of a key: strings, with an integer between each two. *)
Inductive alternating : list piece → Prop :=
| alt_last (s : string) : alternating [PStr s]
| alt_then (s : string) (n : Z) (rest : list piece) :
    alternating rest → alternating (PStr s :: PInt n :: rest).

Lemma isdigit_cons (c : ascii) (t : string) :
  isdigit (String c t) = is_digit c && match t with EmptyString => true | _ => isdigit t end.
Proof. by destruct t. Qed.

Lemma re_split_digits_shape (s : string) :
  text_first (re_split_digits s)
  ∧ (starts_with_digit s = true → ∃ d tail, re_split_digits s = EmptyString :: d :: tail).
Proof.
  induction s as [ | c rest [IH1 IH2] ].
  - split; [ by constructor | discriminate ].
  - cbn [re_split_digits starts_with_digit].
    destruct (is_digit c) eqn:Hc.
    + destruct (starts_with_digit rest) eqn:Hrest.
      * destruct (IH2 eq_refl) as (d & tail & E). rewrite E in IH1 |- *.
        inversion IH1 as [ | t d' rest' Ht Hd Hrest' ]; subst.
        split; [ | eauto ]. constructor; [ reflexivity | | exact Hrest' ].
        rewrite isdigit_cons, Hc. simpl. destruct d; [ discriminate | exact Hd ].
      * split; [ | eauto ]. constructor; [ reflexivity | | exact IH1 ].
        simpl. by rewrite Hc.
    + split; [ | discriminate ].
      inversion IH1 as [ t Ht E | t d rest' Ht Hd Hrest' E ].
      * constructor. by rewrite isdigit_cons, Hc.
      * constructor; [ by rewrite isdigit_cons, Hc | exact Hd | exact Hrest' ].
Qed.

Lemma key_pieces_alternating (l : list string) (ks : list piece) :
  text_first l → mapM key_piece l = Some ks → alternating ks.
Proof.
  intros Hl. revert ks. induction Hl as [ t Ht | t d rest Ht Hd _ IH ]; intros ks.
  - assert (Et : key_piece t = Some (PStr t)) by (unfold key_piece; by rewrite Ht).
    simpl. rewrite Et. simpl. intros [= <-]. constructor.
  - assert (Et : key_piece t = Some (PStr t)) by (unfold key_piece; by rewrite Ht).
    assert (Ed : key_piece d = None ∨ ∃ n, key_piece d = Some (PInt n)).
    { unfold key_piece. rewrite Hd. destruct (py_int d) as [[n | e] | ]; eauto. }
    simpl. rewrite Et. simpl. destruct Ed as [-> | [n ->]]; [ discriminate | ]. simpl.
    destruct (mapM key_piece rest) as [ks' | ]; simpl; [ | discriminate ].
    intros [= <-]. constructor. by apply IH.
Qed.

Lemma numeric_sort_key_alternating (s : string) (ks : list piece) :
  numeric_sort_key s = Some ks → alternating ks.
Proof.
  unfold numeric_sort_key. destruct (forallb is_ascii _); [ | discriminate ].
  apply key_pieces_alternating. apply re_split_digits_shape.
Qed.

Lemma key_lt_alternating (a b : list piece) :
  alternating a → alternating b → ∃ answer, key_lt a b = Ok answer.
Proof.
  intros Ha. revert b. induction Ha as [ s | s n ra _ IH ]; intros b Hb;
    destruct Hb as [ t | t m rb Hrb ]; cbn.
  - destruct (String.eqb s t); eauto.
  - destruct (String.eqb s t); eauto.
  - destruct (String.eqb s t); eauto.
  - destruct (String.eqb s t); [ | eauto ].
    destruct (n =? m); [ by apply IH | eauto ].
Qed.

Lemma digit_is_int_char (s : string) :
  forallb is_digit (list_ascii_of_string s) = true →
  forallb is_int_char (list_ascii_of_string s) = true.
Proof.
  induction s as [ | c s IH ]; [ reflexivity | ]. simpl.
  intros H. apply andb_true_iff in H as [Hc H]. unfold is_int_char at 1.
  by rewrite Hc, IH.
Qed.

Lemma digits_parse (s : string) :
  forallb is_digit (list_ascii_of_string s) = true →
  ∃ d, NilEmpty.uint_of_string s = Some d.
Proof.
  induction s as [ | c s IH ]; [ by exists Decimal.Nil | ]. simpl.
  intros H. apply andb_true_iff in H as [Hc H]. destruct (IH H) as [d ->].
  destruct c as [[] [] [] [] [] [] [] []]; try discriminate Hc; simpl; eauto.
Qed.

(** A run of digits is read as an integer. *)
Lemma key_piece_digits (d : string) :
  isdigit d = true → ∃ n, key_piece d = Some (PInt n).
Proof.
  intros Hd. unfold key_piece. rewrite Hd.
  destruct d as [ | c d ]; [ discriminate Hd | ].
  change (forallb is_digit (list_ascii_of_string (String c d)) = true) in Hd.
  unfold py_int. rewrite (digit_is_int_char _ Hd).
  destruct (digits_parse _ Hd) as [u Hu].
  assert (Hc : is_digit c = true) by (simpl in Hd; by apply andb_true_iff in Hd as [? _]).
  unfold NilZero.int_of_string, NilZero.uint_of_string.
  destruct (Ascii.eqb_spec c "-") as [-> | _]; [ discriminate Hc | ].
  rewrite Hu. simpl. eauto.
Qed.

Lemma key_pieces_total (l : list string) :
  text_first l → ∃ ks, mapM key_piece l = Some ks.
Proof.
  induction 1 as [ t Ht | t d rest Ht Hd _ [ks IH] ].
  - assert (Et : key_piece t = Some (PStr t)) by (unfold key_piece; by rewrite Ht).
    simpl. rewrite Et. simpl. eauto.
  - assert (Et : key_piece t = Some (PStr t)) by (unfold key_piece; by rewrite Ht).
    destruct (key_piece_digits d Hd) as [n En].
    simpl. rewrite Et. simpl. rewrite En. simpl. rewrite IH. simpl. eauto.
Qed.

(** On ASCII text [numeric_sort_key] has an answer. *)
Lemma numeric_sort_key_total (s : string) :
  forallb is_ascii (list_ascii_of_string s) = true →
  ∃ ks, numeric_sort_key s = Some ks.
Proof.
  intros Hs. unfold numeric_sort_key. rewrite Hs.
  apply key_pieces_total, re_split_digits_shape.
Qed.

(** On ASCII text a key is made of strings with an integer between each
    two, so that at any position the keys of two names hold two strings or
    two integers: comparing the keys never compares an integer with a
    string, and ends with an answer, not with [TypeError]. *)
Theorem numeric_sort_keys_compare (s t : string) :
  forallb is_ascii (list_ascii_of_string s) = true →
  forallb is_ascii (list_ascii_of_string t) = true →
  ∃ ks kt,
    numeric_sort_key s = Some ks
    ∧ numeric_sort_key t = Some kt
    ∧ alternating ks
    ∧ alternating kt
    ∧ ∃ answer, key_lt ks kt = Ok answer.
Proof.
  intros Hs Ht.
  destruct (numeric_sort_key_total s Hs) as [ks Eks].
  destruct (numeric_sort_key_total t Ht) as [kt Ekt].
  exists ks, kt. split; [ exact Eks | ]. split; [ exact Ekt | ].
  apply numeric_sort_key_alternating in Eks, Ekt.
  split; [ exact Eks | ]. split; [ exact Ekt | ]. by apply key_lt_alternating.
Qed.

Lemma numeric_sort_keys_compare_witness :
  forallb is_ascii (list_ascii_of_string "file10.txt") = true
  ∧ forallb is_ascii (list_ascii_of_string "7up") = true
  ∧ numeric_sort_key "file10.txt" = Some [PStr "file"; PInt 10; PStr ".txt"]
  ∧ numeric_sort_key "7up" = Some [PStr ""; PInt 7; PStr "up"]
  ∧ ∃ answer, key_lt [PStr "file"; PInt 10; PStr ".txt"] [PStr ""; PInt 7; PStr "up"]
              = Ok answer.
Proof.
  assert (H1 : forallb is_ascii (list_ascii_of_string "file10.txt") = true) by reflexivity.
  assert (H2 : forallb is_ascii (list_ascii_of_string "7up") = true) by reflexivity.
  destruct (numeric_sort_keys_compare "file10.txt" "7up" H1 H2)
    as (ks & kt & Eks & Ekt & _ & _ & Hlt).
  assert (E1 : ks = [PStr "file"; PInt 10; PStr ".txt"]).
  { vm_compute in Eks. congruence. }
  assert (E2 : kt = [PStr ""; PInt 7; PStr "up"]).
  { vm_compute in Ekt. congruence. }
  subst ks kt.
  split; [ exact H1 | ]. split; [ exact H2 | ]. split; [ exact Eks | ].
  split; [ exact Ekt | exact Hlt ].
Defined.

(** *** Numbers are ordered as numbers *)

Lemma chars_append (s t : string) :
  list_ascii_of_string (s ++ t) = list_ascii_of_string s ++ list_ascii_of_string t.
Proof.
  induction s as [ | c s IH ]; [ reflexivity | ].
  rewrite append_cons. simpl. by rewrite IH.
Qed.

Lemma uint_digits (d : Decimal.uint) :
  forallb is_digit (list_ascii_of_string (NilEmpty.string_of_uint d)) = true.
Proof. induction d; simpl; [ reflexivity | exact IHd .. ]. Qed.

Lemma str_digits (n : Z) :
  0 ≤ n →
  str n ≠ EmptyString ∧ forallb is_digit (list_ascii_of_string (str n)) = true.
Proof.
  intros Hn. unfold str. destruct n as [ | p | p ]; [ done | | lia ]. simpl.
  pose proof (Unsigned.to_uint_nonnil p) as Hnil.
  pose proof (uint_digits (Pos.to_uint p)) as Hd.
  unfold NilZero.string_of_uint. destruct (Pos.to_uint p); done.
Qed.

Lemma digits_ascii (s : string) :
  forallb is_digit (list_ascii_of_string s) = true →
  forallb is_ascii (list_ascii_of_string s) = true.
Proof.
  induction s as [ | c s IH ]; [ reflexivity | ]. simpl.
  intros H. apply andb_true_iff in H as [Hc H]. rewrite IH by done.
  rewrite andb_true_r. unfold is_digit in Hc. unfold is_ascii.
  apply andb_true_iff in Hc as [_ Hc]. apply Nat.leb_le in Hc. apply Nat.ltb_lt. lia.
Qed.

Lemma isdigit_run (d : string) :
  d ≠ EmptyString → forallb is_digit (list_ascii_of_string d) = true → isdigit d = true.
Proof. by destruct d. Qed.

Lemma re_split_digits_run (d : string) :
  d ≠ EmptyString →
  forallb is_digit (list_ascii_of_string d) = true →
  re_split_digits d = [EmptyString; d; EmptyString].
Proof.
  induction d as [ | c d IH ]; intros Hne Hd; [ done | ].
  simpl in Hd. apply andb_true_iff in Hd as [Hc Hd].
  cbn [re_split_digits]. rewrite Hc. destruct d as [ | c' d ].
  - reflexivity.
  - assert (Hc' : is_digit c' = true) by (simpl in Hd; by apply andb_true_iff in Hd as [? _]).
    cbn [starts_with_digit]. rewrite Hc'. by rewrite IH.
Qed.

Lemma re_split_digits_text (p x : string) :
  forallb (λ c, negb (is_digit c)) (list_ascii_of_string p) = true →
  re_split_digits (p ++ x)
  = match re_split_digits x with
    | t :: more => (p ++ t)%string :: more
    | [] => []
    end.
Proof.
  intros Hp. induction p as [ | c p IH ].
  - change (EmptyString ++ x)%string with x. by destruct (re_split_digits x).
  - simpl in Hp. apply andb_true_iff in Hp as [Hc Hp]. apply negb_true_iff in Hc.
    rewrite append_cons. cbn [re_split_digits]. rewrite Hc, IH by done.
    destruct (re_split_digits x) as [ | t more ] eqn:E; [ | reflexivity ].
    exfalso. pose proof (proj1 (re_split_digits_shape x)) as Hshape.
    rewrite E in Hshape. inversion Hshape.
Qed.

Lemma isdigit_text (p : string) :
  forallb (λ c, negb (is_digit c)) (list_ascii_of_string p) = true → isdigit p = false.
Proof.
  destruct p as [ | c p ]; [ reflexivity | ]. simpl.
  intros H. apply andb_true_iff in H as [Hc _]. apply negb_true_iff in Hc. by rewrite Hc.
Qed.

Lemma numeric_sort_key_numbered (p : string) (n : Z) :
  forallb is_ascii (list_ascii_of_string p) = true →
  forallb (λ c, negb (is_digit c)) (list_ascii_of_string p) = true →
  0 ≤ n →
  numeric_sort_key (p ++ str n) = Some [PStr p; PInt n; PStr EmptyString].
Proof.
  intros Hascii Hp Hn. destruct (str_digits n Hn) as [Hne Hd].
  unfold numeric_sort_key.
  rewrite chars_append, forallb_app, Hascii, (digits_ascii _ Hd). cbn [andb].
  rewrite re_split_digits_text, re_split_digits_run by done.
  rewrite append_nil_r. cbn. unfold key_piece.
  rewrite (isdigit_text p Hp), (isdigit_run _ Hne Hd), py_int_str. reflexivity.
Qed.

(** A name that is a text without digits followed by a number that is not
    negative has for key the text, the number and the empty text.  So two
    such names with the same text are ordered by their numbers, as numbers:
    [file9] comes before [file10]. *)
Theorem numeric_sort_key_orders_numbers (p : string) (m n : Z) :
  forallb is_ascii (list_ascii_of_string p) = true →
  forallb (λ c, negb (is_digit c)) (list_ascii_of_string p) = true →
  0 ≤ m < n →
  ∃ km kn,
    numeric_sort_key (p ++ str m) = Some km
    ∧ numeric_sort_key (p ++ str n) = Some kn
    ∧ km = [PStr p; PInt m; PStr EmptyString]
    ∧ key_lt km kn = Ok true
    ∧ key_lt kn km = Ok false.
Proof.
  intros Hascii Hp Hmn.
  exists [PStr p; PInt m; PStr EmptyString], [PStr p; PInt n; PStr EmptyString].
  split; [ apply numeric_sort_key_numbered; (done || lia) | ].
  split; [ apply numeric_sort_key_numbered; (done || lia) | ].
  split; [ reflexivity | ]. cbn. rewrite String.eqb_refl.
  rewrite (proj2 (Z.eqb_neq m n)) by lia. rewrite (proj2 (Z.eqb_neq n m)) by lia.
  rewrite (proj2 (Z.ltb_lt m n)) by lia. rewrite (proj2 (Z.ltb_ge n m)) by lia.
  by split.
Qed.

Lemma numeric_sort_key_orders_numbers_witness :
  0 ≤ 9 < 10
  ∧ numeric_sort_key "file9" = Some [PStr "file"; PInt 9; PStr ""]
  ∧ numeric_sort_key "file10" = Some [PStr "file"; PInt 10; PStr ""]
  ∧ key_lt [PStr "file"; PInt 9; PStr ""] [PStr "file"; PInt 10; PStr ""] = Ok true
  ∧ String.ltb "file9" "file10" = false.
Proof.
  assert (H : 0 ≤ 9 < 10) by lia.
  destruct (numeric_sort_key_orders_numbers "file" 9 10 eq_refl eq_refl H)
    as (km & kn & Hm & Hn & -> & Hlt & _).
  assert (Ekn : kn = [PStr "file"; PInt 10; PStr ""]).
  { change (numeric_sort_key "file10" = Some kn) in Hn. vm_compute in Hn. congruence. }
  subst kn.
  split; [ exact H | ]. split; [ exact Hm | ]. split; [ exact Hn | ].
  split; [ exact Hlt | reflexivity ].
Defined.

(** *** Leading zeros *)

Lemma py_int_leading_zero (s : string) :
  s ≠ EmptyString →
  forallb is_digit (list_ascii_of_string s) = true →
  py_int (String "0" s) = py_int s.
Proof.
  intros Hne Hd. unfold py_int.
  assert (H0 : forallb is_int_char (list_ascii_of_string (String "0" s)) = true).
  { simpl. by rewrite (digit_is_int_char s Hd). }
  rewrite H0, (digit_is_int_char s Hd). f_equal.
  destruct (digits_parse s Hd) as [d Ed].
  destruct s as [ | c s ]; [ done | ].
  assert (Hc : is_digit c = true) by (simpl in Hd; by apply andb_true_iff in Hd as [? _]).
  unfold NilZero.int_of_string, NilZero.uint_of_string.
  change (Ascii.eqb "0" "-") with false. cbn iota.
  destruct (Ascii.eqb_spec c "-") as [-> | _]; [ discriminate Hc | ].
  change (NilEmpty.uint_of_string (String "0" (String c s)))
    with (uint_of_char "0" (NilEmpty.uint_of_string (String c s))).
  rewrite Ed. reflexivity.
Qed.

Lemma zeros_then_digits (k : nat) (s : string) :
  s ≠ EmptyString →
  forallb is_digit (list_ascii_of_string s) = true →
  (repeat_char "0" k ++ s)%string ≠ EmptyString
  ∧ forallb is_digit (list_ascii_of_string (repeat_char "0" k ++ s)) = true
  ∧ py_int (repeat_char "0" k ++ s) = py_int s.
Proof.
  intros Hne Hd. induction k as [ | k (IH1 & IH2 & IH3) ].
  - by change (repeat_char "0" 0 ++ s)%string with s.
  - change (repeat_char "0" (S k) ++ s)%string with (String "0" (repeat_char "0" k ++ s)).
    split; [ done | ]. split; [ simpl; exact IH2 | ].
    by rewrite py_int_leading_zero.
Qed.

Lemma numeric_sort_key_run (p d : string) (n : Z) :
  forallb is_ascii (list_ascii_of_string p) = true →
  forallb (λ c, negb (is_digit c)) (list_ascii_of_string p) = true →
  d ≠ EmptyString →
  forallb is_digit (list_ascii_of_string d) = true →
  py_int d = Some (Ok n) →
  numeric_sort_key (p ++ d) = Some [PStr p; PInt n; PStr EmptyString].
Proof.
  intros Hascii Hp Hne Hd Hint. unfold numeric_sort_key.
  rewrite chars_append, forallb_app, Hascii, (digits_ascii _ Hd). cbn [andb].
  rewrite re_split_digits_text, re_split_digits_run by done.
  rewrite append_nil_r. cbn. unfold key_piece.
  rewrite (isdigit_text p Hp), (isdigit_run _ Hne Hd), Hint. reflexivity.
Qed.

(** Zeros in front of a number do not show in the key: the names [a7],
    [a07] and [a007] have one and the same key, so that a sort by this key
    takes them for equal and leaves them in the order it found them. *)
Theorem numeric_sort_key_leading_zeros (p : string) (k : nat) (n : Z) :
  forallb is_ascii (list_ascii_of_string p) = true →
  forallb (λ c, negb (is_digit c)) (list_ascii_of_string p) = true →
  0 ≤ n →
  numeric_sort_key (p ++ repeat_char "0" k ++ str n) = numeric_sort_key (p ++ str n)
  ∧ numeric_sort_key (p ++ str n) = Some [PStr p; PInt n; PStr EmptyString].
Proof.
  intros Hascii Hp Hn. destruct (str_digits n Hn) as [Hne Hd].
  destruct (zeros_then_digits k (str n) Hne Hd) as (Hne' & Hd' & Hint).
  rewrite py_int_str in Hint.
  rewrite (numeric_sort_key_run p _ n Hascii Hp Hne' Hd' Hint).
  by rewrite (numeric_sort_key_run p _ n Hascii Hp Hne Hd (py_int_str n)).
Qed.

Lemma numeric_sort_key_leading_zeros_witness :
  0 ≤ 7
  ∧ numeric_sort_key "a007" = numeric_sort_key "a7"
  ∧ numeric_sort_key "a7" = Some [PStr "a"; PInt 7; PStr ""].
Proof.
  assert (H : 0 ≤ 7) by lia. split; [ exact H | ].
  exact (numeric_sort_key_leading_zeros "a" 2 7 eq_refl eq_refl H).
Defined.

End SortKeySpec.

(** ** AnnotatingDecorator: many registrations *)

Module AnnotatingDecoratorMore.
Import AnnotatingDecorator.

Section Registry.
Context {F V : Type}.
Variable name_of : F → string.

(** The value of the last function of that name in a series of decorated
    definitions. *)
Fixpoint last_registered (name : string) (regs : list (V * F)) : option V :=
  match regs with
  | [] => None
  | (v, f) :: rest =>
      match last_registered name rest with
      | Some v' => Some v'
      | None => if String.eqb (name_of f) name then Some v else None
      end
  end.

(** After any series of decorated definitions the registry holds, under
    each name, the value given to the last function of that name, and what
    it held before under the names that no function of the series has.  So
    the names registered from an empty registry are exactly the names of
    the decorated functions. *)
Theorem registry_holds_last (regs : list (V * F)) (self : AnnotatingDecorator)
    (name : string) :
  lookup (register_all name_of regs self) !! name
  = match last_registered name regs with
    | Some v => Some v
    | None => lookup self !! name
    end
  ∧ (is_Some (lookup (register_all name_of regs init) !! name)
     ↔ name ∈ map (λ vf, name_of vf.2) regs).
Proof.
  assert (Hlast : ∀ self : AnnotatingDecorator,
            lookup (register_all name_of regs self) !! name
            = match last_registered name regs with
              | Some v => Some v
              | None => lookup self !! name
              end).
  { induction regs as [ | [v f] regs IH ]; intros self'; [ reflexivity | ].
    simpl. rewrite IH. simpl. destruct (last_registered name regs); [ reflexivity | ].
    destruct (String.eqb_spec (name_of f) name) as [<- | Hne].
    - apply lookup_insert_eq.
    - by apply lookup_insert_ne. }
  split; [ apply Hlast | ].
  rewrite Hlast. simpl. rewrite lookup_empty.
  clear. induction regs as [ | [v f] regs IH ]; simpl.
  - rewrite elem_of_nil. split; [ intros [? ?]; discriminate | done ].
  - rewrite elem_of_cons. destruct (last_registered name regs) as [v' | ].
    + split; [ intros _; right; apply IH; eauto | eauto ].
    + destruct (String.eqb_spec (name_of f) name) as [<- | Hne].
      * split; [ by left | eauto ].
      * split; [ intros [? ?]; discriminate | ].
        intros [-> | Hin]; [ done | ]. apply IH in Hin as [? ?]. discriminate.
Qed.

End Registry.
End AnnotatingDecoratorMore.
